(** * cross-terminal: the memory subsystem and the shell execution core

    A shallow embedding of [memory/memory_manager.h] (MemoryPool,
    StackAllocator, MemoryManager) and of [core/implementations/shell_impl.h]
    (ProcessIO, ManagedProcess, ShellImpl), followed by the properties
    proved about them.

    Conventions.
    - [size_t] and [uintptr_t] values are integers in [0, 2^64); every
      operation that can leave that range is written with [wrap64].
    - [std::atomic<int>] values are integers in [-2^31, 2^31), wrapped
      by [wrap_int].
    - A pointer is its address; [nullptr] is address 0.
    - Each object is accessed by one thread at a time: locks, memory
      orders and the retry of a failed [compare_exchange_weak] have no
      counterpart here. *)

From stdpp Require Import base list gmap strings.
From Stdlib Require Import ZArith Lia Ascii.

(** ** Machine integers *)

Definition size_t_modulus : Z := 2 ^ 64.

Definition wrap64 (z : Z) : Z := z mod size_t_modulus.

Definition wrap_int (z : Z) : Z := (z + 2 ^ 31) mod 2 ^ 32 - 2 ^ 31.

Definition nullptr : Z := 0.

(** ** MemoryPool<T, PoolSize> *)

Module MemoryPool.

Section Pool.

(** Template parameter [PoolSize], [sizeof(StorageBlock)] and the address
    of [storage_[0]]. *)
Variable PoolSize : nat.
Variable block_size : Z.
Variable storage_begin : Z.

(** [used_] is the [std::bitset<PoolSize>], bit [i] at list position [i]. *)
Record t : Type := mk {
  used_ : list bool;
  next_free_ : nat;
  allocated_count_ : Z
}.

(** State of a default-constructed pool. *)
Definition init : t :=
  {| used_ := replicate PoolSize false; next_free_ := 0; allocated_count_ := 0 |}.

(** [used_[i]] *)
Definition bit (u : list bool) (i : nat) : bool := default false (u !! i).

(** One of the two [for] loops of [find_free_slot]: visits [i], [i+1], ...
    for [n] iterations and stops at the first clear bit. *)
Fixpoint scan (u : list bool) (i n : nat) : option nat :=
  match n with
  | O => None
  | S n' => if bit u i then scan u (S i) n' else Some i
  end.

(** Returns the slot found ([PoolSize] when there is none) and the pool
    with its [next_free_] cursor moved. *)
Definition find_free_slot (p : t) : nat * t :=
  match scan (used_ p) (next_free_ p) (PoolSize - next_free_ p) with
  | Some i =>
      (i, {| used_ := used_ p; next_free_ := (i + 1) mod PoolSize;
             allocated_count_ := allocated_count_ p |})
  | None =>
      match scan (used_ p) 0 (next_free_ p) with
      | Some i =>
          (i, {| used_ := used_ p; next_free_ := (i + 1) mod PoolSize;
                 allocated_count_ := allocated_count_ p |})
      | None => (PoolSize, p)
      end
  end.

(** Address of [storage_[slot]]. *)
Definition slot_address (slot : nat) : Z :=
  (storage_begin + Z.of_nat slot * block_size)%Z.

Definition allocate (p : t) : Z * t :=
  let '(slot, p1) := find_free_slot p in
  if (PoolSize <=? slot)%nat then (nullptr, p1)
  else (slot_address slot,
        {| used_ := <[slot := true]> (used_ p1);
           next_free_ := next_free_ p1;
           allocated_count_ := wrap64 (allocated_count_ p1 + 1) |}).

(** [(ptr_addr - storage_begin) / sizeof(StorageBlock)] *)
Definition slot_of (ptr : Z) : nat :=
  Z.to_nat ((ptr - storage_begin) / block_size).

Definition storage_end : Z := slot_address PoolSize.

Definition deallocate (p : t) (ptr : Z) : t :=
  if (ptr =? nullptr)%Z then p
  else if ((ptr <? storage_begin) || (storage_end <=? ptr))%Z then p
  else
    let slot := slot_of ptr in
    if (slot <? PoolSize)%nat && bit (used_ p) slot then
      {| used_ := <[slot := false]> (used_ p);
         next_free_ := if (slot <? next_free_ p)%nat then slot else next_free_ p;
         allocated_count_ := wrap64 (allocated_count_ p - 1) |}
    else p.

Definition allocated (p : t) : Z := allocated_count_ p.

Definition available (p : t) : Z := wrap64 (Z.of_nat PoolSize - allocated p).

Definition is_full (p : t) : bool := (Z.of_nat PoolSize <=? allocated p)%Z.

Definition is_empty (p : t) : bool := (allocated p =? 0)%Z.

(** Calls a client can make, and the pool after a sequence of them. *)
Inductive op : Type :=
| Allocate
| Deallocate (ptr : Z).

Definition step (p : t) (o : op) : t :=
  match o with
  | Allocate => snd (allocate p)
  | Deallocate ptr => deallocate p ptr
  end.

Definition run (ops : list op) : t := foldl step init ops.

(** The same run, also keeping the addresses handed out by [allocate]
    whose slot bit no [deallocate] has cleared since: the live
    allocations, most recent first. *)
Definition step_live (st : t * list Z) (o : op) : t * list Z :=
  let '(p, live) := st in
  match o with
  | Allocate =>
      let '(ptr, p') := allocate p in
      (p', if (ptr =? nullptr)%Z then live else ptr :: live)
  | Deallocate ptr =>
      let p' := deallocate p ptr in
      (p', filter (fun a => bit (used_ p') (slot_of a) = true) live)
  end.

Definition run_live (ops : list op) : t * list Z := foldl step_live (init, []) ops.

(** Number of set bits, [used_.count()]. *)
Fixpoint popcount (u : list bool) : nat :=
  match u with
  | [] => 0
  | b :: r => (if b then 1 else 0) + popcount r
  end.

(** The bitmap has [PoolSize] bits and the cursor stays inside it. *)
Definition shape (p : t) : Prop :=
  length (used_ p) = PoolSize /\ next_free_ p <= PoolSize.

(** [allocated_count_ == used_.count()] *)
Definition counted (p : t) : Prop :=
  allocated_count_ p = Z.of_nat (popcount (used_ p)).

(** All slots in use. *)
Definition exhausted (p : t) : Prop :=
  forall i, i < PoolSize -> bit (used_ p) i = true.

(** Every live allocation is the non-null address of a slot whose bit is
    set, and no address is listed twice. *)
Definition live_ok (st : t * list Z) : Prop :=
  shape (fst st) /\ NoDup (snd st) /\
  forall a, a ∈ snd st ->
    exists slot, slot < PoolSize /\ a <> nullptr /\ a = slot_address slot /\
                 bit (used_ (fst st)) slot = true.

End Pool.

End MemoryPool.

(** ** StackAllocator<StackSize> *)

Module StackAllocator.

Section Stack.

(** Template parameter [StackSize], the exponent of
    [alignof(std::max_align_t)] (a power of two fixed by the platform ABI,
    16 = 2^4 on x86-64 and AArch64) and the address of [stack_[0]]. *)
Variable StackSize : Z.
Variable max_align_log2 : Z.
Variable stack_begin : Z.

Definition max_align : Z := 2 ^ max_align_log2.

(** [align_up<Alignment>(size)]: [(size + Alignment - 1) & ~(Alignment - 1)]
    in [size_t] arithmetic. *)
Definition align_up (alignment size : Z) : Z :=
  Z.land (wrap64 (size + alignment - 1)) (wrap64 (Z.lnot (alignment - 1))).

Record t : Type := mk { top_ : Z }.

Definition init : t := {| top_ := 0 |}.

(** The [alignment] argument is accepted and never read. *)
Definition allocate (st : t) (size alignment : Z) : Z * t :=
  let size := align_up max_align size in
  let current_top := top_ st in
  let aligned_top := align_up max_align current_top in
  let new_top := wrap64 (aligned_top + size) in
  if (StackSize <? new_top)%Z then (nullptr, st)
  else ((stack_begin + aligned_top)%Z, {| top_ := new_top |}).

Definition deallocate_to (st : t) (ptr : Z) : t :=
  if (ptr =? nullptr)%Z then st
  else if ((stack_begin <=? ptr) && (ptr <? wrap64 (stack_begin + StackSize)))%Z
       then {| top_ := (ptr - stack_begin)%Z |}
       else st.

Definition reset (st : t) : t := {| top_ := 0 |}.

Definition used (st : t) : Z := top_ st.

Definition available (st : t) : Z := wrap64 (StackSize - used st).

(** The public operations. *)
Inductive op : Type :=
| Allocate (size alignment : Z)
| DeallocateTo (ptr : Z)
| Reset
| Used
| Available.

Definition step (st : t) (o : op) : t :=
  match o with
  | Allocate size alignment => snd (allocate st size alignment)
  | DeallocateTo ptr => deallocate_to st ptr
  | Reset => reset st
  | Used => st
  | Available => st
  end.

Definition run (ops : list op) : t := foldl step init ops.

Definition is_reset (o : op) : bool :=
  match o with Reset => true | _ => false end.

Definition is_deallocate_to (o : op) : bool :=
  match o with DeallocateTo _ => true | _ => false end.

(** [allocate] computes [new_top = aligned_top + size] without leaving
    [size_t]. *)
Definition sum_in_range (st : t) (o : op) : Prop :=
  match o with
  | Allocate size _ =>
      (align_up max_align (top_ st) + align_up max_align size < size_t_modulus)%Z
  | _ => True
  end.

(** The offset stays inside the buffer. *)
Definition in_bounds (st : t) : Prop := (0 <= top_ st <= StackSize)%Z.

End Stack.

End StackAllocator.

(** ** MemoryManager *)

Module MemoryManager.

Section Manager.

(** [sizeof(StorageBlock)] of the three [MemoryPool<char, _>] members, the
    addresses of their storage and of the stack allocator's buffer, and the
    exponent of [alignof(std::max_align_t)]. *)
Variable block_size : Z.
Variable small_begin medium_begin large_begin : Z.
Variable stack_begin : Z.
Variable max_align_log2 : Z.

(** The system allocator ([std::aligned_alloc], [std::free]) acts on a heap
    that is not part of this repository. *)
Context {Heap : Type}.
Variable aligned_alloc : Heap -> Z -> Z -> Z * Heap.
Variable free : Heap -> Z -> Heap.

Definition small_size : nat := 4096.
Definition medium_size : nat := 2048.
Definition large_size : nat := 1024.
Definition temp_size : Z := 16384.

Record t : Type := mk {
  small_object_pool_ : MemoryPool.t;
  medium_object_pool_ : MemoryPool.t;
  large_object_pool_ : MemoryPool.t;
  stack_allocator_ : StackAllocator.t;
  total_allocated_ : Z;
  total_deallocated_ : Z;
  peak_usage_ : Z;
  allocation_histogram_ : gmap Z Z
}.

Definition init : t :=
  {| small_object_pool_ := MemoryPool.init small_size;
     medium_object_pool_ := MemoryPool.init medium_size;
     large_object_pool_ := MemoryPool.init large_size;
     stack_allocator_ := StackAllocator.init;
     total_allocated_ := 0;
     total_deallocated_ := 0;
     peak_usage_ := 0;
     allocation_histogram_ := ∅ |}.

Definition set_small (m : t) (p : MemoryPool.t) : t :=
  {| small_object_pool_ := p;
     medium_object_pool_ := medium_object_pool_ m;
     large_object_pool_ := large_object_pool_ m;
     stack_allocator_ := stack_allocator_ m;
     total_allocated_ := total_allocated_ m;
     total_deallocated_ := total_deallocated_ m;
     peak_usage_ := peak_usage_ m;
     allocation_histogram_ := allocation_histogram_ m |}.

Definition set_medium (m : t) (p : MemoryPool.t) : t :=
  {| small_object_pool_ := small_object_pool_ m;
     medium_object_pool_ := p;
     large_object_pool_ := large_object_pool_ m;
     stack_allocator_ := stack_allocator_ m;
     total_allocated_ := total_allocated_ m;
     total_deallocated_ := total_deallocated_ m;
     peak_usage_ := peak_usage_ m;
     allocation_histogram_ := allocation_histogram_ m |}.

Definition set_large (m : t) (p : MemoryPool.t) : t :=
  {| small_object_pool_ := small_object_pool_ m;
     medium_object_pool_ := medium_object_pool_ m;
     large_object_pool_ := p;
     stack_allocator_ := stack_allocator_ m;
     total_allocated_ := total_allocated_ m;
     total_deallocated_ := total_deallocated_ m;
     peak_usage_ := peak_usage_ m;
     allocation_histogram_ := allocation_histogram_ m |}.

Definition set_stack (m : t) (s : StackAllocator.t) : t :=
  {| small_object_pool_ := small_object_pool_ m;
     medium_object_pool_ := medium_object_pool_ m;
     large_object_pool_ := large_object_pool_ m;
     stack_allocator_ := s;
     total_allocated_ := total_allocated_ m;
     total_deallocated_ := total_deallocated_ m;
     peak_usage_ := peak_usage_ m;
     allocation_histogram_ := allocation_histogram_ m |}.

(** [fetch_add] hands back the value held before the addition, and that is
    what the peak is compared with. *)
Definition update_statistics (m : t) (size : Z) (allocating : bool) : t :=
  if allocating then
    let current := total_allocated_ m in
    let current_peak := peak_usage_ m in
    {| small_object_pool_ := small_object_pool_ m;
       medium_object_pool_ := medium_object_pool_ m;
       large_object_pool_ := large_object_pool_ m;
       stack_allocator_ := stack_allocator_ m;
       total_allocated_ := wrap64 (total_allocated_ m + size);
       total_deallocated_ := total_deallocated_ m;
       peak_usage_ := if (current_peak <? current)%Z then current else current_peak;
       allocation_histogram_ :=
         <[size := wrap64 (default 0%Z (allocation_histogram_ m !! size) + 1)]>
           (allocation_histogram_ m) |}
  else
    {| small_object_pool_ := small_object_pool_ m;
       medium_object_pool_ := medium_object_pool_ m;
       large_object_pool_ := large_object_pool_ m;
       stack_allocator_ := stack_allocator_ m;
       total_allocated_ := total_allocated_ m;
       total_deallocated_ := wrap64 (total_deallocated_ m + size);
       peak_usage_ := peak_usage_ m;
       allocation_histogram_ := allocation_histogram_ m |}.

Definition allocate (m : t) (h : Heap) (size alignment : Z) : Z * t * Heap :=
  let '(ptr, m1, h1) :=
    if (size <=? 64)%Z then
      let '(ptr, p) := MemoryPool.allocate small_size block_size small_begin
                         (small_object_pool_ m) in
      (ptr, set_small m p, h)
    else if (size <=? 512)%Z then
      let '(ptr, p) := MemoryPool.allocate medium_size block_size medium_begin
                         (medium_object_pool_ m) in
      (ptr, set_medium m p, h)
    else if (size <=? 4096)%Z then
      let '(ptr, p) := MemoryPool.allocate large_size block_size large_begin
                         (large_object_pool_ m) in
      (ptr, set_large m p, h)
    else
      let '(ptr, h') := aligned_alloc h alignment size in
      (ptr, m, h') in
  if (ptr =? nullptr)%Z then (ptr, m1, h1)
  else (ptr, update_statistics m1 size true, h1).

Definition deallocate (m : t) (h : Heap) (ptr size : Z) : t * Heap :=
  if (ptr =? nullptr)%Z then (m, h)
  else
    let '(m1, h1, deallocated) :=
      if (size <=? 64)%Z then
        (set_small m (MemoryPool.deallocate small_size block_size small_begin
                        (small_object_pool_ m) ptr), h, true)
      else if (size <=? 512)%Z then
        (set_medium m (MemoryPool.deallocate medium_size block_size medium_begin
                         (medium_object_pool_ m) ptr), h, true)
      else if (size <=? 4096)%Z then
        (set_large m (MemoryPool.deallocate large_size block_size large_begin
                        (large_object_pool_ m) ptr), h, true)
      else (m, free h ptr, true) in
    if deallocated then (update_statistics m1 size false, h1) else (m1, h1).

(** [deallocate] above is the manager and the heap the call returns with.
    Its branch above 4096 bytes hands [ptr] to [std::free], which is
    defined on a block the system allocator has handed out and not taken
    back and on no other non-null pointer: the call does not return from
    anything else. [issued h ptr] says that [ptr] is such a block of the
    heap [h]. *)
Variable issued : Heap -> Z -> bool.

Definition deallocate_defined (h : Heap) (ptr size : Z) : bool :=
  (ptr =? nullptr)%Z || (size <=? 4096)%Z || issued h ptr.

(** The call as the program runs it: what it returns with, or nothing when
    it reaches [std::free] with a pointer [std::free] is not defined on. *)
Definition deallocate_checked (m : t) (h : Heap) (ptr size : Z) : option (t * Heap) :=
  if deallocate_defined h ptr size then Some (deallocate m h ptr size) else None.

Definition allocate_temp (m : t) (size alignment : Z) : Z * t :=
  let '(ptr, s) := StackAllocator.allocate temp_size max_align_log2 stack_begin
                     (stack_allocator_ m) size alignment in
  (ptr, set_stack m s).

Definition reset_temp (m : t) : t :=
  set_stack m (StackAllocator.reset (stack_allocator_ m)).

(** The three [double] utilisation figures are kept as the exact fractions
    [allocated() / PoolSize], numerator first. *)
Record MemoryStats : Type := mkStats {
  total_allocated : Z;
  total_deallocated : Z;
  current_usage : Z;
  peak_usage : Z;
  pool_utilization_small : Z * Z;
  pool_utilization_medium : Z * Z;
  pool_utilization_large : Z * Z;
  stack_usage : Z
}.

Definition get_stats (m : t) : MemoryStats :=
  {| total_allocated := total_allocated_ m;
     total_deallocated := total_deallocated_ m;
     current_usage := wrap64 (total_allocated_ m - total_deallocated_ m);
     peak_usage := peak_usage_ m;
     pool_utilization_small :=
       (MemoryPool.allocated (small_object_pool_ m), Z.of_nat small_size);
     pool_utilization_medium :=
       (MemoryPool.allocated (medium_object_pool_ m), Z.of_nat medium_size);
     pool_utilization_large :=
       (MemoryPool.allocated (large_object_pool_ m), Z.of_nat large_size);
     stack_usage := StackAllocator.used (stack_allocator_ m) |}.

(** The pool that serves a request of [size] bytes, if one does. *)
Definition pool_for (m : t) (size : Z) : option (MemoryPool.t * nat) :=
  if (size <=? 64)%Z then Some (small_object_pool_ m, small_size)
  else if (size <=? 512)%Z then Some (medium_object_pool_ m, medium_size)
  else if (size <=? 4096)%Z then Some (large_object_pool_ m, large_size)
  else None.

(** Calls a client can make, and the manager and heap after a sequence of
    them, each call taken as returning. *)
Inductive op : Type :=
| Allocate (size alignment : Z)
| Deallocate (ptr size : Z)
| AllocateTemp (size alignment : Z)
| ResetTemp.

Definition step (st : t * Heap) (o : op) : t * Heap :=
  let '(m, h) := st in
  match o with
  | Allocate size alignment =>
      let '(_, m', h') := allocate m h size alignment in (m', h')
  | Deallocate ptr size => deallocate m h ptr size
  | AllocateTemp size alignment => (snd (allocate_temp m size alignment), h)
  | ResetTemp => (reset_temp m, h)
  end.

Definition run (ops : list op) (h : Heap) : t * Heap := foldl step (init, h) ops.

Definition pools_shaped (m : t) : Prop :=
  MemoryPool.shape small_size (small_object_pool_ m) /\
  MemoryPool.shape medium_size (medium_object_pool_ m) /\
  MemoryPool.shape large_size (large_object_pool_ m).

End Manager.

End MemoryManager.

(** ** The shell execution core *)

Module Shell.

Local Open Scope string_scope.

Inductive ProcessState : Type :=
| NotStarted
| Running
| Completed
| Failed
| Terminated
| Suspended.

Record ProcessInfo : Type := mkInfo {
  pid : Z;
  parent_pid : Z;
  state : ProcessState;
  exit_code : Z;
  start_time : Z;
  end_time : Z;
  command : string;
  arguments : list string;
  working_dir : string
}.

(** [ProcessInfo()] *)
Definition ProcessInfo_default : ProcessInfo :=
  {| pid := 0; parent_pid := 0; state := NotStarted; exit_code := 0;
     start_time := 0; end_time := 0; command := ""; arguments := [];
     working_dir := "" |}.

Definition set_state (i : ProcessInfo) (st : ProcessState) : ProcessInfo :=
  {| pid := pid i; parent_pid := parent_pid i; state := st;
     exit_code := exit_code i; start_time := start_time i;
     end_time := end_time i; command := command i;
     arguments := arguments i; working_dir := working_dir i |}.

Definition set_end_time (i : ProcessInfo) (t : Z) : ProcessInfo :=
  {| pid := pid i; parent_pid := parent_pid i; state := state i;
     exit_code := exit_code i; start_time := start_time i;
     end_time := t; command := command i;
     arguments := arguments i; working_dir := working_dir i |}.

(** Modelled from the spec: [Environment] (declared in i_shell.h, its
    member functions are not in the sources): a mapping of variable name to
    value with unique keys. [get] of an unset name is taken to be the empty
    string, which is what [executeBuiltinCd] tests for. *)
Definition Environment_get (env : gmap string string) (name : string) : string :=
  default "" (env !! name).

Definition Environment_set (env : gmap string string) (name value : string)
  : gmap string string :=
  <[name := value]> env.

Record ExecutionOptions : Type := mkOptions {
  working_directory : string;
  environment : gmap string string;
  capture_output : bool;
  merge_stderr : bool;
  timeout_ms : Z;
  run_in_background : bool;
  priority : Z
}.

Definition ExecutionOptions_default : ExecutionOptions :=
  {| working_directory := ""; environment := ∅; capture_output := true;
     merge_stderr := false; timeout_ms := 0; run_in_background := false;
     priority := 0 |}.

(** The POSIX branch of [ProcessHandle]; its [pid] member is
    [handle_pid]. *)
Record ProcessHandle : Type := mkHandle {
  handle_pid : Z;
  stdin_fd : Z;
  stdout_fd : Z;
  stderr_fd : Z
}.

Definition ProcessHandle_new : ProcessHandle :=
  {| handle_pid := -1; stdin_fd := -1; stdout_fd := -1; stderr_fd := -1 |}.

(** *** ProcessIO

    Each buffer is the whole [char] array; the first [*_size_] elements
    are the bytes appended so far. *)

Definition BUFFER_SIZE : nat := Z.to_nat 8192.

Record ProcessIO : Type := mkIO {
  stdout_buffer_ : list ascii;
  stderr_buffer_ : list ascii;
  stdout_size_ : nat;
  stderr_size_ : nat
}.

Definition ProcessIO_new : ProcessIO :=
  {| stdout_buffer_ := replicate BUFFER_SIZE Ascii.zero;
     stderr_buffer_ := replicate BUFFER_SIZE Ascii.zero;
     stdout_size_ := 0; stderr_size_ := 0 |}.

(** The body shared by [appendStdout] and [appendStderr]: the buffer and
    size after appending [data]. *)
Definition append_buffer (buffer : list ascii) (used : nat) (data : list ascii)
  : list ascii * nat :=
  let size := length data in
  let buffer1 :=
    if (BUFFER_SIZE <? used + size)%nat then
      let new_size := Nat.max (BUFFER_SIZE * 2) (used + size) in
      (take used buffer ++ replicate (new_size - used) Ascii.zero)%list
    else buffer in
  ((take used buffer1 ++ data ++ drop (used + size) buffer1)%list, (used + size)%nat).

Definition appendStdout (io : ProcessIO) (data : list ascii) : ProcessIO :=
  let '(b, n) := append_buffer (stdout_buffer_ io) (stdout_size_ io) data in
  {| stdout_buffer_ := b; stderr_buffer_ := stderr_buffer_ io;
     stdout_size_ := n; stderr_size_ := stderr_size_ io |}.

Definition appendStderr (io : ProcessIO) (data : list ascii) : ProcessIO :=
  let '(b, n) := append_buffer (stderr_buffer_ io) (stderr_size_ io) data in
  {| stdout_buffer_ := stdout_buffer_ io; stderr_buffer_ := b;
     stdout_size_ := stdout_size_ io; stderr_size_ := n |}.

Definition getStdout (io : ProcessIO) : string :=
  String.string_of_list_ascii (take (stdout_size_ io) (stdout_buffer_ io)).

Definition getStderr (io : ProcessIO) : string :=
  String.string_of_list_ascii (take (stderr_size_ io) (stderr_buffer_ io)).

Definition getAllOutput (io : ProcessIO) : string :=
  String.string_of_list_ascii (take (stdout_size_ io) (stdout_buffer_ io))
  +:+ String.string_of_list_ascii (take (stderr_size_ io) (stderr_buffer_ io)).

Definition clear (io : ProcessIO) : ProcessIO :=
  {| stdout_buffer_ := stdout_buffer_ io; stderr_buffer_ := stderr_buffer_ io;
     stdout_size_ := 0; stderr_size_ := 0 |}.

Definition hasData (io : ProcessIO) : bool :=
  (0 <? stdout_size_ io)%nat || (0 <? stderr_size_ io)%nat.

(** *** ParsedCommand

    Its [arguments] and [run_in_background] members are
    [parsed_arguments] and [parsed_run_in_background] here, the plain
    names being those of [ProcessInfo] and [ExecutionOptions]. *)

Record ParsedCommand : Type := mkParsed {
  executable : string;
  parsed_arguments : list string;
  input_redirections : list string;
  output_redirections : list string;
  append_output : bool;
  parsed_run_in_background : bool
}.

Definition string_empty (s : string) : bool :=
  match s with EmptyString => true | String _ _ => false end.

Definition isValid (c : ParsedCommand) : bool := negb (string_empty (executable c)).

Definition SIGKILL : Z := 9.
Definition SIGTERM : Z := 15.

Section Core.

(** The operating system, reached through the calls the shell makes:
    [chdir] and [kill] return their result code and the system after the
    call, [getcwd] the current directory or nothing on failure, [now] the
    system clock in milliseconds. *)
Context {OS : Type}.
Variable chdir : string -> OS -> Z * OS.
Variable getcwd : OS -> option string.
Variable now : OS -> Z.
Variable sys_kill : Z -> Z -> OS -> Z * OS.

(** [std::stoi]; nothing when it throws. *)
Variable stoi : string -> option Z.

(** [CommandParser::parse] is declared in shell_impl.h and defined in no
    source file. *)
Variable parse : string -> gmap string string -> ParsedCommand.

(** The callbacks are client code. *)
Context {OutputCallback : Type}.
Context {CompletionCallback : Type}.

Record ManagedProcess : Type := mkProcess {
  handle_ : ProcessHandle;
  info_ : ProcessInfo;
  io_ : ProcessIO;
  running_ : bool;
  io_thread_active_ : bool;
  output_callback_ : option OutputCallback;
  completion_callback_ : option CompletionCallback
}.

(** What the process's I/O thread has done to it between two polls of
    [executeSync]; the argument counts the polls. *)
Variable io_progress : nat -> ManagedProcess -> ManagedProcess.

(** The constructor, run at clock reading [t]. *)
Definition ManagedProcess_new (p : Z) (cmd : string) (args : list string) (t : Z)
  : ManagedProcess :=
  {| handle_ := ProcessHandle_new;
     info_ := {| pid := p; parent_pid := 0; state := NotStarted; exit_code := 0;
                 start_time := t; end_time := 0; command := cmd;
                 arguments := args; working_dir := "" |};
     io_ := ProcessIO_new;
     running_ := false;
     io_thread_active_ := false;
     output_callback_ := None;
     completion_callback_ := None |}.

(** The record keeps no thread object. In the source the assignment to
    [io_thread_] ends the program when the previous I/O thread has stopped
    by itself and was never joined, which takes a child that was reaped;
    that case is not covered. *)
Definition start (p : ManagedProcess) (options : ExecutionOptions)
  : bool * ManagedProcess :=
  if running_ p then (false, p)
  else (true,
        {| handle_ := handle_ p;
           info_ := set_state (info_ p) Running;
           io_ := io_ p;
           running_ := true;
           io_thread_active_ := true;
           output_callback_ := output_callback_ p;
           completion_callback_ := completion_callback_ p |}).

(** POSIX branch. The completion callback runs at the end of a successful
    call; it is client code and leaves the process as it is. *)
Definition terminate (p : ManagedProcess) (force : bool) (os : OS)
  : bool * ManagedProcess * OS :=
  if negb (running_ p) then (true, p, os)
  else
    let '(success, os1) :=
      if (0 <? handle_pid (handle_ p))%Z then
        let '(rc, os') :=
          sys_kill (handle_pid (handle_ p)) (if force then SIGKILL else SIGTERM) os in
        ((rc =? 0)%Z, os')
      else (false, os) in
    if success then
      (true,
       {| handle_ := handle_ p;
          info_ := set_end_time (set_state (info_ p) Terminated) (now os1);
          io_ := io_ p;
          running_ := false;
          io_thread_active_ := false;
          output_callback_ := output_callback_ p;
          completion_callback_ := completion_callback_ p |},
       os1)
    else (false, p, os1).

(** The member function is not [const]; the process it leaves behind is
    returned next to the string. *)
Definition readOutput (p : ManagedProcess) (max_bytes : Z) : string * ManagedProcess :=
  if (max_bytes =? 0)%Z then (getAllOutput (io_ p), p)
  else
    let output := getAllOutput (io_ p) in
    if (Z.of_nat (String.length output) <=? max_bytes)%Z then (output, p)
    else (String.substring 0 (Z.to_nat max_bytes) output, p).

Definition hasOutput (p : ManagedProcess) : bool := hasData (io_ p).

Definition getInfo (p : ManagedProcess) : ProcessInfo := info_ p.

Definition isRunning (p : ManagedProcess) : bool := running_ p.

Definition isComplete (p : ManagedProcess) : bool :=
  match state (info_ p) with
  | Completed | Failed | Terminated => true
  | _ => false
  end.

Definition setOutputCallback (p : ManagedProcess) (cb : option OutputCallback)
  : ManagedProcess :=
  {| handle_ := handle_ p; info_ := info_ p; io_ := io_ p;
     running_ := running_ p; io_thread_active_ := io_thread_active_ p;
     output_callback_ := cb;
     completion_callback_ := completion_callback_ p |}.

Definition setCompletionCallback (p : ManagedProcess) (cb : option CompletionCallback)
  : ManagedProcess :=
  {| handle_ := handle_ p; info_ := info_ p; io_ := io_ p;
     running_ := running_ p; io_thread_active_ := io_thread_active_ p;
     output_callback_ := output_callback_ p;
     completion_callback_ := cb |}.

(** *** ShellImpl *)

Record ShellImpl : Type := mkShell {
  active_processes_ : gmap Z ManagedProcess;
  next_pid_ : Z;
  shell_path_ : string;
  current_directory_ : string;
  environment_ : gmap string string
}.

Definition set_processes (s : ShellImpl) (m : gmap Z ManagedProcess) : ShellImpl :=
  {| active_processes_ := m; next_pid_ := next_pid_ s;
     shell_path_ := shell_path_ s; current_directory_ := current_directory_ s;
     environment_ := environment_ s |}.

Definition set_next_pid (s : ShellImpl) (n : Z) : ShellImpl :=
  {| active_processes_ := active_processes_ s; next_pid_ := n;
     shell_path_ := shell_path_ s; current_directory_ := current_directory_ s;
     environment_ := environment_ s |}.

Definition set_directory (s : ShellImpl) (d : string) : ShellImpl :=
  {| active_processes_ := active_processes_ s; next_pid_ := next_pid_ s;
     shell_path_ := shell_path_ s; current_directory_ := d;
     environment_ := environment_ s |}.

Definition set_environment (s : ShellImpl) (e : gmap string string) : ShellImpl :=
  {| active_processes_ := active_processes_ s; next_pid_ := next_pid_ s;
     shell_path_ := shell_path_ s; current_directory_ := current_directory_ s;
     environment_ := e |}.

Definition getCurrentDirectory (s : ShellImpl) : string := current_directory_ s.

Definition setCurrentDirectory (path : string) (s : ShellImpl) (os : OS)
  : bool * ShellImpl * OS :=
  let '(rc, os1) := chdir path os in
  if (rc =? 0)%Z then
    match getcwd os1 with
    | Some cwd => (true, set_directory s cwd, os1)
    | None => (false, s, os1)
    end
  else (false, s, os1).

Definition getProcessInfo (s : ShellImpl) (p : Z) : ProcessInfo :=
  match active_processes_ s !! p with
  | Some process => getInfo process
  | None =>
      {| pid := p; parent_pid := 0; state := NotStarted; exit_code := 0;
         start_time := 0; end_time := 0; command := ""; arguments := [];
         working_dir := "" |}
  end.

(** In the iteration order of the table. *)
Definition getAllProcesses (s : ShellImpl) : list ProcessInfo :=
  (fun kv => getInfo (snd kv)) <$> map_to_list (active_processes_ s).

Definition terminateProcess (s : ShellImpl) (os : OS) (p : Z) (force : bool)
  : bool * ShellImpl * OS :=
  match active_processes_ s !! p with
  | Some process =>
      let '(r, process', os') := terminate process force os in
      (r, set_processes s (<[p := process']> (active_processes_ s)), os')
  | None => (false, s, os)
  end.

Definition ShellImpl_readOutput (s : ShellImpl) (p : Z) (max_bytes : Z)
  : string * ShellImpl :=
  match active_processes_ s !! p with
  | Some process =>
      let '(out, process') := readOutput process max_bytes in
      (out, set_processes s (<[p := process']> (active_processes_ s)))
  | None => ("", s)
  end.

Definition ShellImpl_hasOutput (s : ShellImpl) (p : Z) : bool :=
  match active_processes_ s !! p with
  | Some process => hasOutput process
  | None => false
  end.

Definition createProcess (s : ShellImpl) (os : OS) (cmd : string) (args : list string)
  : option ManagedProcess :=
  Some (ManagedProcess_new (next_pid_ s) cmd args (now os)).

Definition parseCommand (s : ShellImpl) (cmd : string) : ParsedCommand :=
  parse cmd (environment_ s).

Definition builtins : list string :=
  ["cd"; "pwd"; "echo"; "exit"; "export"; "jobs"; "kill"; "help"].

Definition isBuiltinCommand (cmd : string) : bool := bool_decide (cmd ∈ builtins).

Definition builtin_info (cmd : string) (args : list string) (st : ProcessState)
  (code t0 t1 : Z) : ProcessInfo :=
  {| pid := 0; parent_pid := 0; state := st; exit_code := code;
     start_time := t0; end_time := t1; command := cmd; arguments := args;
     working_dir := "" |}.

Definition executeBuiltinCd (args : list string) (s : ShellImpl) (os : OS)
  : ProcessInfo * ShellImpl * OS :=
  let t0 := now os in
  let target_dir :=
    match args with
    | [] =>
        let home := Environment_get (environment_ s) "HOME" in
        if string_empty home then "/" else home
    | a :: _ => a
    end in
  let '(ok, s1, os1) := setCurrentDirectory target_dir s os in
  if ok then (builtin_info "cd" args Completed 0 t0 (now os1), s1, os1)
  else (builtin_info "cd" args Failed 1 t0 (now os1), s1, os1).

Definition executeBuiltinPwd (args : list string) (s : ShellImpl) (os : OS)
  : ProcessInfo * ShellImpl * OS :=
  (builtin_info "pwd" args Completed 0 (now os) (now os), s, os).

Definition executeBuiltinEcho (args : list string) (s : ShellImpl) (os : OS)
  : ProcessInfo * ShellImpl * OS :=
  (builtin_info "echo" args Completed 0 (now os) (now os), s, os).

Definition executeBuiltinExit (args : list string) (s : ShellImpl) (os : OS)
  : ProcessInfo * ShellImpl * OS :=
  let code :=
    match args with
    | [] => 0%Z
    | a :: _ => match stoi a with Some n => n | None => 1%Z end
    end in
  (builtin_info "exit" args Completed code (now os) (now os), s, os).

Definition executeBuiltinJobs (args : list string) (s : ShellImpl) (os : OS)
  : ProcessInfo * ShellImpl * OS :=
  (builtin_info "jobs" args Completed 0 (now os) (now os), s, os).

Definition executeBuiltinKill (args : list string) (s : ShellImpl) (os : OS)
  : ProcessInfo * ShellImpl * OS :=
  let t0 := now os in
  let '(code, s1, os1) :=
    match args with
    | [] => (1%Z, s, os)
    | a :: _ =>
        match stoi a with
        | Some p =>
            let '(success, s', os') := terminateProcess s os p false in
            (if success then 0%Z else 1%Z, s', os')
        | None => (1%Z, s, os)
        end
    end in
  (builtin_info "kill" args (if (code =? 0)%Z then Completed else Failed) code
     t0 (now os1), s1, os1).

(** The loop body of [executeBuiltinExport] for one argument. *)
Definition export_one (env : gmap string string) (arg : string) : gmap string string :=
  match String.index 0 "=" arg with
  | Some pos =>
      Environment_set env (String.substring 0 pos arg)
        (String.substring (pos + 1) (String.length arg - (pos + 1)) arg)
  | None => env
  end.

Definition executeBuiltinExport (args : list string) (s : ShellImpl) (os : OS)
  : ProcessInfo * ShellImpl * OS :=
  (builtin_info "export" args Completed 0 (now os) (now os),
   set_environment s (foldl export_one (environment_ s) args), os).

Definition executeBuiltin (cmd : string) (args : list string)
  (options : ExecutionOptions) (s : ShellImpl) (os : OS)
  : ProcessInfo * ShellImpl * OS :=
  if String.eqb cmd "cd" then executeBuiltinCd args s os
  else if String.eqb cmd "pwd" then executeBuiltinPwd args s os
  else if String.eqb cmd "echo" then executeBuiltinEcho args s os
  else if String.eqb cmd "exit" then executeBuiltinExit args s os
  else if String.eqb cmd "jobs" then executeBuiltinJobs args s os
  else if String.eqb cmd "kill" then executeBuiltinKill args s os
  else if String.eqb cmd "export" then executeBuiltinExport args s os
  else
    ({| pid := 0; parent_pid := 0; state := Failed; exit_code := 1;
        start_time := 0; end_time := 0; command := ""; arguments := [];
        working_dir := "" |}, s, os).

(** The polling loop of [executeSync], cut off after [polls] tests of
    [isRunning]: the process once it is seen not running, or nothing when
    every test found it running. *)
Fixpoint wait_until_stopped (polls n : nat) (p : ManagedProcess)
  : option ManagedProcess :=
  match polls with
  | O => None
  | S polls' =>
      if isRunning p then wait_until_stopped polls' (S n) (io_progress n p)
      else Some p
  end.

Definition failed_info : ProcessInfo :=
  {| pid := 0; parent_pid := 0; state := Failed; exit_code := -1;
     start_time := 0; end_time := 0; command := ""; arguments := [];
     working_dir := "" |}.

(** [polls] bounds the polling loop; the result is nothing when the
    process is still running after that many polls. *)
Definition executeSync (polls : nat) (cmd : string) (options : ExecutionOptions)
  (s : ShellImpl) (os : OS) : option ProcessInfo * ShellImpl * OS :=
  let parsed := parseCommand s cmd in
  if negb (isValid parsed) then (Some failed_info, s, os)
  else if isBuiltinCommand (executable parsed) then
    let '(info, s', os') :=
      executeBuiltin (executable parsed) (parsed_arguments parsed) options s os in
    (Some info, s', os')
  else
    match createProcess s os (executable parsed) (parsed_arguments parsed) with
    | None => (Some failed_info, s, os)
    | Some process =>
        let s1 := set_next_pid s (wrap_int (next_pid_ s + 1)) in
        let '(_, process1) := start process options in
        (getInfo <$> wait_until_stopped polls 0 process1, s1, os)
    end.

(** [active_processes_[pid] = std::move(process)] is the insertion below.
    When the table already holds a process under [pid], the assignment
    also destroys that process, and its destructor signals it if it is
    still running with a valid pid and closes its descriptors; these
    effects on the system are not covered, here and in
    [executeInteractive]. *)
Definition executeAsync (cmd : string) (options : ExecutionOptions)
  (output_callback : option OutputCallback)
  (completion_callback : option CompletionCallback)
  (s : ShellImpl) (os : OS) : Z * ShellImpl * OS :=
  let parsed := parseCommand s cmd in
  if negb (isValid parsed) then (-1, s, os)%Z
  else
    match createProcess s os (executable parsed) (parsed_arguments parsed) with
    | None => (-1, s, os)%Z
    | Some process =>
        let p := next_pid_ s in
        let s1 := set_next_pid s (wrap_int (next_pid_ s + 1)) in
        let process1 :=
          setCompletionCallback (setOutputCallback process output_callback)
            completion_callback in
        let '(started, process2) := start process1 options in
        if negb started then (-1, s1, os)%Z
        else (p, set_processes s1 (<[p := process2]> (active_processes_ s1)), os)
    end.

Definition executeInteractive (cmd : string) (options : ExecutionOptions)
  (s : ShellImpl) (os : OS) : Z * ShellImpl * OS :=
  let parsed := parseCommand s cmd in
  if negb (isValid parsed) then (-1, s, os)%Z
  else
    match createProcess s os (executable parsed) (parsed_arguments parsed) with
    | None => (-1, s, os)%Z
    | Some process =>
        let p := next_pid_ s in
        let s1 := set_next_pid s (wrap_int (next_pid_ s + 1)) in
        let '(started, process1) := start process options in
        if negb started then (-1, s1, os)%Z
        else (p, set_processes s1 (<[p := process1]> (active_processes_ s1)), os)
    end.

End Core.

End Shell.

(** ** A concrete test bed

    One choice of everything the embedding leaves open, used to run the
    definitions on concrete inputs. *)

Module Testbed.

(** Memory layout: one-byte pool blocks, 16-byte [max_align_t]. *)
Definition block_size : Z := 1.
Definition small_begin : Z := 65536.
Definition medium_begin : Z := 131072.
Definition large_begin : Z := 196608.
Definition stack_begin : Z := 262144.
Definition max_align_log2 : Z := 4.

(** A system allocator that hands out consecutive addresses and reuses
    none; the heap is the next address to hand out. *)
Definition aligned_alloc (h : Z) (alignment size : Z) : Z * Z := (h, (h + size)%Z).

Definition free (h : Z) (ptr : Z) : Z := h.

(** A system allocator that keeps the list of the blocks it has handed
    out and not taken back; addresses are given out upwards from 1048576,
    whatever the alignment. *)
Record heap : Type := mkHeap {
  brk : Z;
  live_blocks : list Z
}.

Definition heap0 : heap := {| brk := 1048576; live_blocks := [] |}.

Definition heap_alloc (h : heap) (alignment size : Z) : Z * heap :=
  (brk h, {| brk := (brk h + size)%Z; live_blocks := brk h :: live_blocks h |}).

Definition heap_free (h : heap) (ptr : Z) : heap :=
  {| brk := brk h; live_blocks := filter (fun b => b <> ptr) (live_blocks h) |}.

Definition heap_issued (h : heap) (ptr : Z) : bool :=
  bool_decide (ptr ∈ live_blocks h).

Abbreviation manager_run ops :=
  (MemoryManager.run block_size small_begin medium_begin large_begin stack_begin
     max_align_log2 aligned_alloc free ops 1048576%Z).

Abbreviation manager_allocate :=
  (MemoryManager.allocate block_size small_begin medium_begin large_begin
     aligned_alloc).

Abbreviation manager_deallocate :=
  (MemoryManager.deallocate block_size small_begin medium_begin large_begin free).

(** A system with a fixed set of directories, no child processes and a
    stopped clock. *)
Record os : Type := mkOS {
  dirs : list string;
  cwd : string;
  clock : Z
}.

Definition chdir (path : string) (o : os) : Z * os :=
  if bool_decide (path ∈ dirs o)
  then (0%Z, {| dirs := dirs o; cwd := path; clock := clock o |})
  else ((-1)%Z, o).

Definition getcwd (o : os) : option string := Some (cwd o).

Definition now (o : os) : Z := clock o.

Definition sys_kill (p sig : Z) (o : os) : Z * os := ((-1)%Z, o).

(** [std::stoi] in base 10: leading white space is skipped, then comes an
    optional sign, then decimal digits up to the first other character;
    nothing when there is no digit or the value does not fit an [int]. *)
Definition digit (c : ascii) : option Z :=
  let n := Z.of_nat (nat_of_ascii c) in
  if ((48 <=? n) && (n <=? 57))%Z then Some (n - 48)%Z else None.

Fixpoint digits (cs : list ascii) (acc : Z) (seen : bool) : option Z :=
  match cs with
  | [] => if seen then Some acc else None
  | c :: r =>
      match digit c with
      | Some d => digits r (10 * acc + d)%Z true
      | None => if seen then Some acc else None
      end
  end.

(** [isspace] in the C locale: the space and characters 9 to 13. *)
Definition is_c_space (c : ascii) : bool :=
  let n := nat_of_ascii c in
  (n =? 32)%nat || ((9 <=? n)%nat && (n <=? 13)%nat).

Fixpoint skip_space (cs : list ascii) : list ascii :=
  match cs with
  | c :: r => if is_c_space c then skip_space r else cs
  | [] => []
  end.

Definition stoi (s : string) : option Z :=
  let value :=
    match skip_space (String.list_ascii_of_string s) with
    | c :: r =>
        if Ascii.eqb c "-"%char then Z.opp <$> digits r 0 false
        else if Ascii.eqb c "+"%char then digits r 0 false
        else digits (c :: r) 0 false
    | [] => None
    end in
  match value with
  | Some n => if ((- 2 ^ 31 <=? n) && (n <? 2 ^ 31))%Z then Some n else None
  | None => None
  end.

(** Modelled from the spec: [CommandParser::parse], whose body is in no
    source file. The command is split on whitespace, a quoted substring is
    one token with its quotes stripped, every token goes through
    [expandVariables] (declared in shell_impl.h, passed in here), the first
    token is the executable and the others are the arguments; blank input
    gives an empty executable. *)
Definition is_space (c : ascii) : bool :=
  Ascii.eqb c " "%char || Ascii.eqb c "009"%char || Ascii.eqb c "010"%char.

(** The double quote is character 34. *)
Definition is_quote (c : ascii) : bool := Ascii.eqb c (ascii_of_nat 34).

Fixpoint tokenize (cs cur : list ascii) (open quoted : bool) : list string :=
  match cs with
  | [] => if open then [String.string_of_list_ascii (rev cur)] else []
  | c :: r =>
      if quoted then
        if is_quote c then tokenize r cur true false
        else tokenize r (c :: cur) true true
      else if is_quote c then tokenize r cur true true
      else if is_space c then
        if open then String.string_of_list_ascii (rev cur) :: tokenize r [] false false
        else tokenize r [] false false
      else tokenize r (c :: cur) true false
  end.

Definition parse_with (expandVariables : string -> gmap string string -> string)
  (cmd : string) (env : gmap string string) : Shell.ParsedCommand :=
  match (fun tok => expandVariables tok env)
          <$> tokenize (String.list_ascii_of_string cmd) [] false false with
  | [] => Shell.mkParsed "" [] [] [] false false
  | exe :: args => Shell.mkParsed exe args [] [] false false
  end.

(** No variable is expanded. *)
Definition parse : string -> gmap string string -> Shell.ParsedCommand :=
  parse_with (fun tok _ => tok).

Abbreviation Process := (@Shell.ManagedProcess unit unit).

(** The I/O thread of a process whose handle holds no descriptor only
    sleeps. *)
Definition idle_io_thread (n : nat) (p : Process) : Process := p.

Definition executeSync (io : nat -> Process -> Process) :=
  Shell.executeSync chdir getcwd now sys_kill stoi parse io.

Definition executeAsync :=
  Shell.executeAsync (OutputCallback := unit) (CompletionCallback := unit) now parse.

Definition executeInteractive :=
  Shell.executeInteractive (OutputCallback := unit) (CompletionCallback := unit)
    now parse.

Definition shell0 : @Shell.ShellImpl unit unit :=
  {| Shell.active_processes_ := ∅; Shell.next_pid_ := 1000;
     Shell.shell_path_ := "/bin/sh"; Shell.current_directory_ := "/home";
     Shell.environment_ := {[ "HOME" := "/home" ]} |}.

Definition os0 : os := {| dirs := ["/"; "/home"; "/tmp"]; cwd := "/home"; clock := 5 |}.

End Testbed.

(** ** The rest of memory_manager.h and shell_impl.h *)

Module MemoryExt.

(** The operations behind [TempAllocatorGuard]: [allocate_temp] while the
    guard lives, [reset_temp] when it is destroyed. *)
Definition is_temp_op (o : MemoryManager.op) : bool :=
  match o with
  | MemoryManager.AllocateTemp _ _ | MemoryManager.ResetTemp => true
  | _ => false
  end.

(** Storage of the pool that serves [size], as [(begin, end)]. *)
Definition class_storage (block_size small_begin medium_begin large_begin size : Z)
  : option (Z * Z) :=
  if (size <=? 64)%Z then
    Some (small_begin,
          MemoryPool.storage_end MemoryManager.small_size block_size small_begin)
  else if (size <=? 512)%Z then
    Some (medium_begin,
          MemoryPool.storage_end MemoryManager.medium_size block_size medium_begin)
  else if (size <=? 4096)%Z then
    Some (large_begin,
          MemoryPool.storage_end MemoryManager.large_size block_size large_begin)
  else None.

(** [allocated_count_ == used_.count()] in each of the three pools. *)
Definition pools_counted (m : MemoryManager.t) : Prop :=
  MemoryPool.counted (MemoryManager.small_object_pool_ m) /\
  MemoryPool.counted (MemoryManager.medium_object_pool_ m) /\
  MemoryPool.counted (MemoryManager.large_object_pool_ m).

(** The life of a [TempAllocatorGuard]: the [allocate] calls made through
    it, each a [(size, alignment)] pair, then its destructor. *)
Definition guard_scope (max_align_log2 stack_begin : Z) (m : MemoryManager.t)
  (requests : list (Z * Z)) : MemoryManager.t :=
  MemoryManager.reset_temp
    (foldl (fun m' r =>
              snd (MemoryManager.allocate_temp stack_begin max_align_log2 m'
                     (fst r) (snd r)))
           m requests).

End MemoryExt.

Module ShellExt.

Import Shell.

Local Open Scope string_scope.

(** [ProcessInfo::isActive] *)
Definition isActive (i : ProcessInfo) : bool :=
  match state i with
  | Running | Suspended => true
  | _ => false
  end.

(** [ProcessHandle::isValid], POSIX branch. *)
Definition ProcessHandle_isValid (h : ProcessHandle) : bool :=
  (0 <? handle_pid h)%Z.

(** [ProcessHandle::close], POSIX branch: the handle afterwards and the
    descriptors handed to [::close], in call order. *)
Definition ProcessHandle_close (h : ProcessHandle) : ProcessHandle * list Z :=
  let '(fd_in, c_in) :=
    if (0 <=? stdin_fd h)%Z then ((-1)%Z, [stdin_fd h]) else (stdin_fd h, []) in
  let '(fd_out, c_out) :=
    if (0 <=? stdout_fd h)%Z then ((-1)%Z, [stdout_fd h]) else (stdout_fd h, []) in
  let '(fd_err, c_err) :=
    if (0 <=? stderr_fd h)%Z then ((-1)%Z, [stderr_fd h]) else (stderr_fd h, []) in
  ({| handle_pid := handle_pid h; stdin_fd := fd_in; stdout_fd := fd_out;
      stderr_fd := fd_err |}, (c_in ++ c_out ++ c_err)%list).

Definition getStdoutSize (io : ProcessIO) : nat := stdout_size_ io.

Definition getStderrSize (io : ProcessIO) : nat := stderr_size_ io.

(** Calls made on a [ProcessIO], and the object after a sequence of them
    made on a freshly constructed one. *)
Inductive io_op : Type :=
| AppendStdout (data : list ascii)
| AppendStderr (data : list ascii)
| Clear.

Definition io_step (io : ProcessIO) (o : io_op) : ProcessIO :=
  match o with
  | AppendStdout data => appendStdout io data
  | AppendStderr data => appendStderr io data
  | Clear => clear io
  end.

Definition io_run (ops : list io_op) : ProcessIO := foldl io_step ProcessIO_new ops.

(** The bytes appended to each stream since the last [Clear]. *)
Definition written_step (w : list ascii * list ascii) (o : io_op)
  : list ascii * list ascii :=
  match o with
  | AppendStdout data => ((fst w ++ data)%list, snd w)
  | AppendStderr data => (fst w, (snd w ++ data)%list)
  | Clear => ([], [])
  end.

Definition written (ops : list io_op) : list ascii * list ascii :=
  foldl written_step ([], []) ops.

(** What [waitpid] stores in [status], as read by [WIFEXITED] with
    [WEXITSTATUS] and [WIFSIGNALED] with [WTERMSIG]. *)
Inductive WaitStatus : Type :=
| Exited (code : Z)
| Signaled (sig : Z)
| OtherStatus.

(** Each array holds at least [BUFFER_SIZE] bytes and the bytes in use. *)
Definition io_ok (io : ProcessIO) : Prop :=
  BUFFER_SIZE <= length (stdout_buffer_ io) /\
  stdout_size_ io <= length (stdout_buffer_ io) /\
  BUFFER_SIZE <= length (stderr_buffer_ io) /\
  stderr_size_ io <= length (stderr_buffer_ io).

Section Core.

Context {OS : Type}.
Variable now : OS -> Z.
Variable sys_kill : Z -> Z -> OS -> Z * OS.

(** [write(fd, data, length)]: the byte count or -1, and the system after
    the call. *)
Variable sys_write : Z -> string -> OS -> Z * OS.

(** The platform's numbers for [SIGSTOP] and [SIGCONT]. *)
Variable SIGSTOP : Z.
Variable SIGCONT : Z.

Context {OutputCallback : Type}.
Context {CompletionCallback : Type}.

Local Abbreviation Process := (@ManagedProcess OutputCallback CompletionCallback).
Local Abbreviation ShellState := (@ShellImpl OutputCallback CompletionCallback).

Definition with_state (p : Process) (st : ProcessState) : Process :=
  {| handle_ := handle_ p; info_ := set_state (info_ p) st; io_ := io_ p;
     running_ := running_ p; io_thread_active_ := io_thread_active_ p;
     output_callback_ := output_callback_ p;
     completion_callback_ := completion_callback_ p |}.

(** POSIX branch. *)
Definition suspend (p : Process) (os : OS) : bool * Process * OS :=
  if negb (running_ p) then (false, p, os)
  else if (0 <? handle_pid (handle_ p))%Z then
    let '(rc, os') := sys_kill (handle_pid (handle_ p)) SIGSTOP os in
    if (rc =? 0)%Z then (true, with_state p Suspended, os') else (false, p, os')
  else (false, p, os).

(** POSIX branch. *)
Definition resume (p : Process) (os : OS) : bool * Process * OS :=
  match state (info_ p) with
  | Suspended =>
      if (0 <? handle_pid (handle_ p))%Z then
        let '(rc, os') := sys_kill (handle_pid (handle_ p)) SIGCONT os in
        if (rc =? 0)%Z then (true, with_state p Running, os') else (false, p, os')
      else (false, p, os)
  | _ => (false, p, os)
  end.

(** POSIX branch. *)
Definition sendInput (p : Process) (input : string) (os : OS) : bool * Process * OS :=
  if negb (running_ p) then (false, p, os)
  else if (0 <=? stdin_fd (handle_ p))%Z then
    let '(written, os') := sys_write (stdin_fd (handle_ p)) input os in
    ((0 <=? written)%Z, p, os')
  else (false, p, os).

(** The system calls of the I/O thread. [sys_select] waits up to 100 ms
    on the given descriptors and returns those left set in the read set
    (none when the result is not positive); [sys_read] returns the bytes
    read, at most the given count (none when the result is not positive);
    [sys_waitpid] is [waitpid] with [WNOHANG] and returns the status when
    its result is positive. *)
Variable sys_select : list Z -> OS -> list Z * OS.
Variable sys_read : Z -> nat -> OS -> list ascii * OS.
Variable sys_waitpid : Z -> OS -> option WaitStatus * OS.

Definition with_io (p : Process) (io : ProcessIO) : Process :=
  {| handle_ := handle_ p; info_ := info_ p; io_ := io;
     running_ := running_ p; io_thread_active_ := io_thread_active_ p;
     output_callback_ := output_callback_ p;
     completion_callback_ := completion_callback_ p |}.

(** One of the two read blocks of the loop body; the output callback that
    follows the append is client code. *)
Definition read_ready (fd : Z) (ready : list Z)
  (append : ProcessIO -> list ascii -> ProcessIO) (p : Process) (os : OS)
  : Process * OS :=
  if (0 <=? fd)%Z && bool_decide (fd ∈ ready) then
    let '(data, os') := sys_read fd 4096 os in
    match data with
    | [] => (p, os')
    | _ :: _ => (with_io p (append (io_ p) data), os')
    end
  else (p, os).

(** The reap check that ends the loop body. *)
Definition reap (p : Process) (os : OS) : Process * OS * bool :=
  if (0 <? handle_pid (handle_ p))%Z then
    let '(status, os') := sys_waitpid (handle_pid (handle_ p)) os in
    match status with
    | Some st =>
        let i := set_end_time (info_ p) (now os') in
        let i' :=
          match st with
          | Exited code =>
              {| pid := pid i; parent_pid := parent_pid i;
                 state := if (code =? 0)%Z then Completed else Failed;
                 exit_code := code; start_time := start_time i;
                 end_time := end_time i; command := command i;
                 arguments := arguments i; working_dir := working_dir i |}
          | Signaled sig =>
              {| pid := pid i; parent_pid := parent_pid i; state := Terminated;
                 exit_code := sig; start_time := start_time i;
                 end_time := end_time i; command := command i;
                 arguments := arguments i; working_dir := working_dir i |}
          | OtherStatus => i
          end in
        ({| handle_ := handle_ p; info_ := i'; io_ := io_ p;
            running_ := false; io_thread_active_ := io_thread_active_ p;
            output_callback_ := output_callback_ p;
            completion_callback_ := completion_callback_ p |}, os', false)
    | None => (p, os', true)
    end
  else (p, os, true).

(** One pass through the loop of [ioThreadFunction], POSIX branch, entered
    with [io_thread_active_] set: the process, the system, and whether the
    loop goes on. *)
Definition ioThreadIteration (p : Process) (os : OS) : Process * OS * bool :=
  let fds :=
    ((if (0 <=? stdout_fd (handle_ p))%Z then [stdout_fd (handle_ p)] else [])
     ++ (if (0 <=? stderr_fd (handle_ p))%Z then [stderr_fd (handle_ p)] else []))%list in
  match fds with
  | [] => (p, os, true)
  | _ :: _ =>
      let '(ready, os1) := sys_select fds os in
      let '(p1, os2) := read_ready (stdout_fd (handle_ p)) ready appendStdout p os1 in
      let '(p2, os3) := read_ready (stderr_fd (handle_ p)) ready appendStderr p1 os2 in
      reap p2 os3
  end.

(** Member functions called on one process, and passes of its I/O thread,
    and the process and system after a sequence of them. *)
Inductive process_op : Type :=
| OpStart (options : ExecutionOptions)
| OpTerminate (force : bool)
| OpSuspend
| OpResume
| OpSendInput (input : string)
| OpReadOutput (max_bytes : Z)
| OpSetOutputCallback (cb : option OutputCallback)
| OpSetCompletionCallback (cb : option CompletionCallback)
| OpIoThread.

Definition process_step (st : Process * OS) (o : process_op) : Process * OS :=
  let '(p, os) := st in
  match o with
  | OpIoThread =>
      if io_thread_active_ p then fst (ioThreadIteration p os) else (p, os)
  | OpStart options => (snd (start p options), os)
  | OpTerminate force => let '(_, p', os') := terminate now sys_kill p force os in (p', os')
  | OpSuspend => let '(_, p', os') := suspend p os in (p', os')
  | OpResume => let '(_, p', os') := resume p os in (p', os')
  | OpSendInput input => let '(_, p', os') := sendInput p input os in (p', os')
  | OpReadOutput max_bytes => (snd (readOutput p max_bytes), os)
  | OpSetOutputCallback cb => (setOutputCallback p cb, os)
  | OpSetCompletionCallback cb => (setCompletionCallback p cb, os)
  end.

Definition process_run (p : Process) (os : OS) (ops : list process_op) : Process * OS :=
  foldl process_step (p, os) ops.

(** *** ShellImpl *)

Definition suspendProcess (s : ShellState) (os : OS) (p : Z) : bool * ShellState * OS :=
  match active_processes_ s !! p with
  | Some process =>
      let '(r, process', os') := suspend process os in
      (r, set_processes s (<[p := process']> (active_processes_ s)), os')
  | None => (false, s, os)
  end.

Definition resumeProcess (s : ShellState) (os : OS) (p : Z) : bool * ShellState * OS :=
  match active_processes_ s !! p with
  | Some process =>
      let '(r, process', os') := resume process os in
      (r, set_processes s (<[p := process']> (active_processes_ s)), os')
  | None => (false, s, os)
  end.

Definition ShellImpl_sendInput (s : ShellState) (os : OS) (p : Z) (input : string)
  : bool * ShellState * OS :=
  match active_processes_ s !! p with
  | Some process =>
      let '(r, process', os') := sendInput process input os in
      (r, set_processes s (<[p := process']> (active_processes_ s)), os')
  | None => (false, s, os)
  end.

(** Erases every entry whose process [isComplete]. *)
Definition cleanupCompletedProcesses (s : ShellState) : ShellState :=
  set_processes s
    (filter (fun kv : Z * Process => isComplete (snd kv) = false) (active_processes_ s)).

(** The part of [shutdown] that follows the stop of the cleanup thread:
    every running process is terminated with force, in the iteration order
    of the table, and the table is cleared. The destructors that
    [clear()] runs, which signal once more a process that is still running
    and close the descriptors of each handle, are not covered. *)
Definition shutdown (s : ShellState) (os : OS) : ShellState * OS :=
  (set_processes s ∅,
   foldl (fun o (kv : Z * Process) =>
            if isRunning (snd kv) then snd (terminate now sys_kill (snd kv) true o)
            else o)
         os (map_to_list (active_processes_ s))).

(** *** A session with the shell

    The calls a client makes on a [ShellImpl], the passes of the I/O
    thread of one of its processes and of the cleanup thread, and the shell
    and system after a sequence of them. *)

Variable chdir : string -> OS -> Z * OS.
Variable getcwd : OS -> option string.
Variable stoi : string -> option Z.
Variable parse : string -> gmap string string -> ParsedCommand.
Variable io_progress : nat -> Process -> Process.

Inductive shell_op : Type :=
| ExecuteSync (polls : nat) (cmd : string) (options : ExecutionOptions)
| ExecuteAsync (cmd : string) (options : ExecutionOptions)
    (output_callback : option OutputCallback)
    (completion_callback : option CompletionCallback)
| ExecuteInteractive (cmd : string) (options : ExecutionOptions)
| TerminateProcess (p : Z) (force : bool)
| SuspendProcess (p : Z)
| ResumeProcess (p : Z)
| SendInput (p : Z) (input : string)
| ReadOutput (p : Z) (max_bytes : Z)
| SetCurrentDirectory (path : string)
| CleanupCompleted
| IoThreadPass (p : Z)
| Shutdown.

(** One pass of the I/O thread of the process stored under [p]. *)
Definition ioThreadPass (s : ShellState) (os : OS) (p : Z) : ShellState * OS :=
  match active_processes_ s !! p with
  | Some process =>
      let '(process', os') := process_step (process, os) OpIoThread in
      (set_processes s (<[p := process']> (active_processes_ s)), os')
  | None => (s, os)
  end.

(** [ExecuteSync] leaves the shell as [executeSync] has it when the call
    returns and while it polls. *)
Definition shell_step (st : ShellState * OS) (o : shell_op) : ShellState * OS :=
  let '(s, os) := st in
  match o with
  | ExecuteSync polls cmd options =>
      let '(_, s', os') :=
        executeSync chdir getcwd now sys_kill stoi parse io_progress
          polls cmd options s os in
      (s', os')
  | ExecuteAsync cmd options ocb ccb =>
      let '(_, s', os') := executeAsync now parse cmd options ocb ccb s os in (s', os')
  | ExecuteInteractive cmd options =>
      let '(_, s', os') := executeInteractive now parse cmd options s os in (s', os')
  | TerminateProcess p force =>
      let '(_, s', os') := terminateProcess now sys_kill s os p force in (s', os')
  | SuspendProcess p => let '(_, s', os') := suspendProcess s os p in (s', os')
  | ResumeProcess p => let '(_, s', os') := resumeProcess s os p in (s', os')
  | SendInput p input => let '(_, s', os') := ShellImpl_sendInput s os p input in (s', os')
  | ReadOutput p max_bytes => (snd (ShellImpl_readOutput s p max_bytes), os)
  | SetCurrentDirectory path =>
      let '(_, s', os') := setCurrentDirectory chdir getcwd path s os in (s', os')
  | CleanupCompleted => (cleanupCompletedProcesses s, os)
  | IoThreadPass p => ioThreadPass s os p
  | Shutdown => shutdown s os
  end.

Definition shell_run (s : ShellState) (os : OS) (ops : list shell_op) : ShellState * OS :=
  foldl shell_step (s, os) ops.

(** A process that was started and whose handle is still the one its
    constructor made. *)
Definition launched (p : Process) : Prop :=
  handle_ p = ProcessHandle_new /\ running_ p = true /\ state (info_ p) = Running.

Definition all_launched (s : ShellState) : Prop :=
  map_Forall (fun _ p => launched p) (active_processes_ s).

End Core.

End ShellExt.

(** ** A child for the I/O thread

    System calls of a child that has the text [hi] ready on every pipe and
    has exited with status 0, and a running process attached to it. *)

Module IoTestbed.

Import Shell ShellExt.

Definition sys_select (fds : list Z) (o : Testbed.os) : list Z * Testbed.os := (fds, o).

Definition sys_read (fd : Z) (count : nat) (o : Testbed.os) : list ascii * Testbed.os :=
  (take count ["h"%char; "i"%char], o).

Definition sys_waitpid (p : Z) (o : Testbed.os) : option WaitStatus * Testbed.os :=
  (Some (Exited 0), o).

Definition sys_write (fd : Z) (data : string) (o : Testbed.os) : Z * Testbed.os :=
  (Z.of_nat (String.length data), o).

Definition child : Testbed.Process :=
  {| handle_ := {| handle_pid := 4242; stdin_fd := 3; stdout_fd := 4; stderr_fd := 5 |};
     info_ := {| pid := 1000; parent_pid := 0; state := Running; exit_code := 0;
                 start_time := 5; end_time := 0; command := "ls";
                 arguments := []; working_dir := "" |};
     io_ := ProcessIO_new;
     running_ := true;
     io_thread_active_ := true;
     output_callback_ := None;
     completion_callback_ := None |}.

End IoTestbed.

(** * Properties *)

(** ** MemoryPool *)

Module MemoryPoolFacts.

Import MemoryPool.

Lemma bit_insert_eq (u : list bool) (i : nat) (b : bool) :
  i < length u -> bit (<[i := b]> u) i = b.
Proof.
  intros Hi. unfold bit. by rewrite list_lookup_insert_eq.
Qed.

Lemma bit_insert_ne (u : list bool) (i j : nat) (b : bool) :
  i ≠ j -> bit (<[i := b]> u) j = bit u j.
Proof.
  intros Hij. unfold bit. by rewrite list_lookup_insert_ne.
Qed.

Lemma bit_true_lt (u : list bool) (i : nat) : bit u i = true -> i < length u.
Proof.
  unfold bit. intros Hb. destruct (u !! i) eqn:E; [|done].
  by eapply lookup_lt_Some.
Qed.

Lemma bit_replicate_false (n i : nat) : bit (replicate n false) i = false.
Proof.
  unfold bit. destruct (replicate n false !! i) eqn:E; [|done].
  apply lookup_replicate in E as [-> _]. done.
Qed.

Lemma popcount_insert_true (u : list bool) (i : nat) :
  i < length u -> bit u i = false ->
  popcount (<[i := true]> u) = S (popcount u).
Proof.
  revert i. induction u as [|b u IH]; intros i Hi Hb; simpl in *; [lia|].
  destruct i as [|i]; simpl.
  - unfold bit in Hb. simpl in Hb. subst b. done.
  - rewrite IH; [lia | lia | exact Hb].
Qed.

Lemma popcount_insert_false (u : list bool) (i : nat) :
  bit u i = true -> S (popcount (<[i := false]> u)) = popcount u.
Proof.
  revert i. induction u as [|b u IH]; intros i Hb; [done|].
  destruct i as [|i]; simpl.
  - unfold bit in Hb. simpl in Hb. subst b. done.
  - rewrite <- (IH i Hb). lia.
Qed.

Lemma popcount_le_length (u : list bool) : popcount u <= length u.
Proof.
  induction u as [|[] u IH]; simpl; lia.
Qed.

Lemma popcount_full (u : list bool) :
  popcount u = length u <-> (forall i, i < length u -> bit u i = true).
Proof.
  induction u as [|b u IH]; simpl.
  - split; [intros _ i Hi; lia | done].
  - pose proof (popcount_le_length u) as Hle. split.
    + intros Hc i Hi. destruct b; [|lia].
      destruct i as [|i]; [done|]. apply IH; lia.
    + intros Hall. pose proof (Hall 0 ltac:(lia)) as H0.
      unfold bit in H0. simpl in H0. subst b.
      f_equal. apply IH. intros i Hi. apply (Hall (S i)). lia.
Qed.

Lemma scan_Some (u : list bool) (n i j : nat) :
  scan u i n = Some j -> i <= j < i + n /\ bit u j = false.
Proof.
  revert i. induction n as [|n IH]; intros i Hs; simpl in Hs; [done|].
  destruct (bit u i) eqn:Hb.
  - apply IH in Hs. split; [lia | tauto].
  - inversion Hs; subst. split; [lia | done].
Qed.

Lemma scan_None (u : list bool) (n i : nat) :
  scan u i n = None -> forall j, i <= j < i + n -> bit u j = true.
Proof.
  revert i. induction n as [|n IH]; intros i Hs j Hj; simpl in Hs; [lia|].
  destruct (bit u i) eqn:Hb; [|done].
  destruct (decide (j = i)) as [->|Hne]; [done|].
  apply (IH (S i) Hs). lia.
Qed.

Lemma scan_full (u : list bool) (n i : nat) :
  (forall j, i <= j < i + n -> bit u j = true) -> scan u i n = None.
Proof.
  revert i. induction n as [|n IH]; intros i Hall; simpl; [done|].
  rewrite (Hall i) by lia. apply IH. intros j Hj. apply Hall. lia.
Qed.

Section Facts.

Variable PoolSize : nat.
Variable block_size : Z.
Variable storage_begin : Z.

Local Abbreviation init := (MemoryPool.init PoolSize).
Local Abbreviation find_free_slot := (MemoryPool.find_free_slot PoolSize).
Local Abbreviation slot_address := (MemoryPool.slot_address block_size storage_begin).
Local Abbreviation slot_of := (MemoryPool.slot_of block_size storage_begin).
Local Abbreviation storage_end := (MemoryPool.storage_end PoolSize block_size storage_begin).
Local Abbreviation allocate := (MemoryPool.allocate PoolSize block_size storage_begin).
Local Abbreviation deallocate := (MemoryPool.deallocate PoolSize block_size storage_begin).
Local Abbreviation run := (MemoryPool.run PoolSize block_size storage_begin).
Local Abbreviation step := (MemoryPool.step PoolSize block_size storage_begin).
Local Abbreviation run_live := (MemoryPool.run_live PoolSize block_size storage_begin).
Local Abbreviation step_live := (MemoryPool.step_live PoolSize block_size storage_begin).

Local Abbreviation shape := (MemoryPool.shape PoolSize).
Local Abbreviation exhausted := (MemoryPool.exhausted PoolSize).
Local Abbreviation live_ok := (MemoryPool.live_ok PoolSize block_size storage_begin).

Lemma next_cursor_le (i : nat) : i < PoolSize -> (i + 1) mod PoolSize <= PoolSize.
Proof.
  intros Hi. pose proof (Nat.mod_upper_bound (i + 1) PoolSize). lia.
Qed.

(** What [find_free_slot] returns on a well-shaped pool. *)
Lemma find_free_slot_cases (p : t) :
  shape p ->
  let '(slot, p1) := find_free_slot p in
  (slot < PoolSize /\ bit (used_ p) slot = false /\ used_ p1 = used_ p /\
   allocated_count_ p1 = allocated_count_ p /\ next_free_ p1 <= PoolSize)
  \/ (slot = PoolSize /\ p1 = p /\ exhausted p).
Proof.
  intros [Hlen Hnf]. unfold MemoryPool.find_free_slot.
  destruct (scan (used_ p) (next_free_ p) (PoolSize - next_free_ p)) as [i|] eqn:E1.
  - apply scan_Some in E1 as [Hr Hb]. left. simpl.
    repeat split; [lia | done | apply next_cursor_le; lia].
  - destruct (scan (used_ p) 0 (next_free_ p)) as [i|] eqn:E2.
    + apply scan_Some in E2 as [Hr Hb]. left. simpl.
      repeat split; [lia | done | apply next_cursor_le; lia].
    + right. repeat split. intros j Hj.
      destruct (decide (j < next_free_ p)) as [Hlt|Hge].
      * apply (scan_None _ _ _ E2). lia.
      * apply (scan_None _ _ _ E1). lia.
Qed.

Lemma find_free_slot_exhausted (p : t) :
  shape p -> exhausted p -> find_free_slot p = (PoolSize, p).
Proof.
  intros [Hlen Hnf] Hall. unfold MemoryPool.find_free_slot.
  rewrite !scan_full; [done | |]; intros j Hj; apply Hall; lia.
Qed.

Lemma allocate_exhausted (p : t) :
  shape p -> exhausted p -> allocate p = (nullptr, p).
Proof.
  intros Hs Hall. unfold MemoryPool.allocate.
  rewrite (find_free_slot_exhausted p Hs Hall).
  by rewrite Nat.leb_refl.
Qed.

(** What [allocate] returns on a well-shaped pool. *)
Lemma allocate_cases (p : t) :
  shape p ->
  (exists slot,
     slot < PoolSize /\ bit (used_ p) slot = false /\
     fst (allocate p) = slot_address slot /\
     used_ (snd (allocate p)) = <[slot := true]> (used_ p) /\
     allocated_count_ (snd (allocate p)) = wrap64 (allocated_count_ p + 1) /\
     next_free_ (snd (allocate p)) <= PoolSize)
  \/ (allocate p = (nullptr, p) /\ exhausted p).
Proof.
  intros Hs. pose proof (find_free_slot_cases p Hs) as Hf.
  unfold MemoryPool.allocate.
  destruct (find_free_slot p) as [slot p1].
  destruct Hf as [(Hlt & Hb & Hu & Hc & Hn) | (-> & -> & Hall)].
  - left. exists slot.
    destruct (PoolSize <=? slot)%nat eqn:E; [apply Nat.leb_le in E; lia|].
    simpl. rewrite Hu, Hc. done.
  - right. by rewrite Nat.leb_refl.
Qed.

Lemma shape_init : shape init.
Proof.
  split; simpl; [apply length_replicate | lia].
Qed.

Lemma counted_init : counted init.
Proof.
  unfold counted. simpl.
  induction PoolSize as [|n IH]; simpl; [done | lia].
Qed.

Lemma shape_allocate (p : t) : shape p -> shape (snd (allocate p)).
Proof.
  intros Hs. destruct (allocate_cases p Hs) as [(slot & _ & _ & _ & Hu & _ & Hn) | [-> _]];
    [|done].
  destruct Hs as [Hlen _]. split; [|done].
  by rewrite Hu, length_insert.
Qed.

Lemma shape_deallocate (p : t) (ptr : Z) : shape p -> shape (deallocate p ptr).
Proof.
  intros [Hlen Hnf]. unfold MemoryPool.deallocate.
  destruct (ptr =? nullptr)%Z; [done|].
  destruct ((ptr <? storage_begin) || (storage_end <=? ptr))%Z; [done|].
  destruct ((slot_of ptr <? PoolSize)%nat && bit (used_ p) (slot_of ptr)) eqn:E; [|done].
  apply andb_true_iff in E as [E _]. apply Nat.ltb_lt in E.
  split; simpl; [by rewrite length_insert|].
  destruct (slot_of ptr <? next_free_ p)%nat; lia.
Qed.

Lemma shape_step (p : t) (o : op) : shape p -> shape (step p o).
Proof.
  destruct o; simpl; [apply shape_allocate | apply shape_deallocate].
Qed.

Lemma foldl_step_shape (ops : list op) (p : t) :
  shape p -> shape (foldl step p ops).
Proof.
  revert p. induction ops as [|o ops IH]; intros p Hs; simpl; [done|].
  apply IH, shape_step, Hs.
Qed.

Lemma shape_run (ops : list op) : shape (run ops).
Proof.
  apply foldl_step_shape, shape_init.
Qed.

Section Counting.

Hypothesis PoolSize_size_t : (Z.of_nat PoolSize < size_t_modulus)%Z.

Lemma counted_allocate (p : t) :
  shape p -> counted p -> counted (snd (allocate p)).
Proof.
  intros Hs Hc. destruct (allocate_cases p Hs)
    as [(slot & Hlt & Hb & _ & Hu & Hn & _) | [-> _]]; [|done].
  destruct Hs as [Hlen _]. unfold counted in *.
  rewrite Hn, Hu, popcount_insert_true by (done || lia).
  pose proof (popcount_le_length (<[slot:=true]> (used_ p))) as Hle.
  rewrite length_insert, popcount_insert_true in Hle by (done || lia).
  rewrite Hc. unfold wrap64. rewrite Z.mod_small; lia.
Qed.

Lemma counted_deallocate (p : t) (ptr : Z) :
  shape p -> counted p -> counted (deallocate p ptr).
Proof.
  intros [Hlen Hnf] Hc. unfold MemoryPool.deallocate.
  destruct (ptr =? nullptr)%Z; [done|].
  destruct ((ptr <? storage_begin) || (storage_end <=? ptr))%Z; [done|].
  destruct ((slot_of ptr <? PoolSize)%nat && bit (used_ p) (slot_of ptr)) eqn:E; [|done].
  apply andb_true_iff in E as [_ Hb].
  unfold counted in *. simpl. rewrite Hc.
  pose proof (popcount_insert_false _ _ Hb) as Hp.
  pose proof (popcount_le_length (used_ p)) as Hle.
  unfold wrap64. rewrite Z.mod_small; lia.
Qed.

Lemma foldl_step_counted (ops : list op) (p : t) :
  shape p -> counted p -> counted (foldl step p ops).
Proof.
  revert p. induction ops as [|o ops IH]; intros p Hs Hc; simpl; [done|].
  apply IH; [apply shape_step, Hs|].
  destruct o; simpl; [by apply counted_allocate | by apply counted_deallocate].
Qed.

Lemma counted_run (ops : list op) : counted (run ops).
Proof.
  apply foldl_step_counted; [apply shape_init | apply counted_init].
Qed.

Lemma allocated_full_iff (p : t) :
  shape p -> counted p ->
  (allocated p = Z.of_nat PoolSize <-> exhausted p).
Proof.
  intros [Hlen _] Hc. unfold allocated, exhausted. rewrite Hc, <- Hlen. split.
  - intros Heq. apply popcount_full. lia.
  - intros Hall. f_equal. by apply popcount_full.
Qed.

End Counting.

Lemma deallocate_out_of_storage (p : t) (ptr : Z) :
  ptr = nullptr \/ (ptr < storage_begin)%Z \/ (storage_end <= ptr)%Z ->
  deallocate p ptr = p.
Proof.
  intros H. unfold MemoryPool.deallocate.
  destruct (ptr =? nullptr)%Z eqn:E0; [done|].
  destruct (ptr <? storage_begin)%Z eqn:E1; [done|].
  destruct (storage_end <=? ptr)%Z eqn:E2; [done|]. lia.
Qed.

Lemma deallocate_free_slot (p : t) (ptr : Z) :
  bit (used_ p) (slot_of ptr) = false -> deallocate p ptr = p.
Proof.
  intros H. unfold MemoryPool.deallocate. rewrite H, andb_false_r.
  by repeat case_match.
Qed.

(** C6, as amended. deallocate(ptr) is a no-op (bitmap, cursor and
    allocated count unchanged) whenever ptr is null, lies outside the
    backing storage [storage_begin, storage_end), or maps, by
    (ptr - storage_begin) / sizeof(StorageBlock), to a slot whose bit is
    clear. *)
Theorem deallocate_unchanged (p : t) (ptr : Z) :
  ptr = nullptr \/ (ptr < storage_begin)%Z \/ (storage_end <= ptr)%Z \/
  bit (used_ p) (slot_of ptr) = false ->
  deallocate p ptr = p.
Proof.
  intros [H | [H | [H | H]]].
  - apply deallocate_out_of_storage. by left.
  - apply deallocate_out_of_storage. right. by left.
  - apply deallocate_out_of_storage. right. by right.
  - by apply deallocate_free_slot.
Qed.

Section Addresses.

Hypothesis block_size_pos : (0 < block_size)%Z.

Lemma slot_of_address (slot : nat) : slot_of (slot_address slot) = slot.
Proof.
  unfold MemoryPool.slot_of, MemoryPool.slot_address.
  replace (storage_begin + Z.of_nat slot * block_size - storage_begin)%Z
    with (Z.of_nat slot * block_size)%Z by lia.
  rewrite Z.div_mul by lia. apply Nat2Z.id.
Qed.

Lemma live_ok_step (st : t * list Z) (o : op) :
  live_ok st -> live_ok (step_live st o).
Proof.
  destruct st as [p live]. intros (Hs & Hnd & Hlive). simpl in *.
  destruct o as [|ptr]; simpl.
  - pose proof (shape_allocate p Hs) as Hs'.
    destruct (allocate_cases p Hs)
      as [(slot & Hlt & Hb & Hptr & Hu & _ & _) | [Hnull _]].
    + destruct (allocate p) as [q p'] eqn:Ea. simpl in *. subst q.
      destruct Hs as [Hlen _].
      assert (Hfresh : slot_address slot ∉ live).
      { intros Hin. destruct (Hlive _ Hin) as (s' & _ & _ & Heq & Hb').
        apply (f_equal slot_of) in Heq. rewrite !slot_of_address in Heq.
        subst s'. congruence. }
      assert (Hkeep : forall a, a ∈ live ->
                exists s', s' < PoolSize /\ a <> nullptr /\ a = slot_address s' /\
                           bit (used_ p') s' = true).
      { intros a Hin. destruct (Hlive _ Hin) as (s' & Hlt' & Hnn & Heq & Hb').
        exists s'. repeat split; [done..|]. rewrite Hu.
        rewrite bit_insert_ne; [done|]. intros ->. congruence. }
      destruct (slot_address slot =? nullptr)%Z eqn:En.
      * split; [exact Hs'|]. split; [exact Hnd | exact Hkeep].
      * split; [exact Hs'|]. split; [by apply NoDup_cons|]. simpl.
        intros a [->|Hin]%elem_of_cons; [|by apply Hkeep].
        exists slot. repeat split; [done | lia |]. rewrite Hu.
        apply bit_insert_eq. lia.
    + rewrite Hnull. simpl. done.
  - split; [apply shape_deallocate, Hs|]. split; [by apply NoDup_filter|]. simpl.
    intros a [Hb Hin]%list_elem_of_filter.
    destruct (Hlive _ Hin) as (s' & Hlt' & Hnn & Heq & _).
    exists s'. repeat split; [done..|]. subst a.
    by rewrite slot_of_address in Hb.
Qed.

Lemma foldl_step_live_ok (ops : list op) (st : t * list Z) :
  live_ok st -> live_ok (foldl step_live st ops).
Proof.
  revert st. induction ops as [|o ops IH]; intros st Hst; simpl; [done|].
  apply IH, live_ok_step, Hst.
Qed.

Lemma live_ok_run (ops : list op) : live_ok (run_live ops).
Proof.
  apply foldl_step_live_ok. repeat split; simpl.
  - apply length_replicate.
  - lia.
  - apply NoDup_nil_2.
  - intros a Hin. by apply elem_of_nil in Hin.
Qed.

(** C4. After any sequence of allocate and deallocate calls, the live
    allocations (addresses returned by allocate whose slot bit no
    deallocate has cleared since) are pairwise distinct, and the next
    allocate returns none of them. *)
Theorem live_allocations_distinct (ops : list op) :
  NoDup (snd (run_live ops)) /\
  forall ptr, ptr ∈ snd (run_live ops) ->
    fst (allocate (fst (run_live ops))) <> ptr.
Proof.
  destruct (live_ok_run ops) as (Hs & Hnd & Hlive). split; [done|].
  intros ptr Hin Heq.
  destruct (Hlive _ Hin) as (s' & Hlt' & Hnn & Heqa & Hb').
  destruct (allocate_cases _ Hs) as [(slot & Hlt & Hb & Hptr & _) | [Hnull _]].
  - rewrite Heq, Heqa in Hptr. apply (f_equal slot_of) in Hptr.
    rewrite !slot_of_address in Hptr. subst s'. congruence.
  - rewrite Hnull in Heq. simpl in Heq. congruence.
Qed.

Hypothesis storage_begin_pos : (0 < storage_begin)%Z.
Hypothesis PoolSize_size_t : (Z.of_nat PoolSize < size_t_modulus)%Z.

Lemma slot_address_nonnull (slot : nat) : slot_address slot <> nullptr.
Proof.
  unfold MemoryPool.slot_address, nullptr. nia.
Qed.

(** C5. On a pool reached by any sequence of calls, allocate returns null
    exactly when allocated() == PoolSize, which is exactly when every slot
    is in use; when some slot is free it returns the non-null address of a
    slot whose bit was clear; and the bitmap keeps its PoolSize bits. *)
Theorem allocate_null_iff_full (ops : list op) :
  (fst (allocate (run ops)) = nullptr <->
   allocated (run ops) = Z.of_nat PoolSize) /\
  (allocated (run ops) = Z.of_nat PoolSize <-> exhausted (run ops)) /\
  ((exists i, i < PoolSize /\ bit (used_ (run ops)) i = false) ->
   exists slot, slot < PoolSize /\ bit (used_ (run ops)) slot = false /\
                fst (allocate (run ops)) = slot_address slot /\
                fst (allocate (run ops)) <> nullptr) /\
  length (used_ (snd (allocate (run ops)))) = PoolSize.
Proof.
  pose proof (shape_run ops) as Hs.
  pose proof (counted_run PoolSize_size_t ops) as Hc.
  pose proof (allocated_full_iff (run ops) Hs Hc) as Hfull.
  pose proof (shape_allocate _ Hs) as [Hlen' _].
  destruct (allocate_cases _ Hs)
    as [(slot & Hlt & Hb & Hptr & _) | [Hnull Hall]].
  - assert (Hne : ~ exhausted (run ops)).
    { intros Hall. rewrite (Hall slot Hlt) in Hb. done. }
    repeat split; try tauto.
    + intros Heq. rewrite Hptr in Heq. by apply slot_address_nonnull in Heq.
    + intros _. exists slot. rewrite Hptr.
      repeat split; [done.. | apply slot_address_nonnull].
  - repeat split; try tauto.
    + by rewrite Hnull.
    + intros (i & Hi & Hb). rewrite (Hall i Hi) in Hb. done.
Qed.

End Addresses.

End Facts.

(** C6, counterexample. A pool of four 8-byte blocks at address 4096 with
    slot 0 allocated: address 4100 has been returned by no allocate (for a
    T of size 8 and alignment 4 it is a properly aligned pointer to T), and
    deallocate(4100) clears the bit of slot 0 and lowers the count. *)
Lemma deallocate_accepts_interior_pointer :
  let p := fst (MemoryPool.run_live 4 8 4096 [Allocate]) in
  let p' := MemoryPool.deallocate 4 8 4096 p 4100 in
  snd (MemoryPool.run_live 4 8 4096 [Allocate]) = [4096%Z] /\
  (4100%Z ∉ [4096%Z]) /\
  used_ p = [true; false; false; false] /\ allocated p = 1%Z /\
  used_ p' = [false; false; false; false] /\ allocated p' = 0%Z /\
  p' <> p.
Proof.
  vm_compute. repeat split; try done.
  intros [H|H]%elem_of_cons; [done | by apply elem_of_nil in H].
Qed.

(** C6, instance: an address past the end of the storage. *)
Lemma deallocate_unchanged_witness :
  let p := MemoryPool.run 4 8 4096 [Allocate] in
  (8192%Z = nullptr \/ (8192 < 4096)%Z \/
   (MemoryPool.storage_end 4 8 4096 <= 8192)%Z \/
   bit (used_ p) (MemoryPool.slot_of 8 4096 8192) = false) /\
  MemoryPool.deallocate 4 8 4096 p 8192 = p.
Proof.
  intros p.
  assert (H : 8192%Z = nullptr \/ (8192 < 4096)%Z \/
              (MemoryPool.storage_end 4 8 4096 <= 8192)%Z \/
              bit (used_ p) (MemoryPool.slot_of 8 4096 8192) = false).
  { right. right. left. vm_compute. discriminate. }
  split; [exact H|]. exact (deallocate_unchanged 4 8 4096 p 8192 H).
Defined.

(** C4, instance: four 8-byte blocks at address 4096. *)
Lemma live_allocations_distinct_witness :
  let ops := [Allocate; Allocate; Deallocate 4096; Allocate] in
  (0 < 8)%Z /\
  NoDup (snd (MemoryPool.run_live 4 8 4096 ops)) /\
  forall ptr, ptr ∈ snd (MemoryPool.run_live 4 8 4096 ops) ->
    fst (MemoryPool.allocate 4 8 4096 (fst (MemoryPool.run_live 4 8 4096 ops))) <> ptr.
Proof.
  intros ops.
  assert (H : (0 < 8)%Z) by lia.
  split; [exact H|]. exact (live_allocations_distinct 4 8 4096 H ops).
Defined.

(** C5, instance: a pool of two blocks after two allocations. *)
Lemma allocate_null_iff_full_witness :
  let p := MemoryPool.run 2 8 4096 [Allocate; Allocate] in
  ((0 < 8)%Z /\ (0 < 4096)%Z /\ (Z.of_nat 2 < size_t_modulus)%Z) /\
  (fst (MemoryPool.allocate 2 8 4096 p) = nullptr <-> allocated p = Z.of_nat 2) /\
  allocated p = 2%Z.
Proof.
  intros p.
  assert (H1 : (0 < 8)%Z) by lia.
  assert (H2 : (0 < 4096)%Z) by lia.
  assert (H3 : (Z.of_nat 2 < size_t_modulus)%Z) by (vm_compute; reflexivity).
  split; [by repeat split|].
  split; [|reflexivity].
  exact (proj1 (allocate_null_iff_full 2 8 4096 H1 H2 H3 [Allocate; Allocate])).
Defined.

End MemoryPoolFacts.

(** ** StackAllocator *)

Module StackAllocatorFacts.

Import StackAllocator.

Local Open Scope Z_scope.

Lemma wrap64_small (z : Z) : 0 <= z < size_t_modulus -> wrap64 z = z.
Proof.
  intros Hz. unfold wrap64. by apply Z.mod_small.
Qed.

Lemma wrap64_range (z : Z) : 0 <= wrap64 z < size_t_modulus.
Proof.
  unfold wrap64, size_t_modulus. apply Z.mod_pos_bound. lia.
Qed.

Lemma wrap64_le (z : Z) : 0 <= z -> wrap64 z <= z.
Proof.
  intros Hz. unfold wrap64, size_t_modulus. apply Z.mod_le; lia.
Qed.

(** Clearing the low [k] bits of a [size_t] value rounds it down to a
    multiple of [2^k]. *)
Lemma land_mask (y k : Z) :
  0 <= y < size_t_modulus -> 0 <= k ->
  Z.land y (wrap64 (Z.lnot (2 ^ k - 1))) = y / 2 ^ k * 2 ^ k.
Proof.
  intros Hy Hk. unfold wrap64, size_t_modulus.
  rewrite <- (Z.land_ones _ 64) by lia.
  rewrite Z.land_assoc, (Z.land_comm y), <- Z.land_assoc.
  rewrite (Z.land_ones y 64) by lia.
  rewrite (Z.mod_small y) by (unfold size_t_modulus in Hy; lia).
  replace (2 ^ k - 1) with (Z.ones k) by (rewrite Z.ones_equiv; lia).
  rewrite Z.land_comm, <- Z.ldiff_land, Z.ldiff_ones_r by lia.
  rewrite Z.shiftl_mul_pow2, Z.shiftr_div_pow2 by lia. done.
Qed.

Section Facts.

Variable StackSize : Z.
Variable max_align_log2 : Z.
Variable stack_begin : Z.

Local Abbreviation max_align := (StackAllocator.max_align max_align_log2).
Local Abbreviation allocate := (StackAllocator.allocate StackSize max_align_log2 stack_begin).
Local Abbreviation deallocate_to := (StackAllocator.deallocate_to StackSize stack_begin).
Local Abbreviation step := (StackAllocator.step StackSize max_align_log2 stack_begin).
Local Abbreviation run := (StackAllocator.run StackSize max_align_log2 stack_begin).
Local Abbreviation in_bounds := (StackAllocator.in_bounds StackSize).
Local Abbreviation sum_in_range := (StackAllocator.sum_in_range max_align_log2).

Hypothesis align_exponent : 0 <= max_align_log2.
Hypothesis StackSize_fits : 0 <= StackSize /\ StackSize + max_align <= size_t_modulus.
Hypothesis stack_begin_nonneg : 0 <= stack_begin.

Lemma max_align_pos : 0 < max_align.
Proof.
  unfold StackAllocator.max_align. by apply Z.pow_pos_nonneg.
Qed.

Lemma align_up_eq (x : Z) :
  align_up max_align x = wrap64 (x + max_align - 1) / max_align * max_align.
Proof.
  unfold align_up, StackAllocator.max_align.
  apply land_mask; [apply wrap64_range | done].
Qed.

Lemma align_up_nonneg (x : Z) : 0 <= align_up max_align x.
Proof.
  rewrite align_up_eq. pose proof max_align_pos as Hp.
  pose proof (wrap64_range (x + max_align - 1)) as [Hw _].
  apply Z.mul_nonneg_nonneg; [|lia]. by apply Z.div_pos.
Qed.

(** Without wrap-around, rounding up does not go below its argument. *)
Lemma align_up_ge (x : Z) :
  0 <= x -> x + max_align <= size_t_modulus -> x <= align_up max_align x.
Proof.
  intros Hx Hfit. rewrite align_up_eq. pose proof max_align_pos as Hp.
  rewrite wrap64_small by lia.
  pose proof (Z.div_mod (x + max_align - 1) max_align ltac:(lia)) as Hdm.
  pose proof (Z.mod_pos_bound (x + max_align - 1) max_align Hp) as Hm.
  lia.
Qed.

Lemma in_bounds_allocate (st : t) (size alignment : Z) :
  in_bounds st -> in_bounds (snd (allocate st size alignment)).
Proof.
  intros Hb. unfold StackAllocator.allocate.
  destruct (StackSize <? _) eqn:E; simpl; [done|].
  apply Z.ltb_ge in E. unfold StackAllocator.in_bounds. simpl.
  split; [apply wrap64_range | done].
Qed.

Lemma in_bounds_deallocate_to (st : t) (ptr : Z) :
  in_bounds st -> in_bounds (deallocate_to st ptr).
Proof.
  intros Hb. unfold StackAllocator.deallocate_to.
  destruct (ptr =? nullptr); [done|].
  destruct ((stack_begin <=? ptr) && (ptr <? wrap64 (stack_begin + StackSize))) eqn:E;
    [|done].
  apply andb_true_iff in E as [E1 E2].
  apply Z.leb_le in E1. apply Z.ltb_lt in E2.
  pose proof (wrap64_le (stack_begin + StackSize) ltac:(lia)).
  unfold StackAllocator.in_bounds. simpl. lia.
Qed.

Lemma in_bounds_step (st : t) (o : op) : in_bounds st -> in_bounds (step st o).
Proof.
  intros Hb. destruct o; simpl; try done.
  - by apply in_bounds_allocate.
  - by apply in_bounds_deallocate_to.
  - unfold StackAllocator.in_bounds. simpl. lia.
Qed.

Lemma in_bounds_run (ops : list op) : in_bounds (run ops).
Proof.
  unfold StackAllocator.run.
  assert (Hinit : in_bounds init) by (unfold StackAllocator.in_bounds; simpl; lia).
  revert Hinit. generalize init.
  induction ops as [|o ops IH]; intros st Hst; simpl; [done|].
  apply IH, in_bounds_step, Hst.
Qed.

(** C3, as amended. On an allocator reached by any sequence of public
    operations: an operation other than reset() and deallocate_to() leaves
    used() at least as large as before, provided an allocate's sum
    aligned_top + aligned size stays within size_t; reset() leaves
    used() == 0; and deallocate_to(ptr), for a non-null ptr inside the
    buffer, sets used() to ptr's offset in the buffer. *)
Theorem used_monotone_until_rewind (ops : list op) :
  (forall o, is_reset o = false -> is_deallocate_to o = false ->
             sum_in_range (run ops) o ->
             used (run ops) <= used (step (run ops) o)) /\
  used (step (run ops) Reset) = 0 /\
  (forall ptr, ptr <> nullptr ->
               stack_begin <= ptr < wrap64 (stack_begin + StackSize) ->
               used (step (run ops) (DeallocateTo ptr)) = ptr - stack_begin).
Proof.
  pose proof (in_bounds_run ops) as Hb. split; [|split].
  - intros o Hr Hd Hsum. destruct o as [size alignment| | | |]; simpl in *;
      try done; try lia.
    unfold StackAllocator.allocate, used in *.
    destruct (StackSize <? _) eqn:E; simpl; [lia|].
    unfold StackAllocator.in_bounds in Hb.
    pose proof (align_up_ge (top_ (run ops)) ltac:(lia) ltac:(lia)) as Hge.
    pose proof (align_up_nonneg size) as Hs.
    rewrite wrap64_small by lia. lia.
  - done.
  - intros ptr Hnn Hin. simpl. unfold StackAllocator.deallocate_to.
    destruct (ptr =? nullptr) eqn:E0; [lia|].
    destruct (stack_begin <=? ptr) eqn:E1; [|lia].
    destruct (ptr <? wrap64 (stack_begin + StackSize)) eqn:E2; [|lia].
    done.
Qed.

End Facts.

(** An allocate whose [new_top] wraps around [size_t] passes the overflow
    test and moves the offset back to 0. *)
Example allocate_new_top_wraps :
  let st := StackAllocator.run 8192 4 4096 [Allocate 1 16] in
  used st = 16 /\
  ~ sum_in_range 4 st (Allocate (2 ^ 64 - 16) 16) /\
  used (StackAllocator.step 8192 4 4096 st (Allocate (2 ^ 64 - 16) 16)) = 0.
Proof.
  vm_compute. repeat split; done.
Qed.

(** C3, counterexample. used() drops from 16 to 0 across a deallocate_to()
    call, with no reset() in the sequence. *)
Lemma used_decreases_on_rewind :
  let st := StackAllocator.run 8192 4 4096 [Allocate 1 16] in
  let st' := StackAllocator.step 8192 4 4096 st (DeallocateTo 4096) in
  forallb (fun o => negb (is_reset o)) [Allocate 1 16; DeallocateTo 4096] = true /\
  used st = 16 /\ used st' = 0 /\ ~ used st <= used st'.
Proof.
  vm_compute. repeat split; done.
Qed.

(** C3, instance: an 8192-byte stack at address 4096 after two allocations. *)
Lemma used_monotone_until_rewind_witness :
  let st := StackAllocator.run 8192 4 4096 [Allocate 1 16; Allocate 100 8] in
  0 <= 4 /\ (0 <= 8192 /\ 8192 + StackAllocator.max_align 4 <= size_t_modulus) /\
  0 <= 4096 /\
  used st <= used (StackAllocator.step 8192 4 4096 st (Allocate 24 16)) /\
  used (StackAllocator.step 8192 4 4096 st Reset) = 0.
Proof.
  assert (H1 : 0 <= 4) by lia.
  assert (H2 : 0 <= 8192 /\ 8192 + StackAllocator.max_align 4 <= size_t_modulus)
    by (vm_compute; split; discriminate).
  assert (H3 : 0 <= 4096) by lia.
  pose proof (used_monotone_until_rewind 8192 4 4096 H1 H2 H3
                [Allocate 1 16; Allocate 100 8]) as (Hmono & Hreset & _).
  split; [exact H1|]. split; [exact H2|]. split; [exact H3|]. split.
  - apply Hmono; [reflexivity | reflexivity | vm_compute; reflexivity].
  - exact Hreset.
Defined.

End StackAllocatorFacts.

(** ** MemoryManager *)

Module MemoryManagerFacts.

Import MemoryManager.

Lemma set_small_same (m : t) : set_small m (small_object_pool_ m) = m.
Proof. by destruct m. Qed.

Lemma set_medium_same (m : t) : set_medium m (medium_object_pool_ m) = m.
Proof. by destruct m. Qed.

Lemma set_large_same (m : t) : set_large m (large_object_pool_ m) = m.
Proof. by destruct m. Qed.

(** Closes a [pools_shaped] goal whose three parts are hypotheses. *)
Ltac shaped := unfold pools_shaped; simpl; split; [|split]; assumption.

Lemma pools_shaped_update_statistics (m : t) (size : Z) (allocating : bool) :
  pools_shaped m -> pools_shaped (update_statistics m size allocating).
Proof.
  by destruct allocating.
Qed.

Section Facts.

Variable block_size : Z.
Variable small_begin medium_begin large_begin : Z.
Variable stack_begin : Z.
Variable max_align_log2 : Z.
Context {Heap : Type}.
Variable aligned_alloc : Heap -> Z -> Z -> Z * Heap.
Variable free : Heap -> Z -> Heap.

Local Abbreviation allocate :=
  (MemoryManager.allocate block_size small_begin medium_begin large_begin aligned_alloc).
Local Abbreviation deallocate :=
  (MemoryManager.deallocate block_size small_begin medium_begin large_begin free).
Local Abbreviation step :=
  (MemoryManager.step block_size small_begin medium_begin large_begin stack_begin
     max_align_log2 aligned_alloc free).
Local Abbreviation run :=
  (MemoryManager.run block_size small_begin medium_begin large_begin stack_begin
     max_align_log2 aligned_alloc free).

Variable issued : Heap -> Z -> bool.

Local Abbreviation deallocate_checked :=
  (MemoryManager.deallocate_checked block_size small_begin medium_begin large_begin
     free issued).

Lemma pools_shaped_allocate (m : t) (h : Heap) (size alignment : Z) :
  pools_shaped m -> pools_shaped (snd (fst (allocate m h size alignment))).
Proof.
  intros (Hs & Hm & Hl). unfold MemoryManager.allocate.
  destruct (size <=? 64)%Z; [|destruct (size <=? 512)%Z; [|destruct (size <=? 4096)%Z]].
  - pose proof (MemoryPoolFacts.shape_allocate small_size block_size small_begin _ Hs) as H.
    destruct (MemoryPool.allocate _ _ _ _) as [ptr p]. simpl in H.
    destruct (ptr =? nullptr)%Z; cbn [fst snd];
      [|apply pools_shaped_update_statistics]; shaped.
  - pose proof (MemoryPoolFacts.shape_allocate medium_size block_size medium_begin _ Hm) as H.
    destruct (MemoryPool.allocate _ _ _ _) as [ptr p]. simpl in H.
    destruct (ptr =? nullptr)%Z; cbn [fst snd];
      [|apply pools_shaped_update_statistics]; shaped.
  - pose proof (MemoryPoolFacts.shape_allocate large_size block_size large_begin _ Hl) as H.
    destruct (MemoryPool.allocate _ _ _ _) as [ptr p]. simpl in H.
    destruct (ptr =? nullptr)%Z; cbn [fst snd];
      [|apply pools_shaped_update_statistics]; shaped.
  - destruct (aligned_alloc h alignment size) as [ptr h'].
    destruct (ptr =? nullptr)%Z; cbn [fst snd];
      [|apply pools_shaped_update_statistics]; shaped.
Qed.

Lemma pools_shaped_deallocate (m : t) (h : Heap) (ptr size : Z) :
  pools_shaped m -> pools_shaped (fst (deallocate m h ptr size)).
Proof.
  intros (Hs & Hm & Hl). unfold MemoryManager.deallocate.
  destruct (ptr =? nullptr)%Z; [shaped|].
  destruct (size <=? 64)%Z; [|destruct (size <=? 512)%Z; [|destruct (size <=? 4096)%Z]];
    unfold pools_shaped; simpl; (split; [|split]);
    try assumption; by apply MemoryPoolFacts.shape_deallocate.
Qed.

Lemma pools_shaped_step (st : t * Heap) (o : op) :
  pools_shaped (fst st) -> pools_shaped (fst (step st o)).
Proof.
  destruct st as [m h]. intros Hp. simpl in Hp. destruct o; simpl.
  - pose proof (pools_shaped_allocate m h size alignment Hp) as H.
    destruct (allocate m h size alignment) as [[ptr m'] h']. done.
  - by apply pools_shaped_deallocate.
  - unfold allocate_temp. by destruct (StackAllocator.allocate _ _ _ _ _ _).
  - done.
Qed.

Lemma pools_shaped_run (ops : list op) (h : Heap) : pools_shaped (fst (run ops h)).
Proof.
  unfold MemoryManager.run.
  assert (Hinit : pools_shaped (fst (init, h))).
  { repeat split; simpl; try apply length_replicate; lia. }
  revert Hinit. generalize (init, h).
  induction ops as [|o ops IH]; intros st Hst; simpl; [done|].
  apply IH, pools_shaped_step, Hst.
Qed.

(** C1, as amended. On a manager reached by any sequence of calls, a
    request of at most 4096 bytes whose size-class pool has every slot in
    use returns null: no other allocator is tried, and the manager, its
    statistics and the heap are left as they were. *)
Theorem allocate_null_on_exhausted_pool (ops : list op) (h0 : Heap)
  (size alignment : Z) (pool : MemoryPool.t) (n : nat) :
  pool_for (fst (run ops h0)) size = Some (pool, n) ->
  MemoryPool.exhausted n pool ->
  allocate (fst (run ops h0)) (snd (run ops h0)) size alignment
  = (nullptr, fst (run ops h0), snd (run ops h0)).
Proof.
  pose proof (pools_shaped_run ops h0) as (Hs & Hm & Hl).
  destruct (run ops h0) as [m h]. simpl in *.
  unfold pool_for, MemoryManager.allocate. intros Hpool Hfull.
  destruct (size <=? 64)%Z; [|destruct (size <=? 512)%Z; [|destruct (size <=? 4096)%Z]];
    [| | |done]; inversion Hpool; subst pool n.
  - rewrite (MemoryPoolFacts.allocate_exhausted _ block_size small_begin _ Hs Hfull).
    simpl. by rewrite set_small_same.
  - rewrite (MemoryPoolFacts.allocate_exhausted _ block_size medium_begin _ Hm Hfull).
    simpl. by rewrite set_medium_same.
  - rewrite (MemoryPoolFacts.allocate_exhausted _ block_size large_begin _ Hl Hfull).
    simpl. by rewrite set_large_same.
Qed.

(** C10, as amended. For a non-null ptr and a size of at most 4096 bytes,
    whatever ptr is, and for a larger size when ptr is a block the system
    allocator has handed out and not taken back, the call returns and has
    added size to total_deallocated (modulo 2^64), leaving total_allocated
    alone; get_stats reports current_usage as the size_t difference of the
    two counters, which is 2^64 minus the excess once total_deallocated
    exceeds total_allocated. *)
Theorem deallocate_counts_defined_calls (m : t) (h : Heap) (ptr size : Z) :
  ptr <> nullptr ->
  (size <= 4096)%Z \/ issued h ptr = true ->
  deallocate_checked m h ptr size = Some (deallocate m h ptr size) /\
  let m' := fst (deallocate m h ptr size) in
  total_deallocated_ m' = wrap64 (total_deallocated_ m + size) /\
  total_allocated_ m' = total_allocated_ m /\
  current_usage (get_stats m') = wrap64 (total_allocated_ m' - total_deallocated_ m') /\
  ((0 <= total_allocated_ m' < total_deallocated_ m')%Z ->
   (total_deallocated_ m' < size_t_modulus)%Z ->
   current_usage (get_stats m')
   = (size_t_modulus - (total_deallocated_ m' - total_allocated_ m'))%Z).
Proof.
  intros Hnn Hdef. split.
  - unfold MemoryManager.deallocate_checked, deallocate_defined.
    destruct Hdef as [Hsmall|Hissued].
    + apply Z.leb_le in Hsmall. rewrite Hsmall. by rewrite orb_true_r.
    + rewrite Hissued. by rewrite orb_true_r.
  - unfold MemoryManager.deallocate.
    destruct (ptr =? nullptr)%Z eqn:E0; [apply Z.eqb_eq in E0; done|].
    assert (Hwrap : forall a d : Z, (0 <= a < d)%Z -> (d < size_t_modulus)%Z ->
              wrap64 (a - d) = (size_t_modulus - (d - a))%Z).
    { intros a d Had Hd. unfold wrap64.
      rewrite <- (Z.mod_add _ 1) by (unfold size_t_modulus; lia).
      rewrite Z.mod_small; lia. }
    destruct (size <=? 64)%Z; [|destruct (size <=? 512)%Z; [|destruct (size <=? 4096)%Z]];
      simpl; repeat split; try done; apply Hwrap.
Qed.

(** Above 4096 bytes a non-null pointer that is no block of the system
    allocator ends the call inside [std::free]. *)
Lemma deallocate_unissued_pointer (m : t) (h : Heap) (ptr size : Z) :
  ptr <> nullptr -> (4096 < size)%Z -> issued h ptr = false ->
  deallocate_checked m h ptr size = None.
Proof.
  intros Hnn Hbig Hno. unfold MemoryManager.deallocate_checked, deallocate_defined.
  rewrite Hno. apply Z.eqb_neq in Hnn. apply Z.leb_gt in Hbig. by rewrite Hnn, Hbig.
Qed.

(** A pointer that lies in no pool: the pools and the heap stay as they
    are while the counter moves. *)
Lemma deallocate_foreign_pointer (m : t) (h : Heap) (ptr size : Z) :
  (0 < ptr < small_begin)%Z -> (ptr < medium_begin)%Z -> (ptr < large_begin)%Z ->
  (size <= 4096)%Z ->
  deallocate m h ptr size = (update_statistics m size false, h).
Proof.
  intros Hs Hm Hl Hsz. unfold MemoryManager.deallocate.
  destruct (ptr =? nullptr)%Z eqn:E0; [apply Z.eqb_eq in E0; unfold nullptr in E0; lia|].
  destruct (size <=? 64)%Z; [|destruct (size <=? 512)%Z;
    [|destruct (size <=? 4096)%Z eqn:E; [|apply Z.leb_gt in E; lia]]];
    rewrite MemoryPoolFacts.deallocate_out_of_storage by lia; simpl;
    by rewrite ?set_small_same, ?set_medium_same, ?set_large_same.
Qed.

End Facts.

(** C1, counterexample. A request for 1000 bytes made when all 1024 slots
    of the large pool are in use comes back null. *)
Lemma allocate_fails_on_exhausted_pool :
  let ops := replicate 1024 (Allocate 1000 16) in
  let m := fst (Testbed.manager_run ops) in
  let h := snd (Testbed.manager_run ops) in
  MemoryPool.allocated (large_object_pool_ m) = 1024%Z /\
  (1000 <= 4096)%Z /\
  fst (fst (Testbed.manager_allocate m h 1000 16)) = nullptr.
Proof.
  vm_compute. repeat split; done.
Qed.

(** C1, instance: the manager after 1024 requests of 1000 bytes. *)
Lemma allocate_null_on_exhausted_pool_witness :
  let ops := replicate 1024 (Allocate 1000 16) in
  let m := fst (Testbed.manager_run ops) in
  let h := snd (Testbed.manager_run ops) in
  pool_for m 1000 = Some (large_object_pool_ m, large_size) /\
  MemoryPool.exhausted large_size (large_object_pool_ m) /\
  Testbed.manager_allocate m h 1000 16 = (nullptr, m, h).
Proof.
  intros ops m h.
  assert (Hpool : pool_for m 1000 = Some (large_object_pool_ m, large_size)).
  { unfold pool_for. simpl Z.leb. cbv iota. reflexivity. }
  assert (Hused : MemoryPool.used_ (large_object_pool_ m) = replicate 1024 true).
  { vm_compute. reflexivity. }
  assert (Hfull : MemoryPool.exhausted large_size (large_object_pool_ m)).
  { intros i Hi. rewrite Hused. unfold MemoryPool.bit.
    by rewrite lookup_replicate_2. }
  split; [exact Hpool|]. split; [exact Hfull|].
  exact (allocate_null_on_exhausted_pool Testbed.block_size Testbed.small_begin
           Testbed.medium_begin Testbed.large_begin Testbed.stack_begin
           Testbed.max_align_log2 Testbed.aligned_alloc Testbed.free
           ops 1048576%Z 1000 16 (large_object_pool_ m) large_size Hpool Hfull).
Defined.

(** C10, counterexample. A fresh manager asked to deallocate 5000 bytes at
    address 12345, which the system allocator never handed out: the call
    reaches std::free with it and does not return, so nothing is added to
    total_deallocated. *)
Lemma deallocate_of_unissued_pointer_does_not_return :
  12345%Z <> nullptr /\
  Testbed.heap_issued Testbed.heap0 12345 = false /\
  MemoryManager.deallocate_checked Testbed.block_size Testbed.small_begin
    Testbed.medium_begin Testbed.large_begin Testbed.heap_free Testbed.heap_issued
    init Testbed.heap0 12345 5000 = None.
Proof.
  split; [discriminate|]. split; reflexivity.
Qed.

(** C10, instance: a fresh manager handed 100 bytes at an address that lies
    in no pool; current_usage becomes 2^64 - 100. *)
Lemma deallocate_counts_defined_calls_witness :
  let r := MemoryManager.deallocate Testbed.block_size Testbed.small_begin
             Testbed.medium_begin Testbed.large_begin Testbed.heap_free
             init Testbed.heap0 12345 100 in
  12345%Z <> nullptr /\
  ((100 <= 4096)%Z \/ Testbed.heap_issued Testbed.heap0 12345 = true) /\
  MemoryManager.deallocate_checked Testbed.block_size Testbed.small_begin
    Testbed.medium_begin Testbed.large_begin Testbed.heap_free Testbed.heap_issued
    init Testbed.heap0 12345 100 = Some r /\
  small_object_pool_ (fst r) = small_object_pool_ init /\
  total_deallocated_ (fst r) = 100%Z /\
  total_allocated_ (fst r) = 0%Z /\
  current_usage (get_stats (fst r)) = (size_t_modulus - 100)%Z.
Proof.
  assert (Hnn : 12345%Z <> nullptr) by discriminate.
  assert (Hdef : (100 <= 4096)%Z \/ Testbed.heap_issued Testbed.heap0 12345 = true)
    by (left; lia).
  pose proof (deallocate_counts_defined_calls Testbed.block_size Testbed.small_begin
                Testbed.medium_begin Testbed.large_begin Testbed.heap_free
                Testbed.heap_issued init Testbed.heap0 12345 100 Hnn Hdef)
    as (Hret & Hd & Ha & _ & Hwrap).
  split; [exact Hnn|]. split; [exact Hdef|]. split; [exact Hret|].
  split; [reflexivity|]. split; [exact Hd|]. split; [exact Ha|].
  apply Hwrap; [rewrite Ha, Hd; vm_compute; split; [discriminate | reflexivity]
               | rewrite Hd; vm_compute; reflexivity].
Defined.

(** A block of 5000 bytes taken from the system allocator and given back:
    the call returns, the block is no longer live and the counter has
    moved. *)
Example deallocate_of_issued_block :
  let '(ptr, m, h) := MemoryManager.allocate Testbed.block_size Testbed.small_begin
                        Testbed.medium_begin Testbed.large_begin Testbed.heap_alloc
                        init Testbed.heap0 5000 16 in
  ptr = 1048576%Z /\
  Testbed.heap_issued h ptr = true /\
  exists m' h',
    MemoryManager.deallocate_checked Testbed.block_size Testbed.small_begin
      Testbed.medium_begin Testbed.large_begin Testbed.heap_free Testbed.heap_issued
      m h ptr 5000 = Some (m', h') /\
    Testbed.heap_issued h' ptr = false /\
    total_deallocated_ m' = 5000%Z.
Proof.
  vm_compute. split; [reflexivity|]. split; [reflexivity|].
  eexists _, _. split; [reflexivity|]. split; reflexivity.
Qed.

End MemoryManagerFacts.

(** ** The shell *)

Module ShellFacts.

Import Shell.

Lemma length_substring_prefix (n : nat) (s : string) :
  n <= String.length s -> String.length (String.substring 0 n s) = n.
Proof.
  revert s. induction n as [|n IH]; intros s Hn.
  - by destruct s.
  - destruct s as [|c s]; simpl in *; [lia|]. rewrite IH; [done | lia].
Qed.

Section Facts.

Context {OS : Type}.
Variable chdir : string -> OS -> Z * OS.
Variable getcwd : OS -> option string.
Variable now : OS -> Z.
Variable sys_kill : Z -> Z -> OS -> Z * OS.
Variable stoi : string -> option Z.
Variable parse : string -> gmap string string -> ParsedCommand.
Context {OutputCallback : Type}.
Context {CompletionCallback : Type}.
Variable io_progress :
  nat -> @ManagedProcess OutputCallback CompletionCallback ->
  @ManagedProcess OutputCallback CompletionCallback.

Local Abbreviation Process := (@ManagedProcess OutputCallback CompletionCallback).
Local Abbreviation Shell := (@ShellImpl OutputCallback CompletionCallback).
Local Abbreviation executeSync :=
  (Shell.executeSync chdir getcwd now sys_kill stoi parse io_progress).
Local Abbreviation executeAsync :=
  (Shell.executeAsync (OutputCallback := OutputCallback)
     (CompletionCallback := CompletionCallback) now parse).
Local Abbreviation executeInteractive :=
  (Shell.executeInteractive (OutputCallback := OutputCallback)
     (CompletionCallback := CompletionCallback) now parse).

(** What readOutput(max_bytes) computes on any process: a copy of the
    buffered output, standard output followed by standard error, all of it
    when max_bytes is 0 or at least its length, otherwise its first
    max_bytes bytes. It calls nothing that changes the process. *)
Lemma readOutput_copies_buffer (p : Process) (max_bytes : Z) :
  snd (readOutput p max_bytes) = p /\
  fst (readOutput p max_bytes)
  = (if ((max_bytes =? 0) || (Z.of_nat (String.length (getAllOutput (io_ p))) <=? max_bytes))%Z
     then getAllOutput (io_ p)
     else String.substring 0 (Z.to_nat max_bytes) (getAllOutput (io_ p))) /\
  (max_bytes = 0%Z \/
   String.length (fst (readOutput p max_bytes)) <= Z.to_nat max_bytes) /\
  readOutput (snd (readOutput p max_bytes)) max_bytes = readOutput p max_bytes.
Proof.
  unfold readOutput.
  destruct (max_bytes =? 0)%Z eqn:E0; simpl.
  - apply Z.eqb_eq in E0. repeat split; try done. by left.
  - destruct (Z.of_nat (String.length (getAllOutput (io_ p))) <=? max_bytes)%Z eqn:E1;
      simpl; rewrite ?E0, ?E1; simpl; repeat split; try done.
    + apply Z.leb_le in E1. right. lia.
    + apply Z.leb_gt in E1. right. rewrite length_substring_prefix; lia.
Qed.

(** C7. When the parse of the command is not valid, executeSync returns a
    ProcessInfo in state Failed (exit code -1), executeAsync and
    executeInteractive return -1, and none of them changes the shell. *)
Theorem invalid_command_rejected (polls : nat) (cmd : string)
  (options : ExecutionOptions) (output_callback : option OutputCallback)
  (completion_callback : option CompletionCallback) (s : Shell) (os : OS) :
  isValid (parse cmd (environment_ s)) = false ->
  (exists info, executeSync polls cmd options s os = (Some info, s, os) /\
                state info = Failed /\ exit_code info = (-1)%Z) /\
  executeAsync cmd options output_callback completion_callback s os = ((-1)%Z, s, os) /\
  executeInteractive cmd options s os = ((-1)%Z, s, os).
Proof.
  intros Hinv. unfold Shell.executeSync, Shell.executeAsync, Shell.executeInteractive,
    parseCommand. rewrite Hinv. simpl. split; [|done].
  exists failed_info. done.
Qed.

Lemma setCurrentDirectory_failure (path : string) (s : Shell) (os : OS) :
  fst (chdir path os) <> 0%Z ->
  fst (setCurrentDirectory chdir getcwd path s os) = (false, s).
Proof.
  intros Hrc. unfold setCurrentDirectory.
  destruct (chdir path os) as [rc os1]. simpl in Hrc.
  destruct (rc =? 0)%Z eqn:E; [apply Z.eqb_eq in E; done | done].
Qed.

(** C8. When the command parses to the built-in cd with the single
    argument /nonexistent-path-xyz and the system refuses to change to
    that directory, executeSync returns a ProcessInfo with state Failed
    and exit code 1, and getCurrentDirectory is what it was before. *)
Theorem cd_to_missing_directory (polls : nat) (options : ExecutionOptions)
  (s : Shell) (os : OS) :
  executable (parse "cd /nonexistent-path-xyz" (environment_ s)) = "cd" ->
  parsed_arguments (parse "cd /nonexistent-path-xyz" (environment_ s))
  = ["/nonexistent-path-xyz"] ->
  fst (chdir "/nonexistent-path-xyz" os) <> 0%Z ->
  exists info,
    fst (fst (executeSync polls "cd /nonexistent-path-xyz" options s os)) = Some info /\
    state info = Failed /\ exit_code info = 1%Z /\
    getCurrentDirectory (snd (fst (executeSync polls "cd /nonexistent-path-xyz" options s os)))
    = getCurrentDirectory s.
Proof.
  intros Hexe Hargs Hrc. unfold Shell.executeSync, parseCommand, isValid.
  rewrite Hexe, Hargs. simpl.
  unfold executeBuiltin, executeBuiltinCd. simpl.
  pose proof (setCurrentDirectory_failure "/nonexistent-path-xyz" s os Hrc) as Hset.
  destruct (setCurrentDirectory chdir getcwd "/nonexistent-path-xyz" s os)
    as [[ok s1] os1]. simpl in Hset. inversion Hset; subst ok s1. simpl.
  eexists. repeat split.
Qed.

(** C9. For a command whose executable is not a built-in, executeSync
    leaves the process table as it was, whatever the number of polls: the
    process it creates and waits on is not inserted, and getProcessInfo,
    getAllProcesses, readOutput and terminateProcess answer exactly as
    they did before the call. In particular, when the pid given to the
    new process was not in the table, these calls do not find it:
    getProcessInfo reports NotStarted, readOutput returns the empty
    string and terminateProcess returns false. *)
Theorem executeSync_keeps_table (polls : nat) (cmd : string)
  (options : ExecutionOptions) (s : Shell) (os : OS) :
  isBuiltinCommand (executable (parse cmd (environment_ s))) = false ->
  let s' := snd (fst (executeSync polls cmd options s os)) in
  active_processes_ s' = active_processes_ s /\
  (forall p, getProcessInfo s' p = getProcessInfo s p) /\
  getAllProcesses s' = getAllProcesses s /\
  (forall p max_bytes,
     fst (ShellImpl_readOutput s' p max_bytes) = fst (ShellImpl_readOutput s p max_bytes)) /\
  (forall p force os1,
     fst (fst (terminateProcess now sys_kill s' os1 p force))
     = fst (fst (terminateProcess now sys_kill s os1 p force))) /\
  (active_processes_ s !! next_pid_ s = None ->
   state (getProcessInfo s' (next_pid_ s)) = NotStarted /\
   (forall max_bytes, fst (ShellImpl_readOutput s' (next_pid_ s) max_bytes) = "") /\
   (forall force os1,
      fst (fst (terminateProcess now sys_kill s' os1 (next_pid_ s) force)) = false)).
Proof.
  intros Hnb. cbv zeta. unfold Shell.executeSync, parseCommand.
  assert (Hsame : forall s' : Shell,
            active_processes_ s' = active_processes_ s ->
            active_processes_ s' = active_processes_ s /\
            (forall p, getProcessInfo s' p = getProcessInfo s p) /\
            getAllProcesses s' = getAllProcesses s /\
            (forall p max_bytes,
               fst (ShellImpl_readOutput s' p max_bytes)
               = fst (ShellImpl_readOutput s p max_bytes)) /\
            (forall p force os1,
               fst (fst (terminateProcess now sys_kill s' os1 p force))
               = fst (fst (terminateProcess now sys_kill s os1 p force))) /\
            (active_processes_ s !! next_pid_ s = None ->
             state (getProcessInfo s' (next_pid_ s)) = NotStarted /\
             (forall max_bytes,
                fst (ShellImpl_readOutput s' (next_pid_ s) max_bytes) = "") /\
             (forall force os1,
                fst (fst (terminateProcess now sys_kill s' os1 (next_pid_ s) force))
                = false))).
  { intros s' Heq. split; [done|].
    unfold getProcessInfo, getAllProcesses, ShellImpl_readOutput, terminateProcess.
    rewrite Heq. split; [done|]. split; [done|]. split; [|split].
    - intros p max_bytes. destruct (active_processes_ s !! p) as [m|]; [|done].
      by destruct (readOutput m max_bytes).
    - intros p force os1. destruct (active_processes_ s !! p) as [m|]; [|done].
      by destruct (terminate now sys_kill m force os1) as [[r m'] os'].
    - intros Hnone. rewrite Hnone. by repeat split. }
  destruct (negb (isValid (parse cmd (environment_ s)))); [by apply Hsame|].
  rewrite Hnb. simpl.
  exact (Hsame (set_next_pid s (wrap_int (next_pid_ s + 1))) eq_refl).
Qed.

End Facts.

(** C7, instance: a command of three spaces. *)
Lemma invalid_command_rejected_witness :
  isValid (Testbed.parse "   " (environment_ Testbed.shell0)) = false /\
  (exists info,
     Testbed.executeSync Testbed.idle_io_thread 3 "   " ExecutionOptions_default
       Testbed.shell0 Testbed.os0 = (Some info, Testbed.shell0, Testbed.os0) /\
     state info = Failed /\ exit_code info = (-1)%Z) /\
  Testbed.executeAsync "   " ExecutionOptions_default None None
    Testbed.shell0 Testbed.os0 = ((-1)%Z, Testbed.shell0, Testbed.os0) /\
  Testbed.executeInteractive "   " ExecutionOptions_default
    Testbed.shell0 Testbed.os0 = ((-1)%Z, Testbed.shell0, Testbed.os0).
Proof.
  assert (H : isValid (Testbed.parse "   " (environment_ Testbed.shell0)) = false)
    by (vm_compute; reflexivity).
  split; [exact H|].
  exact (invalid_command_rejected Testbed.chdir Testbed.getcwd Testbed.now
           Testbed.sys_kill Testbed.stoi Testbed.parse Testbed.idle_io_thread
           3 "   " ExecutionOptions_default None None Testbed.shell0 Testbed.os0 H).
Defined.

(** C8, instance: a system whose directories are /, /home and /tmp. *)
Lemma cd_to_missing_directory_witness :
  (executable (Testbed.parse "cd /nonexistent-path-xyz" (environment_ Testbed.shell0))
   = "cd" /\
   parsed_arguments (Testbed.parse "cd /nonexistent-path-xyz"
                       (environment_ Testbed.shell0))
   = ["/nonexistent-path-xyz"] /\
   fst (Testbed.chdir "/nonexistent-path-xyz" Testbed.os0) <> 0%Z) /\
  exists info,
    fst (fst (Testbed.executeSync Testbed.idle_io_thread 3 "cd /nonexistent-path-xyz"
                ExecutionOptions_default Testbed.shell0 Testbed.os0)) = Some info /\
    state info = Failed /\ exit_code info = 1%Z /\
    getCurrentDirectory
      (snd (fst (Testbed.executeSync Testbed.idle_io_thread 3
                   "cd /nonexistent-path-xyz" ExecutionOptions_default
                   Testbed.shell0 Testbed.os0)))
    = getCurrentDirectory Testbed.shell0.
Proof.
  assert (H1 : executable (Testbed.parse "cd /nonexistent-path-xyz"
                             (environment_ Testbed.shell0)) = "cd")
    by (vm_compute; reflexivity).
  assert (H2 : parsed_arguments (Testbed.parse "cd /nonexistent-path-xyz"
                                   (environment_ Testbed.shell0))
               = ["/nonexistent-path-xyz"])
    by (vm_compute; reflexivity).
  assert (H3 : fst (Testbed.chdir "/nonexistent-path-xyz" Testbed.os0) <> 0%Z)
    by (vm_compute; discriminate).
  split; [by repeat split|].
  exact (cd_to_missing_directory Testbed.chdir Testbed.getcwd Testbed.now
           Testbed.sys_kill Testbed.stoi Testbed.parse Testbed.idle_io_thread
           3 ExecutionOptions_default Testbed.shell0 Testbed.os0 H1 H2 H3).
Defined.

(** C9, instance: ls -l, still polled after five polls. *)
Lemma executeSync_keeps_table_witness :
  let s' := snd (fst (Testbed.executeSync Testbed.idle_io_thread 5 "ls -l"
                        ExecutionOptions_default Testbed.shell0 Testbed.os0)) in
  isBuiltinCommand (executable (Testbed.parse "ls -l" (environment_ Testbed.shell0)))
  = false /\
  fst (fst (Testbed.executeSync Testbed.idle_io_thread 5 "ls -l"
              ExecutionOptions_default Testbed.shell0 Testbed.os0))
  = None /\
  next_pid_ s' = 1001%Z /\
  active_processes_ s' = active_processes_ Testbed.shell0 /\
  forall p, getProcessInfo s' p = getProcessInfo Testbed.shell0 p.
Proof.
  intros s'.
  assert (H : isBuiltinCommand
                (executable (Testbed.parse "ls -l" (environment_ Testbed.shell0)))
              = false) by (vm_compute; reflexivity).
  pose proof (executeSync_keeps_table Testbed.chdir Testbed.getcwd Testbed.now
                Testbed.sys_kill Testbed.stoi Testbed.parse
                Testbed.idle_io_thread 5 "ls -l" ExecutionOptions_default
                Testbed.shell0 Testbed.os0 H) as (Htable & Hinfo & _).
  split; [exact H|]. split; [vm_compute; reflexivity|].
  split; [vm_compute; reflexivity|]. split; [exact Htable | exact Hinfo].
Defined.

End ShellFacts.

(** ** More about MemoryPool *)

Module PoolLaws.

Import MemoryPool MemoryPoolFacts.

Lemma popcount_zero (u : list bool) :
  popcount u = 0 <-> (forall i, bit u i = false).
Proof.
  induction u as [|b u IH]; simpl.
  - split; [intros _ i; unfold bit; by rewrite lookup_nil | done].
  - split.
    + intros Hz i. destruct b; [lia|].
      destruct i as [|i]; [done|]. apply IH. lia.
    + intros Hall. pose proof (Hall 0) as H0. unfold bit in H0. simpl in H0.
      subst b. apply IH. intros i. apply (Hall (S i)).
Qed.

Lemma bit_false_lookup (u : list bool) (i : nat) :
  i < length u -> bit u i = false -> u !! i = Some false.
Proof.
  intros Hi Hb. unfold bit in Hb.
  destruct (lookup_lt_is_Some_2 u i Hi) as [b Hl]. rewrite Hl in Hb.
  simpl in Hb. by subst b.
Qed.

Section Laws.

Variable PoolSize : nat.
Variable block_size : Z.
Variable storage_begin : Z.

Local Abbreviation slot_address := (MemoryPool.slot_address block_size storage_begin).
Local Abbreviation slot_of := (MemoryPool.slot_of block_size storage_begin).
Local Abbreviation storage_end := (MemoryPool.storage_end PoolSize block_size storage_begin).
Local Abbreviation allocate := (MemoryPool.allocate PoolSize block_size storage_begin).
Local Abbreviation deallocate := (MemoryPool.deallocate PoolSize block_size storage_begin).
Local Abbreviation run := (MemoryPool.run PoolSize block_size storage_begin).
Local Abbreviation shape := (MemoryPool.shape PoolSize).
Local Abbreviation exhausted := (MemoryPool.exhausted PoolSize).

Hypothesis block_size_pos : (0 < block_size)%Z.

Lemma slot_address_in_storage (slot : nat) :
  slot < PoolSize ->
  (storage_begin <= slot_address slot < storage_end)%Z.
Proof.
  intros Hlt. unfold MemoryPool.storage_end, MemoryPool.slot_address. nia.
Qed.

(** What [deallocate] does to the address of a used slot. *)
Lemma deallocate_used_slot (p : t) (slot : nat) :
  slot < PoolSize -> slot_address slot <> nullptr ->
  bit (used_ p) slot = true ->
  deallocate p (slot_address slot)
  = {| used_ := <[slot := false]> (used_ p);
       next_free_ := if (slot <? next_free_ p)%nat then slot else next_free_ p;
       allocated_count_ := wrap64 (allocated_count_ p - 1) |}.
Proof.
  intros Hlt Hnn Hb. pose proof (slot_address_in_storage slot Hlt) as Hin.
  unfold MemoryPool.deallocate.
  destruct (Z.eqb_spec (slot_address slot) nullptr) as [E|_]; [done|].
  destruct (Z.ltb_spec (slot_address slot) storage_begin) as [E|_]; [lia|].
  destruct (Z.leb_spec storage_end (slot_address slot)) as [E|_]; [lia|].
  simpl. rewrite (slot_of_address block_size storage_begin block_size_pos), Hb.
  destruct (Nat.ltb_spec slot PoolSize) as [_|E]; [done | lia].
Qed.

(** An allocate that succeeds, then deallocate of its result. *)
Lemma allocate_deallocate_state (p : t) :
  (Z.of_nat PoolSize < size_t_modulus)%Z ->
  shape p -> counted p ->
  fst (allocate p) <> nullptr ->
  used_ (deallocate (snd (allocate p)) (fst (allocate p))) = used_ p /\
  allocated (deallocate (snd (allocate p)) (fst (allocate p))) = allocated p.
Proof.
  intros HN Hs Hc Hnn.
  destruct (allocate_cases PoolSize block_size storage_begin _ Hs)
    as [(slot & Hlt & Hb & Hptr & Hu & Hn & _) | [Hnull _]];
    [|rewrite Hnull in Hnn; done].
  destruct Hs as [Hlen _].
  rewrite Hptr in Hnn |- *.
  rewrite deallocate_used_slot;
    [|done|done|rewrite Hu; apply bit_insert_eq; lia].
  unfold allocated. simpl. rewrite Hu, Hn. split.
  - rewrite list_insert_insert_eq. apply list_insert_id, bit_false_lookup; [lia|done].
  - unfold counted in Hc.
    pose proof (popcount_le_length (<[slot:=true]> (used_ p))) as Hle.
    rewrite length_insert, popcount_insert_true in Hle by (done || lia).
    rewrite Hc. unfold wrap64. rewrite (Z.mod_small (_ + 1)) by lia.
    rewrite Z.mod_small; lia.
Qed.

(** X1. On a pool reached by any sequence of calls, an allocate that
    succeeds followed by deallocate of the returned pointer puts the
    bitmap and the allocated count back to what they were. *)
Theorem allocate_then_deallocate (ops : list op) :
  (Z.of_nat PoolSize < size_t_modulus)%Z ->
  fst (allocate (run ops)) <> nullptr ->
  used_ (deallocate (snd (allocate (run ops))) (fst (allocate (run ops))))
  = used_ (run ops) /\
  allocated (deallocate (snd (allocate (run ops))) (fst (allocate (run ops))))
  = allocated (run ops).
Proof.
  intros HN Hnn. apply allocate_deallocate_state; [done | | | done].
  - apply shape_run.
  - by apply counted_run.
Qed.

(** X2. Freeing the same pointer twice in a row is the same as freeing it
    once: the second call changes nothing. *)
Theorem deallocate_twice (ops : list op) (ptr : Z) :
  deallocate (deallocate (run ops) ptr) ptr = deallocate (run ops) ptr.
Proof.
  pose proof (shape_run PoolSize block_size storage_begin ops) as [Hlen _].
  set (p := run ops) in *.
  destruct (decide (ptr = nullptr \/ (ptr < storage_begin)%Z \/ (storage_end <= ptr)%Z))
    as [Hout|Hin].
  - by rewrite !(deallocate_out_of_storage PoolSize block_size storage_begin p ptr Hout).
  - destruct (bit (used_ p) (slot_of ptr)) eqn:Hb;
      [|by rewrite !(deallocate_free_slot PoolSize block_size storage_begin p ptr Hb)].
    apply deallocate_free_slot. unfold MemoryPool.deallocate.
    destruct (Z.eqb_spec ptr nullptr) as [E|_]; [tauto|].
    destruct (Z.ltb_spec ptr storage_begin) as [E|_]; [tauto|].
    destruct (Z.leb_spec storage_end ptr) as [E|_]; [tauto|].
    simpl. rewrite Hb, andb_true_r.
    destruct (Nat.ltb_spec (slot_of ptr) PoolSize) as [Hlt|Hge];
      [|apply bit_true_lt in Hb; lia].
    simpl. apply bit_insert_eq. lia.
Qed.

(** X3. When a used slot below the cursor is freed, the very next allocate
    hands the same address out again. *)
Theorem freed_slot_below_cursor_is_reused (ops : list op) (slot : nat) :
  slot_address slot <> nullptr ->
  bit (used_ (run ops)) slot = true ->
  slot < next_free_ (run ops) ->
  fst (allocate (deallocate (run ops) (slot_address slot))) = slot_address slot.
Proof.
  intros Hnn Hb Hcur.
  pose proof (shape_run PoolSize block_size storage_begin ops) as [Hlen Hnf].
  set (p := run ops) in *.
  assert (Hlt : slot < PoolSize) by lia.
  rewrite deallocate_used_slot by done.
  destruct (Nat.ltb_spec slot (next_free_ p)) as [_|E]; [|lia].
  unfold MemoryPool.allocate, MemoryPool.find_free_slot. simpl.
  destruct (PoolSize - slot) as [|n] eqn:En; [lia|]. simpl.
  rewrite bit_insert_eq by lia.
  destruct (Nat.leb_spec PoolSize slot) as [E|_]; [lia | done].
Qed.

(** The pool after [k] allocations made on a fresh pool. *)
Lemma fresh_allocations (k : nat) :
  k <= PoolSize ->
  next_free_ (run (replicate k Allocate)) = k mod PoolSize /\
  length (used_ (run (replicate k Allocate))) = PoolSize /\
  forall i, bit (used_ (run (replicate k Allocate))) i = (i <? k)%nat.
Proof.
  induction k as [|k IH]; intros Hk.
  - unfold MemoryPool.run. simpl. repeat split.
    + symmetry. apply Nat.Div0.mod_0_l.
    + apply length_replicate.
    + intros i. apply bit_replicate_false.
  - destruct IH as (Hnf & Hlen & Hbits); [lia|].
    unfold MemoryPool.run in *. rewrite replicate_S_end, foldl_app. simpl.
    set (p := foldl _ _ (replicate k Allocate)) in *.
    rewrite Nat.mod_small in Hnf by lia.
    unfold MemoryPool.allocate, MemoryPool.find_free_slot. rewrite Hnf.
    destruct (PoolSize - k) as [|n] eqn:En; [lia|]. simpl.
    rewrite Hbits, Nat.ltb_irrefl.
    destruct (Nat.leb_spec PoolSize k) as [E|_]; [lia|]. simpl.
    replace (k + 1) with (S k) by lia. repeat split.
    + by rewrite length_insert.
    + intros i. destruct (decide (i = k)) as [->|Hne].
      * rewrite bit_insert_eq by lia. symmetry. apply Nat.ltb_lt. lia.
      * rewrite bit_insert_ne by done. rewrite Hbits.
        destruct (Nat.ltb_spec i k), (Nat.ltb_spec i (S k)); (done || lia).
Qed.

(** X4. A fresh pool hands its slots out in address order: the allocate
    that follows [k] allocations, [k < PoolSize], returns the address of
    slot [k]. *)
Theorem fresh_pool_allocates_in_order (k : nat) :
  k < PoolSize ->
  fst (allocate (run (replicate k Allocate))) = slot_address k.
Proof.
  intros Hk. destruct (fresh_allocations k ltac:(lia)) as (Hnf & Hlen & Hbits).
  rewrite Nat.mod_small in Hnf by lia.
  unfold MemoryPool.allocate, MemoryPool.find_free_slot. rewrite Hnf.
  destruct (PoolSize - k) as [|n] eqn:En; [lia|]. simpl.
  rewrite Hbits, Nat.ltb_irrefl.
  destruct (Nat.leb_spec PoolSize k) as [E|_]; [lia | done].
Qed.

Hypothesis PoolSize_size_t : (Z.of_nat PoolSize < size_t_modulus)%Z.

(** X5. On a pool reached by any sequence of calls,
    allocated() + available() == PoolSize and allocated() is between 0
    and PoolSize. *)
Theorem allocated_plus_available (ops : list op) :
  (allocated (run ops) + available PoolSize (run ops) = Z.of_nat PoolSize)%Z /\
  (0 <= allocated (run ops) <= Z.of_nat PoolSize)%Z.
Proof.
  pose proof (shape_run PoolSize block_size storage_begin ops) as [Hlen _].
  pose proof (counted_run PoolSize block_size storage_begin PoolSize_size_t ops) as Hc.
  pose proof (popcount_le_length (used_ (run ops))) as Hle.
  unfold available, allocated, counted in *. rewrite Hc.
  unfold wrap64. rewrite Z.mod_small; lia.
Qed.

Hypothesis storage_begin_pos : (0 < storage_begin)%Z.

(** X6. On a pool reached by any sequence of calls, is_full() holds
    exactly when the next allocate returns null, and is_empty() holds
    exactly when every bit of the bitmap is clear. *)
Theorem is_full_iff_allocate_fails (ops : list op) :
  (is_full PoolSize (run ops) = true <-> fst (allocate (run ops)) = nullptr) /\
  (is_empty (run ops) = true <-> forall i, bit (used_ (run ops)) i = false).
Proof.
  pose proof (shape_run PoolSize block_size storage_begin ops) as Hs.
  pose proof (counted_run PoolSize block_size storage_begin PoolSize_size_t ops) as Hc.
  pose proof (allocated_full_iff PoolSize (run ops) Hs Hc) as Hfull.
  pose proof (popcount_le_length (used_ (run ops))) as Hle.
  destruct Hs as [Hlen Hnf]. split.
  - unfold is_full. rewrite Z.leb_le.
    destruct (allocate_cases PoolSize block_size storage_begin (run ops) (conj Hlen Hnf))
      as [(slot & Hlt & Hb & Hptr & _) | [Hnull Hall]].
    + split.
      * intros Hge. assert (Hall : exhausted (run ops)).
        { apply Hfull. unfold allocated, counted in *. lia. }
        rewrite (Hall slot Hlt) in Hb. done.
      * intros Heq. rewrite Hptr in Heq.
        unfold MemoryPool.slot_address, nullptr in Heq. nia.
    + split; [by rewrite Hnull|]. intros _. apply Hfull in Hall. lia.
  - unfold is_empty, allocated. rewrite Z.eqb_eq. unfold counted in Hc. rewrite Hc.
    rewrite <- popcount_zero. lia.
Qed.

End Laws.

(** X1, instance: a pool of four 8-byte blocks after one allocation. *)
Lemma allocate_then_deallocate_witness :
  (0 < 8)%Z /\ (Z.of_nat 4 < size_t_modulus)%Z /\
  fst (MemoryPool.allocate 4 8 4096 (MemoryPool.run 4 8 4096 [Allocate])) <> nullptr /\
  used_ (MemoryPool.deallocate 4 8 4096
           (snd (MemoryPool.allocate 4 8 4096 (MemoryPool.run 4 8 4096 [Allocate])))
           (fst (MemoryPool.allocate 4 8 4096 (MemoryPool.run 4 8 4096 [Allocate]))))
  = used_ (MemoryPool.run 4 8 4096 [Allocate]).
Proof.
  assert (H1 : (0 < 8)%Z) by lia.
  assert (H2 : (Z.of_nat 4 < size_t_modulus)%Z) by (vm_compute; reflexivity).
  assert (H3 : fst (MemoryPool.allocate 4 8 4096 (MemoryPool.run 4 8 4096 [Allocate]))
               <> nullptr) by (vm_compute; discriminate).
  split; [exact H1|]. split; [exact H2|]. split; [exact H3|].
  exact (proj1 (allocate_then_deallocate 4 8 4096 H1 [Allocate] H2 H3)).
Defined.

(** X3, instance: slot 0 freed while the cursor is at 2. *)
Lemma freed_slot_below_cursor_is_reused_witness :
  (0 < 8)%Z /\
  MemoryPool.slot_address 8 4096 0 <> nullptr /\
  bit (used_ (MemoryPool.run 4 8 4096 [Allocate; Allocate])) 0 = true /\
  0 < next_free_ (MemoryPool.run 4 8 4096 [Allocate; Allocate]) /\
  fst (MemoryPool.allocate 4 8 4096
         (MemoryPool.deallocate 4 8 4096
            (MemoryPool.run 4 8 4096 [Allocate; Allocate])
            (MemoryPool.slot_address 8 4096 0)))
  = MemoryPool.slot_address 8 4096 0.
Proof.
  assert (H1 : (0 < 8)%Z) by lia.
  assert (H2 : MemoryPool.slot_address 8 4096 0 <> nullptr) by (vm_compute; discriminate).
  assert (H3 : bit (used_ (MemoryPool.run 4 8 4096 [Allocate; Allocate])) 0 = true)
    by (vm_compute; reflexivity).
  assert (H4 : 0 < next_free_ (MemoryPool.run 4 8 4096 [Allocate; Allocate]))
    by (vm_compute; lia).
  split; [exact H1|]. split; [exact H2|]. split; [exact H3|]. split; [exact H4|].
  exact (freed_slot_below_cursor_is_reused 4 8 4096 H1 [Allocate; Allocate] 0 H2 H3 H4).
Defined.

(** X4, instance: the third allocation of a fresh pool. *)
Lemma fresh_pool_allocates_in_order_witness :
  2 < 4 /\
  fst (MemoryPool.allocate 4 8 4096 (MemoryPool.run 4 8 4096 (replicate 2 Allocate)))
  = MemoryPool.slot_address 8 4096 2.
Proof.
  assert (H : 2 < 4) by lia.
  split; [exact H|]. exact (fresh_pool_allocates_in_order 4 8 4096 2 H).
Defined.

(** X5, instance. *)
Lemma allocated_plus_available_witness :
  (0 < 8)%Z /\ (Z.of_nat 4 < size_t_modulus)%Z /\
  (allocated (MemoryPool.run 4 8 4096 [Allocate; Allocate; Deallocate 4096])
   + available 4 (MemoryPool.run 4 8 4096 [Allocate; Allocate; Deallocate 4096])
   = Z.of_nat 4)%Z.
Proof.
  assert (H1 : (0 < 8)%Z) by lia.
  assert (H2 : (Z.of_nat 4 < size_t_modulus)%Z) by (vm_compute; reflexivity).
  split; [exact H1|]. split; [exact H2|].
  exact (proj1 (allocated_plus_available 4 8 4096 H2
                  [Allocate; Allocate; Deallocate 4096])).
Defined.

(** X6, instance: a full pool of two blocks. *)
Lemma is_full_iff_allocate_fails_witness :
  ((0 < 8)%Z /\ (Z.of_nat 2 < size_t_modulus)%Z /\ (0 < 4096)%Z) /\
  (is_full 2 (MemoryPool.run 2 8 4096 [Allocate; Allocate]) = true <->
   fst (MemoryPool.allocate 2 8 4096 (MemoryPool.run 2 8 4096 [Allocate; Allocate]))
   = nullptr) /\
  is_full 2 (MemoryPool.run 2 8 4096 [Allocate; Allocate]) = true.
Proof.
  assert (H1 : (0 < 8)%Z) by lia.
  assert (H2 : (Z.of_nat 2 < size_t_modulus)%Z) by (vm_compute; reflexivity).
  assert (H3 : (0 < 4096)%Z) by lia.
  split; [by repeat split|]. split; [|vm_compute; reflexivity].
  exact (proj1 (is_full_iff_allocate_fails 2 8 4096 H1 H2 H3 [Allocate; Allocate])).
Defined.

End PoolLaws.

(** ** More about StackAllocator *)

Module StackLaws.

Import StackAllocator StackAllocatorFacts.

Local Open Scope Z_scope.

Section Laws.

Variable StackSize : Z.
Variable max_align_log2 : Z.
Variable stack_begin : Z.

Local Abbreviation max_align := (StackAllocator.max_align max_align_log2).
Local Abbreviation allocate := (StackAllocator.allocate StackSize max_align_log2 stack_begin).
Local Abbreviation deallocate_to := (StackAllocator.deallocate_to StackSize stack_begin).
Local Abbreviation step := (StackAllocator.step StackSize max_align_log2 stack_begin).
Local Abbreviation run := (StackAllocator.run StackSize max_align_log2 stack_begin).
Local Abbreviation in_bounds := (StackAllocator.in_bounds StackSize).
Local Abbreviation available := (StackAllocator.available StackSize).
Local Abbreviation sum_in_range := (StackAllocator.sum_in_range max_align_log2).

Hypothesis align_exponent : 0 <= max_align_log2.
Hypothesis StackSize_fits : 0 <= StackSize /\ StackSize + max_align <= size_t_modulus.
Hypothesis stack_begin_pos : 0 < stack_begin.

Lemma align_up_multiple (x : Z) : align_up max_align x mod max_align = 0.
Proof.
  rewrite (align_up_eq max_align_log2 align_exponent).
  apply Z.mod_mul. pose proof (max_align_pos max_align_log2 align_exponent). lia.
Qed.

Lemma reachable_in_bounds (ops : list op) : in_bounds (run ops).
Proof.
  apply in_bounds_run; [done | lia].
Qed.

(** What [allocate] computes when its sum stays inside [size_t]. *)
Lemma allocate_in_range (st : t) (size alignment : Z) :
  in_bounds st -> sum_in_range st (Allocate size alignment) ->
  allocate st size alignment
  = (if StackSize <? align_up max_align (top_ st) + align_up max_align size
     then (nullptr, st)
     else (stack_begin + align_up max_align (top_ st),
           {| top_ := align_up max_align (top_ st) + align_up max_align size |})) /\
  top_ st <= align_up max_align (top_ st) /\
  0 <= align_up max_align size.
Proof.
  intros Hb Hsum. unfold StackAllocator.in_bounds in Hb. simpl in Hsum.
  pose proof (align_up_ge max_align_log2 align_exponent (top_ st)
                ltac:(lia) ltac:(lia)) as Hge.
  pose proof (align_up_nonneg max_align_log2 align_exponent size) as Hs.
  split; [|done]. unfold StackAllocator.allocate.
  by rewrite wrap64_small by lia.
Qed.

(** X7. On an allocator reached by any sequence of public operations, an
    allocate whose sum stays inside size_t and that returns a non-null
    pointer returns an address at or above the previous top, at an offset
    that is a multiple of alignof(max_align_t), and the new used() is that
    offset plus the rounded size, at most StackSize. The requested bytes
    lie inside the buffer when, in addition, size is not negative and
    size + alignof(max_align_t) <= 2^64, so that rounding size up does not
    wrap; for a larger size nothing is said about them. *)
Theorem allocate_block_in_buffer (ops : list op) (size alignment : Z) :
  sum_in_range (run ops) (Allocate size alignment) ->
  fst (allocate (run ops) size alignment) <> nullptr ->
  let ptr := fst (allocate (run ops) size alignment) in
  let st' := snd (allocate (run ops) size alignment) in
  stack_begin + used (run ops) <= ptr /\
  (ptr - stack_begin) mod max_align = 0 /\
  used st' = ptr - stack_begin + align_up max_align size /\
  used st' <= StackSize /\
  (0 <= size -> size + max_align <= size_t_modulus ->
   ptr + size <= stack_begin + StackSize).
Proof.
  intros Hsum Hnn. pose proof (reachable_in_bounds ops) as Hb.
  destruct (allocate_in_range _ size alignment Hb Hsum) as (Heq & Hge & Hs).
  rewrite Heq in *. clear Heq.
  destruct (Z.ltb_spec StackSize
              (align_up max_align (top_ (run ops)) + align_up max_align size))
    as [Hover|Hfit]; [done|]. simpl. unfold used. simpl.
  repeat split; try lia.
  - replace (stack_begin + align_up max_align (top_ (run ops)) - stack_begin)
      with (align_up max_align (top_ (run ops))) by lia.
    apply align_up_multiple.
  - intros H0 Hsz.
    pose proof (align_up_ge max_align_log2 align_exponent size H0 Hsz). lia.
Qed.

(** X8. Two allocations made one after the other, both inside size_t and
    both successful, do not overlap: the second address is at or above
    the first address plus the first rounded size. *)
Theorem successive_allocations_disjoint (ops : list op) (size1 a1 size2 a2 : Z) :
  let st1 := snd (allocate (run ops) size1 a1) in
  sum_in_range (run ops) (Allocate size1 a1) ->
  sum_in_range st1 (Allocate size2 a2) ->
  fst (allocate (run ops) size1 a1) <> nullptr ->
  fst (allocate st1 size2 a2) <> nullptr ->
  fst (allocate (run ops) size1 a1) + align_up max_align size1
  <= fst (allocate st1 size2 a2).
Proof.
  intros st1 Hsum1 Hsum2 Hnn1 Hnn2. pose proof (reachable_in_bounds ops) as Hb.
  assert (Hb1 : in_bounds st1) by (by apply (in_bounds_allocate StackSize)).
  destruct (allocate_in_range _ size1 a1 Hb Hsum1) as (Heq1 & Hge1 & Hs1).
  destruct (allocate_in_range _ size2 a2 Hb1 Hsum2) as (Heq2 & Hge2 & Hs2).
  rewrite Heq2 in *. clear Heq2. subst st1. rewrite Heq1 in *. clear Heq1.
  destruct (StackSize <? align_up max_align (top_ (run ops)) + align_up max_align size1);
    [done|]. simpl in *.
  destruct (StackSize <? _); [done|]. simpl. lia.
Qed.

(** X9. An allocate whose sum stays inside size_t returns null exactly
    when the rounded top plus the rounded size exceeds StackSize, and
    then the allocator is left as it was. *)
Theorem allocate_null_iff_overflow (ops : list op) (size alignment : Z) :
  sum_in_range (run ops) (Allocate size alignment) ->
  (fst (allocate (run ops) size alignment) = nullptr <->
   StackSize < align_up max_align (used (run ops)) + align_up max_align size) /\
  (fst (allocate (run ops) size alignment) = nullptr ->
   snd (allocate (run ops) size alignment) = run ops).
Proof.
  intros Hsum. pose proof (reachable_in_bounds ops) as Hb.
  destruct (allocate_in_range _ size alignment Hb Hsum) as (Heq & Hge & Hs).
  rewrite Heq. clear Heq. unfold used. unfold StackAllocator.in_bounds in Hb.
  destruct (Z.ltb_spec StackSize
              (align_up max_align (top_ (run ops)) + align_up max_align size))
    as [Hover|Hfit]; simpl.
  - done.
  - unfold nullptr. split; [split; lia | lia].
Qed.

(** X10. On an allocator reached by any sequence of public operations,
    used() stays between 0 and StackSize and
    used() + available() == StackSize. *)
Theorem used_plus_available (ops : list op) :
  0 <= used (run ops) <= StackSize /\
  used (run ops) + available (run ops) = StackSize.
Proof.
  pose proof (reachable_in_bounds ops) as Hb.
  unfold StackAllocator.in_bounds, StackAllocator.available, used in *.
  pose proof (max_align_pos max_align_log2 align_exponent).
  rewrite wrap64_small by lia. lia.
Qed.

Hypothesis buffer_in_address_space : stack_begin + StackSize < size_t_modulus.

(** X11. Last in, first out: after an allocate that stays inside size_t
    and succeeds, deallocate_to of the returned pointer brings used()
    back to the previous top rounded up to alignof(max_align_t), which is
    the previous top itself when that was already a multiple of it. *)
Theorem allocate_then_deallocate_to (ops : list op) (size alignment : Z) :
  sum_in_range (run ops) (Allocate size alignment) ->
  fst (allocate (run ops) size alignment) <> nullptr ->
  used (deallocate_to (snd (allocate (run ops) size alignment))
                      (fst (allocate (run ops) size alignment)))
  = align_up max_align (used (run ops)) /\
  (used (run ops) mod max_align = 0 ->
   align_up max_align (used (run ops)) = used (run ops)).
Proof.
  intros Hsum Hnn. pose proof (reachable_in_bounds ops) as Hb.
  pose proof (max_align_pos max_align_log2 align_exponent) as Hpos.
  destruct (allocate_in_range _ size alignment Hb Hsum) as (Heq & Hge & Hs).
  unfold StackAllocator.in_bounds in Hb. split.
  - rewrite Heq in *. clear Heq. unfold used.
    destruct (Z.ltb_spec StackSize
                (align_up max_align (top_ (run ops)) + align_up max_align size))
      as [Hover|Hfit]; [done|]. simpl in *.
    unfold StackAllocator.deallocate_to.
    destruct (Z.eqb_spec (stack_begin + align_up max_align (top_ (run ops))) nullptr)
      as [E|_]; [done|].
    rewrite wrap64_small by lia.
    destruct (Z.leb_spec stack_begin (stack_begin + align_up max_align (top_ (run ops))))
      as [_|E]; [|lia].
    destruct (Z.ltb_spec (stack_begin + align_up max_align (top_ (run ops)))
                (stack_begin + StackSize)) as [Hin|Hend]; simpl; lia.
  - intros Hal. unfold used in *.
    rewrite (align_up_eq max_align_log2 align_exponent).
    rewrite wrap64_small by lia.
    pose proof (Z.div_mod (top_ (run ops)) max_align ltac:(lia)) as Hdm.
    rewrite Hal in Hdm.
    replace (top_ (run ops) + max_align - 1)
      with ((max_align - 1) + (top_ (run ops) / max_align) * max_align) by lia.
    rewrite Z.div_add by lia. rewrite Z.div_small by lia. lia.
Qed.

End Laws.

(** X7, instance: an 8192-byte stack at address 4096 after one
    allocation; 100 bytes are requested. *)
Lemma allocate_block_in_buffer_witness :
  let st := StackAllocator.run 8192 4 4096 [Allocate 1 16] in
  (0 <= 4 /\ (0 <= 8192 /\ 8192 + StackAllocator.max_align 4 <= size_t_modulus) /\
   0 < 4096) /\
  sum_in_range 4 st (Allocate 100 16) /\
  fst (StackAllocator.allocate 8192 4 4096 st 100 16) <> nullptr /\
  fst (StackAllocator.allocate 8192 4 4096 st 100 16) = 4112 /\
  used (snd (StackAllocator.allocate 8192 4 4096 st 100 16))
  = fst (StackAllocator.allocate 8192 4 4096 st 100 16) - 4096
    + align_up (StackAllocator.max_align 4) 100.
Proof.
  intros st.
  assert (H1 : 0 <= 4) by lia.
  assert (H2 : 0 <= 8192 /\ 8192 + StackAllocator.max_align 4 <= size_t_modulus)
    by (vm_compute; split; discriminate).
  assert (H3 : 0 < 4096) by lia.
  assert (H4 : sum_in_range 4 st (Allocate 100 16)) by (vm_compute; reflexivity).
  assert (H5 : fst (StackAllocator.allocate 8192 4 4096 st 100 16) <> nullptr)
    by (vm_compute; discriminate).
  split; [by repeat split|]. split; [exact H4|]. split; [exact H5|].
  split; [vm_compute; reflexivity|].
  exact (proj1 (proj2 (proj2 (allocate_block_in_buffer 8192 4 4096 H1 H2 H3
                                [Allocate 1 16] 100 16 H4 H5)))).
Defined.

(** X8, instance: 100 bytes, then 24 bytes. *)
Lemma successive_allocations_disjoint_witness :
  let st1 := snd (StackAllocator.allocate 8192 4 4096
                    (StackAllocator.run 8192 4 4096 []) 100 16) in
  (0 <= 4 /\ (0 <= 8192 /\ 8192 + StackAllocator.max_align 4 <= size_t_modulus) /\
   0 < 4096) /\
  fst (StackAllocator.allocate 8192 4 4096 (StackAllocator.run 8192 4 4096 []) 100 16)
  + align_up (StackAllocator.max_align 4) 100
  <= fst (StackAllocator.allocate 8192 4 4096 st1 24 16).
Proof.
  intros st1.
  assert (H1 : 0 <= 4) by lia.
  assert (H2 : 0 <= 8192 /\ 8192 + StackAllocator.max_align 4 <= size_t_modulus)
    by (vm_compute; split; discriminate).
  assert (H3 : 0 < 4096) by lia.
  split; [by repeat split|].
  apply (successive_allocations_disjoint 8192 4 4096 H1 H2 H3 [] 100 16 24 16).
  - vm_compute. reflexivity.
  - vm_compute. reflexivity.
  - vm_compute. discriminate.
  - vm_compute. discriminate.
Defined.

(** X9, instance: 8192 bytes asked of a stack that already holds 16. *)
Lemma allocate_null_iff_overflow_witness :
  let st := StackAllocator.run 8192 4 4096 [Allocate 1 16] in
  (0 <= 4 /\ (0 <= 8192 /\ 8192 + StackAllocator.max_align 4 <= size_t_modulus) /\
   0 < 4096) /\
  sum_in_range 4 st (Allocate 8192 16) /\
  fst (StackAllocator.allocate 8192 4 4096 st 8192 16) = nullptr /\
  snd (StackAllocator.allocate 8192 4 4096 st 8192 16) = st.
Proof.
  intros st.
  assert (H1 : 0 <= 4) by lia.
  assert (H2 : 0 <= 8192 /\ 8192 + StackAllocator.max_align 4 <= size_t_modulus)
    by (vm_compute; split; discriminate).
  assert (H3 : 0 < 4096) by lia.
  assert (H4 : sum_in_range 4 st (Allocate 8192 16)) by (vm_compute; reflexivity).
  assert (H5 : fst (StackAllocator.allocate 8192 4 4096 st 8192 16) = nullptr)
    by (vm_compute; reflexivity).
  split; [by repeat split|]. split; [exact H4|]. split; [exact H5|].
  exact (proj2 (allocate_null_iff_overflow 8192 4 4096 H1 H2 H3
                  [Allocate 1 16] 8192 16 H4) H5).
Defined.

(** X10, instance. *)
Lemma used_plus_available_witness :
  (0 <= 4 /\ (0 <= 8192 /\ 8192 + StackAllocator.max_align 4 <= size_t_modulus) /\
   0 < 4096) /\
  used (StackAllocator.run 8192 4 4096 [Allocate 1 16; Allocate 100 8])
  + StackAllocator.available 8192
      (StackAllocator.run 8192 4 4096 [Allocate 1 16; Allocate 100 8])
  = 8192.
Proof.
  assert (H1 : 0 <= 4) by lia.
  assert (H2 : 0 <= 8192 /\ 8192 + StackAllocator.max_align 4 <= size_t_modulus)
    by (vm_compute; split; discriminate).
  assert (H3 : 0 < 4096) by lia.
  split; [by repeat split|].
  exact (proj2 (used_plus_available 8192 4 4096 H1 H2 H3
                  [Allocate 1 16; Allocate 100 8])).
Defined.

(** X11, instance: 100 bytes allocated on a top of 16 and released. *)
Lemma allocate_then_deallocate_to_witness :
  let st := StackAllocator.run 8192 4 4096 [Allocate 1 16] in
  (0 <= 4 /\ (0 <= 8192 /\ 8192 + StackAllocator.max_align 4 <= size_t_modulus) /\
   0 < 4096 /\ 4096 + 8192 < size_t_modulus) /\
  used st = 16 /\
  used (StackAllocator.deallocate_to 8192 4096
          (snd (StackAllocator.allocate 8192 4 4096 st 100 16))
          (fst (StackAllocator.allocate 8192 4 4096 st 100 16)))
  = align_up (StackAllocator.max_align 4) (used st).
Proof.
  intros st.
  assert (H1 : 0 <= 4) by lia.
  assert (H2 : 0 <= 8192 /\ 8192 + StackAllocator.max_align 4 <= size_t_modulus)
    by (vm_compute; split; discriminate).
  assert (H3 : 0 < 4096) by lia.
  assert (H4 : 4096 + 8192 < size_t_modulus) by (vm_compute; reflexivity).
  assert (H5 : sum_in_range 4 st (Allocate 100 16)) by (vm_compute; reflexivity).
  assert (H6 : fst (StackAllocator.allocate 8192 4 4096 st 100 16) <> nullptr)
    by (vm_compute; discriminate).
  split; [by repeat split|]. split; [vm_compute; reflexivity|].
  exact (proj1 (allocate_then_deallocate_to 8192 4 4096 H1 H2 H3 H4
                  [Allocate 1 16] 100 16 H5 H6)).
Defined.

End StackLaws.

(** ** More about MemoryManager *)

Module ManagerLaws.

Import MemoryManager MemoryManagerFacts MemoryExt.

Lemma wrap64_add_sub (a d size : Z) :
  wrap64 (wrap64 (a + size) - wrap64 (d + size)) = wrap64 (a - d).
Proof.
  unfold wrap64. rewrite <- Zminus_mod. f_equal. lia.
Qed.

Lemma pool_sizes_fit :
  (Z.of_nat small_size < size_t_modulus)%Z /\
  (Z.of_nat medium_size < size_t_modulus)%Z /\
  (Z.of_nat large_size < size_t_modulus)%Z.
Proof.
  by vm_compute.
Qed.

Lemma pools_counted_update_statistics (m : t) (size : Z) (allocating : bool) :
  pools_counted m -> pools_counted (update_statistics m size allocating).
Proof.
  by destruct allocating.
Qed.

(** The size class of a request. *)
Lemma size_class (size : Z) :
  (size <= 64)%Z \/ (64 < size <= 512)%Z \/ (512 < size <= 4096)%Z \/ (4096 < size)%Z.
Proof.
  lia.
Qed.

Section Laws.

Variable block_size : Z.
Variable small_begin medium_begin large_begin : Z.
Variable stack_begin : Z.
Variable max_align_log2 : Z.
Context {Heap : Type}.
Variable aligned_alloc : Heap -> Z -> Z -> Z * Heap.
Variable free : Heap -> Z -> Heap.

Local Abbreviation allocate :=
  (MemoryManager.allocate block_size small_begin medium_begin large_begin aligned_alloc).
Local Abbreviation deallocate :=
  (MemoryManager.deallocate block_size small_begin medium_begin large_begin free).
Local Abbreviation step :=
  (MemoryManager.step block_size small_begin medium_begin large_begin stack_begin
     max_align_log2 aligned_alloc free).
Local Abbreviation run :=
  (MemoryManager.run block_size small_begin medium_begin large_begin stack_begin
     max_align_log2 aligned_alloc free).
Local Abbreviation class_storage :=
  (MemoryExt.class_storage block_size small_begin medium_begin large_begin).
Local Abbreviation guard_scope := (MemoryExt.guard_scope max_align_log2 stack_begin).

(** [allocate] written out for each size class. *)
Lemma allocate_small (m : t) (h : Heap) (size alignment : Z) :
  (size <= 64)%Z ->
  allocate m h size alignment
  = (let '(ptr, p) := MemoryPool.allocate small_size block_size small_begin
                        (small_object_pool_ m) in
     if (ptr =? nullptr)%Z then (ptr, set_small m p, h)
     else (ptr, update_statistics (set_small m p) size true, h)).
Proof.
  intros Hs. unfold MemoryManager.allocate.
  destruct (Z.leb_spec size 64); [|lia].
  by destruct (MemoryPool.allocate _ _ _ _).
Qed.

Lemma allocate_medium (m : t) (h : Heap) (size alignment : Z) :
  (64 < size <= 512)%Z ->
  allocate m h size alignment
  = (let '(ptr, p) := MemoryPool.allocate medium_size block_size medium_begin
                        (medium_object_pool_ m) in
     if (ptr =? nullptr)%Z then (ptr, set_medium m p, h)
     else (ptr, update_statistics (set_medium m p) size true, h)).
Proof.
  intros Hs. unfold MemoryManager.allocate.
  destruct (Z.leb_spec size 64); [lia|]. destruct (Z.leb_spec size 512); [|lia].
  by destruct (MemoryPool.allocate _ _ _ _).
Qed.

Lemma allocate_large (m : t) (h : Heap) (size alignment : Z) :
  (512 < size <= 4096)%Z ->
  allocate m h size alignment
  = (let '(ptr, p) := MemoryPool.allocate large_size block_size large_begin
                        (large_object_pool_ m) in
     if (ptr =? nullptr)%Z then (ptr, set_large m p, h)
     else (ptr, update_statistics (set_large m p) size true, h)).
Proof.
  intros Hs. unfold MemoryManager.allocate.
  destruct (Z.leb_spec size 64); [lia|]. destruct (Z.leb_spec size 512); [lia|].
  destruct (Z.leb_spec size 4096); [|lia].
  by destruct (MemoryPool.allocate _ _ _ _).
Qed.

Lemma allocate_huge (m : t) (h : Heap) (size alignment : Z) :
  (4096 < size)%Z ->
  allocate m h size alignment
  = (let '(ptr, h') := aligned_alloc h alignment size in
     if (ptr =? nullptr)%Z then (ptr, m, h')
     else (ptr, update_statistics m size true, h')).
Proof.
  intros Hs. unfold MemoryManager.allocate.
  destruct (Z.leb_spec size 64); [lia|]. destruct (Z.leb_spec size 512); [lia|].
  destruct (Z.leb_spec size 4096); [lia|].
  by destruct (aligned_alloc h alignment size).
Qed.

(** X12. What a call of allocate does to the statistics. When it returns
    a non-null pointer, total_allocated grows by size (modulo 2^64), the
    histogram entry of size grows by one and no other entry changes, and
    peak_usage becomes the larger of its old value and the value
    total_allocated had before the call. When it returns null, the three
    are unchanged. total_deallocated is never touched. *)
Theorem allocate_statistics (m : t) (h : Heap) (size alignment : Z) :
  let ptr := fst (fst (allocate m h size alignment)) in
  let m' := snd (fst (allocate m h size alignment)) in
  (ptr <> nullptr ->
   total_allocated_ m' = wrap64 (total_allocated_ m + size) /\
   peak_usage_ m' = Z.max (peak_usage_ m) (total_allocated_ m) /\
   allocation_histogram_ m' !! size
   = Some (wrap64 (default 0%Z (allocation_histogram_ m !! size) + 1)) /\
   (forall k, k <> size ->
              allocation_histogram_ m' !! k = allocation_histogram_ m !! k)) /\
  (ptr = nullptr ->
   total_allocated_ m' = total_allocated_ m /\
   peak_usage_ m' = peak_usage_ m /\
   allocation_histogram_ m' = allocation_histogram_ m) /\
  total_deallocated_ m' = total_deallocated_ m.
Proof.
  assert (Hmax : forall a b : Z, (if (a <? b)%Z then b else a) = Z.max a b).
  { intros a b. destruct (Z.ltb_spec a b); lia. }
  cbv zeta.
  destruct (size_class size) as [Hc | [Hc | [Hc | Hc]]];
    [rewrite allocate_small by done; destruct (MemoryPool.allocate _ _ _ _) as [ptr p]
    |rewrite allocate_medium by done; destruct (MemoryPool.allocate _ _ _ _) as [ptr p]
    |rewrite allocate_large by done; destruct (MemoryPool.allocate _ _ _ _) as [ptr p]
    |rewrite allocate_huge by done; destruct (aligned_alloc _ _ _) as [ptr h']];
    destruct (Z.eqb_spec ptr nullptr) as [E|E]; simpl;
    (split; [intros Hnn | split; [intros Hn | done]]); try done;
    rewrite Hmax; repeat split; try done;
    try apply lookup_insert_eq; intros k Hk; by apply lookup_insert_ne.
Qed.

(** X13. peak_usage never goes down, whatever calls are made. *)
Theorem peak_usage_monotone (st : t * Heap) (ops : list op) :
  (peak_usage_ (fst st) <= peak_usage_ (fst (foldl step st ops)))%Z.
Proof.
  revert st. induction ops as [|o ops IH]; intros st; simpl; [lia|].
  etransitivity; [|apply IH]. destruct st as [m h]. destruct o; simpl.
  - pose proof (allocate_statistics m h size alignment) as (Hok & Hnull & _).
    destruct (allocate m h size alignment) as [[ptr m'] h']. simpl in *.
    destruct (Z.eq_dec ptr nullptr) as [E|E].
    + destruct (Hnull E) as (_ & -> & _). lia.
    + destruct (Hok E) as (_ & -> & _). lia.
  - unfold MemoryManager.deallocate.
    destruct (ptr =? nullptr)%Z; simpl; [lia|].
    destruct (size <=? 64)%Z; [|destruct (size <=? 512)%Z; [|destruct (size <=? 4096)%Z]];
      simpl; lia.
  - unfold allocate_temp. destruct (StackAllocator.allocate _ _ _ _ _ _). simpl. lia.
  - simpl. lia.
Qed.

(** X14. A TempAllocatorGuard that is destroyed leaves the temp stack
    empty, whatever it held before the guard was made, and nothing done
    through the guard touches the pools or the allocation statistics. *)
Theorem guard_scope_resets_stack (m : t) (requests : list (Z * Z)) :
  stack_usage (get_stats (guard_scope m requests)) = 0%Z /\
  small_object_pool_ (guard_scope m requests) = small_object_pool_ m /\
  medium_object_pool_ (guard_scope m requests) = medium_object_pool_ m /\
  large_object_pool_ (guard_scope m requests) = large_object_pool_ m /\
  total_allocated (get_stats (guard_scope m requests)) = total_allocated (get_stats m) /\
  total_deallocated (get_stats (guard_scope m requests))
  = total_deallocated (get_stats m) /\
  current_usage (get_stats (guard_scope m requests)) = current_usage (get_stats m) /\
  peak_usage (get_stats (guard_scope m requests)) = peak_usage (get_stats m).
Proof.
  unfold MemoryExt.guard_scope.
  assert (Hframe : forall (reqs : list (Z * Z)) (m0 : t),
            set_stack (foldl (fun m' r =>
                         snd (allocate_temp stack_begin max_align_log2 m' (fst r) (snd r)))
                       m0 reqs) StackAllocator.init
            = set_stack m0 StackAllocator.init).
  { induction reqs as [|r reqs IH]; intros m0; simpl; [done|].
    rewrite IH. unfold allocate_temp.
    by destruct (StackAllocator.allocate _ _ _ _ _ _). }
  unfold reset_temp, StackAllocator.reset.
  change {| StackAllocator.top_ := 0 |} with StackAllocator.init.
  rewrite Hframe. by repeat split.
Qed.

Hypothesis block_size_pos : (0 < block_size)%Z.

Lemma pools_counted_allocate (m : t) (h : Heap) (size alignment : Z) :
  pools_shaped m -> pools_counted m ->
  pools_counted (snd (fst (allocate m h size alignment))).
Proof.
  intros (Hs & Hm & Hl) (Cs & Cm & Cl).
  destruct pool_sizes_fit as (Fs & Fm & Fl).
  destruct (size_class size) as [Hc | [Hc | [Hc | Hc]]].
  - rewrite allocate_small by done.
    pose proof (MemoryPoolFacts.counted_allocate _ block_size small_begin Fs _ Hs Cs) as H.
    destruct (MemoryPool.allocate _ _ _ _) as [ptr p]. simpl in H.
    destruct (ptr =? nullptr)%Z; cbn [fst snd];
      [|apply pools_counted_update_statistics]; by repeat split.
  - rewrite allocate_medium by done.
    pose proof (MemoryPoolFacts.counted_allocate _ block_size medium_begin Fm _ Hm Cm) as H.
    destruct (MemoryPool.allocate _ _ _ _) as [ptr p]. simpl in H.
    destruct (ptr =? nullptr)%Z; cbn [fst snd];
      [|apply pools_counted_update_statistics]; by repeat split.
  - rewrite allocate_large by done.
    pose proof (MemoryPoolFacts.counted_allocate _ block_size large_begin Fl _ Hl Cl) as H.
    destruct (MemoryPool.allocate _ _ _ _) as [ptr p]. simpl in H.
    destruct (ptr =? nullptr)%Z; cbn [fst snd];
      [|apply pools_counted_update_statistics]; by repeat split.
  - rewrite allocate_huge by done.
    destruct (aligned_alloc h alignment size) as [ptr h'].
    destruct (ptr =? nullptr)%Z; cbn [fst snd];
      [|apply pools_counted_update_statistics]; by repeat split.
Qed.

Lemma pools_counted_deallocate (m : t) (h : Heap) (ptr size : Z) :
  pools_shaped m -> pools_counted m ->
  pools_counted (fst (deallocate m h ptr size)).
Proof.
  intros (Hs & Hm & Hl) (Cs & Cm & Cl).
  destruct pool_sizes_fit as (Fs & Fm & Fl).
  unfold MemoryManager.deallocate.
  destruct (ptr =? nullptr)%Z; [by repeat split|].
  destruct (size <=? 64)%Z; [|destruct (size <=? 512)%Z; [|destruct (size <=? 4096)%Z]];
    unfold pools_counted; simpl; (split; [|split]);
    try assumption; by apply MemoryPoolFacts.counted_deallocate.
Qed.

Lemma pools_counted_run (ops : list op) (h : Heap) :
  pools_shaped (fst (run ops h)) /\ pools_counted (fst (run ops h)).
Proof.
  unfold MemoryManager.run.
  assert (Hinit : pools_shaped (fst (init, h)) /\ pools_counted (fst (init, h))).
  { split.
    - repeat split; simpl; try apply length_replicate; lia.
    - repeat split; apply MemoryPoolFacts.counted_init. }
  revert Hinit. generalize (init, h).
  induction ops as [|o ops IH]; intros st Hst; simpl; [done|].
  apply IH. destruct Hst as [Hs Hc]. split.
  { by apply pools_shaped_step. }
  destruct st as [m h0]. simpl in *. destruct o; simpl.
  - pose proof (pools_counted_allocate m h0 size alignment Hs Hc) as H.
    by destruct (allocate m h0 size alignment) as [[ptr m'] h'].
  - by apply pools_counted_deallocate.
  - unfold allocate_temp. by destruct (StackAllocator.allocate _ _ _ _ _ _).
  - done.
Qed.

(** X15. On a manager reached by any sequence of calls, a request of at
    most 4096 bytes is served by the pool of its size class alone: the
    heap, the temp stack, total_deallocated and the two other pools are
    unchanged, and a non-null result lies inside that pool's storage. *)
Theorem allocate_stays_in_class (ops : list op) (h0 : Heap) (size alignment : Z) :
  (size <= 4096)%Z ->
  let m := fst (run ops h0) in
  let h := snd (run ops h0) in
  let ptr := fst (fst (allocate m h size alignment)) in
  let m' := snd (fst (allocate m h size alignment)) in
  snd (allocate m h size alignment) = h /\
  stack_allocator_ m' = stack_allocator_ m /\
  ((64 < size)%Z -> small_object_pool_ m' = small_object_pool_ m) /\
  ((size <= 64)%Z \/ (512 < size)%Z ->
   medium_object_pool_ m' = medium_object_pool_ m) /\
  ((size <= 512)%Z -> large_object_pool_ m' = large_object_pool_ m) /\
  (ptr <> nullptr ->
   exists b e, class_storage size = Some (b, e) /\ (b <= ptr < e)%Z).
Proof.
  intros Hsz. pose proof (pools_shaped_run block_size small_begin medium_begin
                            large_begin stack_begin max_align_log2 aligned_alloc
                            free ops h0) as (Hs & Hm & Hl).
  cbv zeta. destruct (run ops h0) as [m h]. simpl in *.
  unfold MemoryExt.class_storage.
  destruct (size_class size) as [Hc | [Hc | [Hc | Hc]]]; [| | |lia].
  - rewrite allocate_small by done.
    destruct (MemoryPoolFacts.allocate_cases _ block_size small_begin _ Hs)
      as [(slot & Hlt & _ & Hptr & _) | [Hnull _]].
    + destruct (MemoryPool.allocate _ _ _ _) as [ptr p]. simpl in Hptr. subst ptr.
      destruct (Z.leb_spec size 64); [|lia].
      destruct (_ =? nullptr)%Z; simpl; repeat split; try done; try lia;
        intros _; eexists _, _; (split; [done|]);
        by apply PoolLaws.slot_address_in_storage.
    + rewrite Hnull. simpl. repeat split; try done; lia.
  - rewrite allocate_medium by done.
    destruct (MemoryPoolFacts.allocate_cases _ block_size medium_begin _ Hm)
      as [(slot & Hlt & _ & Hptr & _) | [Hnull _]].
    + destruct (MemoryPool.allocate _ _ _ _) as [ptr p]. simpl in Hptr. subst ptr.
      destruct (Z.leb_spec size 64); [lia|]. destruct (Z.leb_spec size 512); [|lia].
      destruct (_ =? nullptr)%Z; simpl; repeat split; try done; try lia;
        intros _; eexists _, _; (split; [done|]);
        by apply PoolLaws.slot_address_in_storage.
    + rewrite Hnull. simpl. repeat split; try done; lia.
  - rewrite allocate_large by done.
    destruct (MemoryPoolFacts.allocate_cases _ block_size large_begin _ Hl)
      as [(slot & Hlt & _ & Hptr & _) | [Hnull _]].
    + destruct (MemoryPool.allocate _ _ _ _) as [ptr p]. simpl in Hptr. subst ptr.
      destruct (Z.leb_spec size 64); [lia|]. destruct (Z.leb_spec size 512); [lia|].
      destruct (Z.leb_spec size 4096); [|lia].
      destruct (_ =? nullptr)%Z; simpl; repeat split; try done; try lia;
        intros _; eexists _, _; (split; [done|]);
        by apply PoolLaws.slot_address_in_storage.
    + rewrite Hnull. simpl. repeat split; try done; lia.
Qed.

(** Closes the goals left by [allocate_then_deallocate_same_size] once the
    pool of the class has been put back. *)
Ltac round_trip Hrt :=
  unfold MemoryManager.deallocate;
  match goal with
  | |- context [(?p =? nullptr)%Z] =>
      destruct (Z.eqb_spec p nullptr) as [?|_]; [done|]
  end;
  repeat match goal with
         | |- context [(?a <=? ?b)%Z] => destruct (Z.leb_spec a b); try lia
         end;
  simpl; destruct Hrt as [Hu Ha]; [done|];
  unfold MemoryPool.allocated in *;
  repeat split; try done; apply wrap64_add_sub.

(** X16. On a manager reached by any sequence of calls, a request of at
    most 4096 bytes that succeeds, followed by deallocate of the returned
    pointer with the same size, puts the bitmap and the allocated count
    of every pool, the heap and current_usage back to what they were. *)
Theorem allocate_then_deallocate_same_size (ops : list op) (h0 : Heap)
  (size alignment : Z) :
  (size <= 4096)%Z ->
  let m := fst (run ops h0) in
  let h := snd (run ops h0) in
  let ptr := fst (fst (allocate m h size alignment)) in
  let m1 := snd (fst (allocate m h size alignment)) in
  let h1 := snd (allocate m h size alignment) in
  let m2 := fst (deallocate m1 h1 ptr size) in
  ptr <> nullptr ->
  (MemoryPool.used_ (small_object_pool_ m2) = MemoryPool.used_ (small_object_pool_ m) /\
   MemoryPool.allocated (small_object_pool_ m2)
   = MemoryPool.allocated (small_object_pool_ m)) /\
  (MemoryPool.used_ (medium_object_pool_ m2) = MemoryPool.used_ (medium_object_pool_ m) /\
   MemoryPool.allocated (medium_object_pool_ m2)
   = MemoryPool.allocated (medium_object_pool_ m)) /\
  (MemoryPool.used_ (large_object_pool_ m2) = MemoryPool.used_ (large_object_pool_ m) /\
   MemoryPool.allocated (large_object_pool_ m2)
   = MemoryPool.allocated (large_object_pool_ m)) /\
  snd (deallocate m1 h1 ptr size) = h /\
  current_usage (get_stats m2) = current_usage (get_stats m).
Proof.
  intros Hsz. destruct (pools_counted_run ops h0) as [(Hs & Hm & Hl) (Cs & Cm & Cl)].
  destruct pool_sizes_fit as (Fs & Fm & Fl).
  cbv zeta. destruct (run ops h0) as [m h]. simpl in *.
  destruct (size_class size) as [Hc | [Hc | [Hc | Hc]]]; [| | |lia].
  - rewrite allocate_small by done.
    pose proof (PoolLaws.allocate_deallocate_state small_size block_size small_begin
                  block_size_pos _ Fs Hs Cs) as Hrt.
    destruct (MemoryPool.allocate _ _ _ _) as [ptr p]. simpl in Hrt.
    destruct (Z.eqb_spec ptr nullptr) as [E|E]; simpl; [done|]. intros _.
    round_trip Hrt.
  - rewrite allocate_medium by done.
    pose proof (PoolLaws.allocate_deallocate_state medium_size block_size medium_begin
                  block_size_pos _ Fm Hm Cm) as Hrt.
    destruct (MemoryPool.allocate _ _ _ _) as [ptr p]. simpl in Hrt.
    destruct (Z.eqb_spec ptr nullptr) as [E|E]; simpl; [done|]. intros _.
    round_trip Hrt.
  - rewrite allocate_large by done.
    pose proof (PoolLaws.allocate_deallocate_state large_size block_size large_begin
                  block_size_pos _ Fl Hl Cl) as Hrt.
    destruct (MemoryPool.allocate _ _ _ _) as [ptr p]. simpl in Hrt.
    destruct (Z.eqb_spec ptr nullptr) as [E|E]; simpl; [done|]. intros _.
    round_trip Hrt.
Qed.

End Laws.

(** X15, instance: a request of 100 bytes on a fresh manager. *)
Lemma allocate_stays_in_class_witness :
  (0 < Testbed.block_size)%Z /\ (100 <= 4096)%Z /\
  fst (fst (Testbed.manager_allocate (fst (Testbed.manager_run []))
              (snd (Testbed.manager_run [])) 100 16)) = Testbed.medium_begin /\
  small_object_pool_
    (snd (fst (Testbed.manager_allocate (fst (Testbed.manager_run []))
                 (snd (Testbed.manager_run [])) 100 16)))
  = small_object_pool_ (fst (Testbed.manager_run [])).
Proof.
  assert (H1 : (0 < Testbed.block_size)%Z) by reflexivity.
  assert (H2 : (100 <= 4096)%Z) by lia.
  pose proof (allocate_stays_in_class Testbed.block_size Testbed.small_begin
                Testbed.medium_begin Testbed.large_begin Testbed.stack_begin
                Testbed.max_align_log2 Testbed.aligned_alloc Testbed.free H1
                [] 1048576%Z 100 16 H2) as (_ & _ & Hsmall & _).
  split; [exact H1|]. split; [exact H2|]. split; [vm_compute; reflexivity|].
  apply Hsmall. lia.
Defined.

(** X16, instance: 100 bytes allocated on a fresh manager and given back. *)
Lemma allocate_then_deallocate_same_size_witness :
  let m := fst (Testbed.manager_run []) in
  let h := snd (Testbed.manager_run []) in
  let ptr := fst (fst (Testbed.manager_allocate m h 100 16)) in
  let m1 := snd (fst (Testbed.manager_allocate m h 100 16)) in
  let h1 := snd (Testbed.manager_allocate m h 100 16) in
  (0 < Testbed.block_size)%Z /\ (100 <= 4096)%Z /\ ptr <> nullptr /\
  current_usage (get_stats (fst (Testbed.manager_deallocate m1 h1 ptr 100)))
  = current_usage (get_stats m).
Proof.
  intros m h ptr m1 h1.
  assert (H1 : (0 < Testbed.block_size)%Z) by reflexivity.
  assert (H2 : (100 <= 4096)%Z) by lia.
  assert (H3 : ptr <> nullptr) by (vm_compute; discriminate).
  split; [exact H1|]. split; [exact H2|]. split; [exact H3|].
  exact (proj2 (proj2 (proj2 (proj2
           (allocate_then_deallocate_same_size Testbed.block_size Testbed.small_begin
              Testbed.medium_begin Testbed.large_begin Testbed.stack_begin
              Testbed.max_align_log2 Testbed.aligned_alloc Testbed.free H1
              [] 1048576%Z 100 16 H2 H3))))).
Defined.

End ManagerLaws.

(** ** ProcessHandle, ProcessIO and ManagedProcess *)

Module ProcessLaws.

Import Shell ShellExt.

#[local] Opaque BUFFER_SIZE.

Lemma string_of_list_ascii_app (a b : list ascii) :
  String.string_of_list_ascii (a ++ b)
  = String.string_of_list_ascii a +:+ String.string_of_list_ascii b.
Proof.
  induction a as [|c a IH]; simpl; [done | by rewrite IH].
Qed.

Lemma append_empty_r (s : string) : s +:+ "" = s.
Proof.
  induction s as [|c s IH]; [done|].
  change (String c (s +:+ "") = String c s). by rewrite IH.
Qed.

Lemma append_assoc (a b c : string) : (a +:+ b) +:+ c = a +:+ (b +:+ c).
Proof.
  induction a as [|x a IH]; [done|].
  change (String x ((a +:+ b) +:+ c) = String x (a +:+ (b +:+ c))).
  by rewrite IH.
Qed.

(** X17. close() hands to ::close exactly the descriptors of the handle
    that are not negative, leaves all three negative and the pid as it
    was, and a second close() closes nothing. *)
Theorem close_closes_once (h : ProcessHandle) :
  let h' := fst (ProcessHandle_close h) in
  (forall fd, fd ∈ snd (ProcessHandle_close h) <->
              (0 <= fd)%Z /\ fd ∈ [stdin_fd h; stdout_fd h; stderr_fd h]) /\
  (stdin_fd h' < 0)%Z /\ (stdout_fd h' < 0)%Z /\ (stderr_fd h' < 0)%Z /\
  handle_pid h' = handle_pid h /\
  ProcessHandle_close h' = (h', []).
Proof.
  unfold ProcessHandle_close.
  destruct (Z.leb_spec 0 (stdin_fd h)) as [H1|H1];
    destruct (Z.leb_spec 0 (stdout_fd h)) as [H2|H2];
    destruct (Z.leb_spec 0 (stderr_fd h)) as [H3|H3]; simpl;
    repeat match goal with
           | |- context [(0 <=? ?x)%Z] => destruct (Z.leb_spec 0 x); try lia
           end;
    (split; [|repeat split; (lia || done)]);
    intros fd; rewrite ?elem_of_cons, ?elem_of_nil; split;
    intros; destruct_and?; destruct_or?; subst; try lia; tauto.
Qed.

(** What [append_buffer] returns on an array that holds its content. *)
Lemma append_buffer_spec (buffer : list ascii) (used : nat) (data : list ascii) :
  BUFFER_SIZE <= length buffer -> used <= length buffer ->
  snd (append_buffer buffer used data) = used + length data /\
  BUFFER_SIZE <= length (fst (append_buffer buffer used data)) /\
  used + length data <= length (fst (append_buffer buffer used data)) /\
  take (used + length data) (fst (append_buffer buffer used data))
  = take used buffer ++ data.
Proof.
  intros Hcap Hused. unfold append_buffer. cbn [fst snd].
  set (b1 := if (BUFFER_SIZE <? used + length data)%nat then _ else buffer).
  assert (Hb1 : used + length data <= length b1 /\ BUFFER_SIZE <= length b1 /\
                take used b1 = take used buffer).
  { subst b1. destruct (Nat.ltb_spec BUFFER_SIZE (used + length data)) as [Hbig|Hfit].
    - rewrite length_app, length_take, length_replicate.
      rewrite take_app_length' by (rewrite length_take; lia).
      repeat split; try done; lia.
    - repeat split; try done; lia. }
  destruct Hb1 as (Hlen & Hcap1 & Htake).
  rewrite !length_app, length_take, length_drop.
  repeat split; try lia.
  rewrite app_assoc, take_app_length'; [by rewrite Htake|].
  rewrite length_app, length_take. lia.
Qed.

Lemma io_ok_new : io_ok ProcessIO_new.
Proof.
  unfold io_ok, ProcessIO_new. simpl. rewrite !length_replicate. lia.
Qed.

(** The invariant carried along a run: the arrays hold their content, and
    the content is what was written since the last clear. *)
Lemma io_step_written (io : ProcessIO) (w : list ascii * list ascii) (o : io_op) :
  io_ok io ->
  take (stdout_size_ io) (stdout_buffer_ io) = fst w ->
  take (stderr_size_ io) (stderr_buffer_ io) = snd w ->
  io_ok (io_step io o) /\
  take (stdout_size_ (io_step io o)) (stdout_buffer_ (io_step io o))
  = fst (written_step w o) /\
  take (stderr_size_ (io_step io o)) (stderr_buffer_ (io_step io o))
  = snd (written_step w o).
Proof.
  intros (C1 & U1 & C2 & U2) Hout Herr.
  destruct o as [data|data|]; cbn [io_step written_step].
  - destruct (append_buffer_spec (stdout_buffer_ io) (stdout_size_ io) data C1 U1)
      as (Hn & Hc & Hu & Ht).
    unfold appendStdout. destruct (append_buffer _ _ _) as [b n]. simpl in *. subst n.
    unfold io_ok. simpl. rewrite Ht, Hout. repeat split; done.
  - destruct (append_buffer_spec (stderr_buffer_ io) (stderr_size_ io) data C2 U2)
      as (Hn & Hc & Hu & Ht).
    unfold appendStderr. destruct (append_buffer _ _ _) as [b n]. simpl in *. subst n.
    unfold io_ok. simpl. rewrite Ht, Herr. repeat split; done.
  - unfold io_ok. simpl. repeat split; (done || lia).
Qed.

Lemma io_run_written (ops : list io_op) :
  io_ok (io_run ops) /\
  take (stdout_size_ (io_run ops)) (stdout_buffer_ (io_run ops)) = fst (written ops) /\
  take (stderr_size_ (io_run ops)) (stderr_buffer_ (io_run ops)) = snd (written ops).
Proof.
  unfold io_run, written.
  assert (Hinit : io_ok ProcessIO_new /\
                  take (stdout_size_ ProcessIO_new) (stdout_buffer_ ProcessIO_new)
                  = fst (([] , []) : list ascii * list ascii) /\
                  take (stderr_size_ ProcessIO_new) (stderr_buffer_ ProcessIO_new)
                  = snd (([] , []) : list ascii * list ascii)).
  { split; [apply io_ok_new | done]. }
  revert Hinit. generalize ProcessIO_new. generalize (([], []) : list ascii * list ascii).
  induction ops as [|o ops IH]; intros w io Hinv; simpl; [done|].
  apply IH. destruct Hinv as (Hok & Hout & Herr). by apply io_step_written.
Qed.

(** X18. After any sequence of appendStdout, appendStderr and clear calls
    on a new ProcessIO, however large the appended chunks, getStdout and
    getStderr return exactly the bytes appended to their stream since the
    last clear, in order; getAllOutput returns the stdout bytes followed
    by the stderr bytes, whatever the order the appends came in; the two
    sizes are the two lengths; and hasData holds exactly when one of the
    two is not empty. *)
Theorem output_is_what_was_appended (ops : list io_op) :
  getStdout (io_run ops) = String.string_of_list_ascii (fst (written ops)) /\
  getStderr (io_run ops) = String.string_of_list_ascii (snd (written ops)) /\
  getAllOutput (io_run ops)
  = String.string_of_list_ascii (fst (written ops) ++ snd (written ops)) /\
  getStdoutSize (io_run ops) = length (fst (written ops)) /\
  getStderrSize (io_run ops) = length (snd (written ops)) /\
  (hasData (io_run ops) = true <-> fst (written ops) ++ snd (written ops) <> []).
Proof.
  destruct (io_run_written ops) as ((C1 & U1 & C2 & U2) & Hout & Herr).
  unfold getStdout, getStderr, getAllOutput, getStdoutSize, getStderrSize, hasData.
  rewrite string_of_list_ascii_app, Hout, Herr.
  assert (L1 : stdout_size_ (io_run ops) = length (fst (written ops))).
  { rewrite <- Hout, length_take. lia. }
  assert (L2 : stderr_size_ (io_run ops) = length (snd (written ops))).
  { rewrite <- Herr, length_take. lia. }
  repeat split; try done.
  - rewrite L1, L2. intros Hd Hnil. apply app_eq_nil in Hnil as [H1 H2].
    rewrite H1, H2 in Hd. done.
  - rewrite L1, L2. intros Hne.
    destruct (fst (written ops)); [|done]. destruct (snd (written ops)); done.
Qed.

Section Laws.

Context {OS : Type}.
Variable now : OS -> Z.
Variable sys_kill : Z -> Z -> OS -> Z * OS.
Variable sys_write : Z -> string -> OS -> Z * OS.
Variable SIGSTOP : Z.
Variable SIGCONT : Z.
Context {OutputCallback : Type}.
Context {CompletionCallback : Type}.
Variable sys_select : list Z -> OS -> list Z * OS.
Variable sys_read : Z -> nat -> OS -> list ascii * OS.
Variable sys_waitpid : Z -> OS -> option WaitStatus * OS.

Local Abbreviation Process := (@ManagedProcess OutputCallback CompletionCallback).
Local Abbreviation terminate := (Shell.terminate now sys_kill).
Local Abbreviation suspend := (ShellExt.suspend sys_kill SIGSTOP).
Local Abbreviation resume := (ShellExt.resume sys_kill SIGCONT).
Local Abbreviation sendInput := (ShellExt.sendInput sys_write).
Local Abbreviation ioThreadIteration :=
  (ShellExt.ioThreadIteration now sys_select sys_read sys_waitpid).
Local Abbreviation process_step :=
  (ShellExt.process_step (OutputCallback := OutputCallback)
     (CompletionCallback := CompletionCallback) now sys_kill sys_write
     SIGSTOP SIGCONT sys_select sys_read sys_waitpid).
Local Abbreviation process_run :=
  (ShellExt.process_run (OutputCallback := OutputCallback)
     (CompletionCallback := CompletionCallback) now sys_kill sys_write
     SIGSTOP SIGCONT sys_select sys_read sys_waitpid).

(** Every call fails without reaching the system on a process whose
    handle is the one the constructor makes. *)
Lemma unspawned_step (p : Process) (os : OS) (o : process_op) :
  handle_ p = ProcessHandle_new ->
  state (info_ p) = NotStarted \/ state (info_ p) = Running ->
  handle_ (fst (process_step (p, os) o)) = ProcessHandle_new /\
  (state (info_ (fst (process_step (p, os) o))) = NotStarted \/
   state (info_ (fst (process_step (p, os) o))) = Running) /\
  snd (process_step (p, os) o) = os.
Proof.
  intros Hh Hst. destruct o; simpl.
  - unfold start. destruct (running_ p); simpl; auto.
  - unfold Shell.terminate. rewrite Hh. simpl. destruct (running_ p); simpl; auto.
  - unfold ShellExt.suspend. rewrite Hh. simpl. destruct (running_ p); simpl; auto.
  - unfold ShellExt.resume. rewrite Hh. simpl.
    destruct Hst as [Hst|Hst]; rewrite Hst; simpl; rewrite ?Hst; auto.
  - unfold ShellExt.sendInput. rewrite Hh. simpl. destruct (running_ p); simpl; auto.
  - unfold readOutput. by repeat case_match.
  - auto.
  - auto.
  - unfold ShellExt.ioThreadIteration. rewrite Hh. simpl.
    destruct (io_thread_active_ p); simpl; auto.
Qed.

Lemma unspawned_run (ops : list process_op) (p : Process) (os : OS) :
  handle_ p = ProcessHandle_new ->
  state (info_ p) = NotStarted \/ state (info_ p) = Running ->
  handle_ (fst (process_run p os ops)) = ProcessHandle_new /\
  (state (info_ (fst (process_run p os ops))) = NotStarted \/
   state (info_ (fst (process_run p os ops))) = Running) /\
  snd (process_run p os ops) = os.
Proof.
  unfold ShellExt.process_run. revert p.
  induction ops as [|o ops IH]; intros p Hh Hst; [done|].
  cbn [foldl]. destruct (unspawned_step p os o Hh Hst) as (Hh' & Hst' & Hos').
  destruct (process_step (p, os) o) as [p' os']. simpl in *. subst os'.
  by apply IH.
Qed.




(** X19. A ManagedProcess made by its constructor keeps the handle the
    constructor gave it (pid and descriptors -1) through every sequence of
    start, terminate, suspend, resume, sendInput, readOutput, callback
    setters and I/O thread passes, and none of them reaches the system.
    So it never completes, and once it runs, terminate (forced or not),
    suspend and sendInput return false and change nothing; resume always
    returns false. *)
Theorem constructed_process_never_signalled (p0 : Z) (cmd : string)
  (args : list string) (t : Z) (os : OS) (ops : list process_op) :
  let st := process_run (ManagedProcess_new p0 cmd args t) os ops in
  handle_ (fst st) = ProcessHandle_new /\
  snd st = os /\
  isComplete (fst st) = false /\
  resume (fst st) os = (false, fst st, os) /\
  (isRunning (fst st) = true ->
   (forall force, terminate (fst st) force os = (false, fst st, os)) /\
   suspend (fst st) os = (false, fst st, os) /\
   (forall input, sendInput (fst st) input os = (false, fst st, os))).
Proof.
  cbv zeta.
  destruct (unspawned_run ops (ManagedProcess_new p0 cmd args t) os)
    as (Hh & Hst & Hos); [done | by left |].
  destruct (process_run _ os ops) as [p os1]. simpl in *. subst os1.
  unfold isComplete, isRunning, Shell.terminate, ShellExt.suspend,
    ShellExt.resume, ShellExt.sendInput. rewrite Hh. simpl.
  split; [done|]. split; [done|].
  split; [by destruct Hst as [-> | ->]|].
  split; [by destruct Hst as [-> | ->]|].
  intros Hrun. rewrite Hrun. simpl. by repeat split.
Qed.

(** X20. A terminate that returns true leaves the process not running;
    if it was running before, its state is Terminated and it is
    complete; and any further terminate returns true without a signal
    and without changing anything. A terminate that returns false leaves
    the process as it was. *)
Theorem terminate_settles (p : Process) (force : bool) (os : OS) :
  let p' := snd (fst (terminate p force os)) in
  let os' := snd (terminate p force os) in
  (fst (fst (terminate p force os)) = true ->
   isRunning p' = false /\
   (isRunning p = true -> state (info_ p') = Terminated /\ isComplete p' = true) /\
   (forall force2, terminate p' force2 os' = (true, p', os'))) /\
  (fst (fst (terminate p force os)) = false -> p' = p /\ isRunning p = true).
Proof.
  cbv zeta. unfold Shell.terminate, isRunning, isComplete.
  destruct (running_ p) eqn:Hr; simpl.
  - destruct (0 <? handle_pid (handle_ p))%Z; simpl.
    + destruct (sys_kill _ _ os) as [rc os1]. destruct (rc =? 0)%Z; simpl.
      * split; [|done]. intros _. repeat split; done.
      * split; [done|]. by intros _.
    + split; [done|]. by intros _.
  - split; [|done]. intros _. rewrite Hr. repeat split; done.
Qed.

(** X21. suspend succeeds only on a running process and leaves it in
    state Suspended with isRunning still true; resume succeeds only on a
    Suspended process; and a suspend followed by a resume, both
    successful, gives back the process with state Running and nothing
    else changed. *)
Theorem suspend_then_resume (p : Process) (os : OS) :
  let p1 := snd (fst (suspend p os)) in
  let os1 := snd (suspend p os) in
  let p2 := snd (fst (resume p1 os1)) in
  (fst (fst (suspend p os)) = true ->
   isRunning p = true /\ state (info_ p1) = Suspended /\ isRunning p1 = true /\
   (fst (fst (resume p1 os1)) = true -> p2 = with_state p Running)) /\
  (fst (fst (suspend p os)) = false -> p1 = p) /\
  (state (info_ p) <> Suspended -> resume p os = (false, p, os)).
Proof.
  cbv zeta. unfold ShellExt.suspend, ShellExt.resume, isRunning.
  split; [|split].
  - destruct (running_ p) eqn:Hr; simpl; [|done].
    destruct (0 <? handle_pid (handle_ p))%Z eqn:Hp; simpl; [|done].
    destruct (sys_kill _ SIGSTOP os) as [rc os1]. destruct (rc =? 0)%Z; simpl; [|done].
    intros _. rewrite Hp. repeat split; try done.
    destruct (sys_kill _ SIGCONT os1) as [rc2 os2]. destruct (rc2 =? 0)%Z; simpl; [|done].
    intros _. unfold with_state, set_state. simpl. done.
  - destruct (running_ p); simpl; [|done].
    destruct (0 <? handle_pid (handle_ p))%Z; simpl; [|done].
    destruct (sys_kill _ SIGSTOP os) as [rc os1]. by destruct (rc =? 0)%Z.
  - intros Hns. by destruct (state (info_ p)).
Qed.

(** X22. A pass of the I/O thread never loses buffered output: on a
    process whose buffers hold their content, what getStdout and
    getStderr returned before is a prefix of what they return after, and
    the handle is unchanged. When the pass lets the loop go on, the
    ProcessInfo and isRunning are unchanged; when it ends the loop,
    isRunning is false. *)
Theorem io_thread_pass_appends (p : Process) (os : OS) :
  io_ok (io_ p) ->
  let p' := fst (fst (ioThreadIteration p os)) in
  handle_ p' = handle_ p /\
  io_ok (io_ p') /\
  (exists more, getStdout (io_ p') = getStdout (io_ p) +:+ more) /\
  (exists more, getStderr (io_ p') = getStderr (io_ p) +:+ more) /\
  (snd (ioThreadIteration p os) = true ->
   info_ p' = info_ p /\ isRunning p' = isRunning p) /\
  (snd (ioThreadIteration p os) = false -> isRunning p' = false).
Proof.
  intros Hok. cbv zeta.
  assert (Hread : forall fd ready (q : Process) (o : OS) is_err,
            io_ok (io_ q) ->
            let q' := fst (read_ready sys_read fd ready
                             (if is_err : bool then appendStderr else appendStdout) q o) in
            handle_ q' = handle_ q /\ info_ q' = info_ q /\ running_ q' = running_ q /\
            io_ok (io_ q') /\
            (exists more, getStdout (io_ q') = getStdout (io_ q) +:+ more) /\
            (exists more, getStderr (io_ q') = getStderr (io_ q) +:+ more)).
  { intros fd ready q o is_err Hq. cbv zeta. unfold read_ready.
    assert (Hsame : handle_ q = handle_ q /\ info_ q = info_ q /\
                    running_ q = running_ q /\ io_ok (io_ q) /\
                    (exists more, getStdout (io_ q) = getStdout (io_ q) +:+ more) /\
                    (exists more, getStderr (io_ q) = getStderr (io_ q) +:+ more)).
    { split; [done|]. split; [done|]. split; [done|]. split; [done|].
      split; exists ""; symmetry; apply append_empty_r. }
    destruct ((0 <=? fd)%Z && bool_decide (fd ∈ ready)); [|done].
    destruct (sys_read fd 4096 o) as [[|c data] o']; [done|]. simpl.
    destruct Hq as (C1 & U1 & C2 & U2).
    destruct is_err.
    - destruct (append_buffer_spec (stderr_buffer_ (io_ q)) (stderr_size_ (io_ q))
                  (c :: data) C2 U2) as (Hn & Hc & Hu & Ht).
      unfold appendStderr, getStdout, getStderr, io_ok.
      destruct (append_buffer _ _ _) as [b n]. cbn [fst snd] in *. subst n.
      cbn -[length take String.append].
      rewrite Ht, string_of_list_ascii_app.
      repeat split; try done; [|by eexists].
      destruct Hsame as (_ & _ & _ & _ & Ho & _). exact Ho.
    - destruct (append_buffer_spec (stdout_buffer_ (io_ q)) (stdout_size_ (io_ q))
                  (c :: data) C1 U1) as (Hn & Hc & Hu & Ht).
      unfold appendStdout, getStdout, getStderr, io_ok.
      destruct (append_buffer _ _ _) as [b n]. cbn [fst snd] in *. subst n.
      cbn -[length take String.append].
      rewrite Ht, string_of_list_ascii_app.
      repeat split; try done; [by eexists|].
      destruct Hsame as (_ & _ & _ & _ & _ & He). exact He. }
  unfold ShellExt.ioThreadIteration.
  assert (Hid : handle_ p = handle_ p /\ io_ok (io_ p) /\
                (exists more, getStdout (io_ p) = getStdout (io_ p) +:+ more) /\
                (exists more, getStderr (io_ p) = getStderr (io_ p) +:+ more)).
  { destruct (Hread 0%Z [] p os false Hok) as (_ & _ & _ & _ & Ho & He).
    unfold read_ready in Ho, He. simpl in Ho, He. done. }
  destruct (_ ++ _)%list as [|fd fds]; [simpl; by destruct Hid as (? & ? & ? & ?)|].
  destruct (sys_select _ os) as [ready os1].
  pose proof (Hread (stdout_fd (handle_ p)) ready p os1 false Hok) as H1.
  cbv zeta in H1. simpl in H1.
  destruct (read_ready sys_read (stdout_fd (handle_ p)) ready appendStdout p os1)
    as [p1 os2]. simpl in H1.
  destruct H1 as (Hh1 & Hi1 & Hr1 & Hok1 & [m1 Ho1] & [n1 He1]).
  pose proof (Hread (stderr_fd (handle_ p)) ready p1 os2 true Hok1) as H2.
  cbv zeta in H2. simpl in H2.
  destruct (read_ready sys_read (stderr_fd (handle_ p)) ready appendStderr p1 os2)
    as [p2 os3]. simpl in H2.
  destruct H2 as (Hh2 & Hi2 & Hr2 & Hok2 & [m2 Ho2] & [n2 He2]).
  assert (Hout : exists more, getStdout (io_ p2) = getStdout (io_ p) +:+ more).
  { exists (m1 +:+ m2). by rewrite Ho2, Ho1, append_assoc. }
  assert (Herr : exists more, getStderr (io_ p2) = getStderr (io_ p) +:+ more).
  { exists (n1 +:+ n2). by rewrite He2, He1, append_assoc. }
  unfold reap, isRunning.
  destruct (0 <? handle_pid (handle_ p2))%Z;
    [destruct (sys_waitpid _ os3) as [[status|] os4]|]; simpl.
  all: split; [congruence|]; split; [done|]; split; [done|]; split; [done|].
  all: split; intros Hflag; try done; split; congruence.
Qed.

End Laws.

(** X22, instance: a running child with the text hi ready on both pipes and
    exit status 0. *)
Lemma io_thread_pass_appends_witness :
  io_ok (io_ IoTestbed.child) /\
  (let p' := fst (fst (ShellExt.ioThreadIteration Testbed.now IoTestbed.sys_select
                         IoTestbed.sys_read IoTestbed.sys_waitpid
                         IoTestbed.child Testbed.os0)) in
   handle_ p' = handle_ IoTestbed.child /\
   io_ok (io_ p') /\
   (exists more, getStdout (io_ p') = getStdout (io_ IoTestbed.child) +:+ more) /\
   (exists more, getStderr (io_ p') = getStderr (io_ IoTestbed.child) +:+ more) /\
   (snd (ShellExt.ioThreadIteration Testbed.now IoTestbed.sys_select
           IoTestbed.sys_read IoTestbed.sys_waitpid
           IoTestbed.child Testbed.os0) = true ->
    info_ p' = info_ IoTestbed.child /\ isRunning p' = isRunning IoTestbed.child) /\
   (snd (ShellExt.ioThreadIteration Testbed.now IoTestbed.sys_select
           IoTestbed.sys_read IoTestbed.sys_waitpid
           IoTestbed.child Testbed.os0) = false -> isRunning p' = false)).
Proof.
  assert (H : io_ok (io_ IoTestbed.child)) by exact io_ok_new.
  split; [exact H|].
  exact (io_thread_pass_appends Testbed.now IoTestbed.sys_select IoTestbed.sys_read
           IoTestbed.sys_waitpid IoTestbed.child Testbed.os0 H).
Defined.

End ProcessLaws.

(** ** ShellImpl: launches, sessions, cleanup, shutdown and builtins *)

Module ShellLaws.

Import Shell ShellExt.

Local Open Scope string_scope.

(** *** export: where an argument is split *)

Lemma index_equals_absent (name : string) :
  "="%char ∉ String.list_ascii_of_string name ->
  String.index 0 "=" name = None.
Proof.
  induction name as [|c name IH]; intros Hno; [done|].
  cbn [String.list_ascii_of_string] in Hno.
  apply not_elem_of_cons in Hno as [Hc Hrest].
  cbn [String.index String.prefix].
  destruct (ascii_dec "=" c) as [Heq|_]; [by destruct Hc|].
  by rewrite IH.
Qed.

Lemma index_equals_first (name rest : string) :
  "="%char ∉ String.list_ascii_of_string name ->
  String.index 0 "=" (name +:+ String "=" rest) = Some (String.length name).
Proof.
  induction name as [|c name IH]; intros Hno.
  - change ("" +:+ String "=" rest) with (String "=" rest).
    cbn [String.index String.prefix].
    destruct (ascii_dec "=" "=") as [_|Hne]; [|done]. by destruct rest.
  - cbn [String.list_ascii_of_string] in Hno.
    apply not_elem_of_cons in Hno as [Hc Hrest].
    change (String c name +:+ String "=" rest)
      with (String c (name +:+ String "=" rest)).
    cbn [String.index String.prefix].
    destruct (ascii_dec "=" c) as [Heq|_]; [by destruct Hc|].
    by rewrite IH.
Qed.

Lemma length_append (a b : string) :
  String.length (a +:+ b) = String.length a + String.length b.
Proof.
  induction a as [|c a IH]; [done|].
  change (String c a +:+ b) with (String c (a +:+ b)). simpl. by rewrite IH.
Qed.

Lemma substring_all (s : string) : String.substring 0 (String.length s) s = s.
Proof.
  induction s as [|c s IH]; [done|]. simpl. by rewrite IH.
Qed.

Lemma substring_head (a b : string) :
  String.substring 0 (String.length a) (a +:+ b) = a.
Proof.
  induction a as [|c a IH].
  - by destruct b.
  - change (String c a +:+ b) with (String c (a +:+ b)). simpl. by rewrite IH.
Qed.

Lemma substring_tail (a b : string) (n : nat) :
  String.substring (String.length a) n (a +:+ b) = String.substring 0 n b.
Proof.
  induction a as [|c a IH]; [done|].
  change (String c a +:+ b) with (String c (a +:+ b)). simpl. by rewrite IH.
Qed.

(** X23. export splits an argument at its first equals sign: the name is
    what stands before it, the value everything after it, further equals
    signs included, and the two are handed to Environment::set. An
    argument without an equals sign leaves the environment as it is, and
    the builtin reports Completed with exit code 0 all the same. *)
Theorem export_splits_at_first_equals (env : gmap string string)
  (name value : string) :
  "="%char ∉ String.list_ascii_of_string name ->
  export_one env (name +:+ "=" +:+ value) = Environment_set env name value /\
  export_one env name = env.
Proof.
  intros Hno. unfold export_one. split.
  - change ("=" +:+ value) with (String "=" value).
    rewrite index_equals_first by done.
    rewrite substring_head.
    replace (String.length name + 1) with (String.length (name +:+ "=")).
    2:{ rewrite length_append. done. }
    replace (name +:+ String "=" value) with ((name +:+ "=") +:+ value).
    2:{ clear. induction name as [|c name IH]; [done|].
        change (String c name +:+ "=") with (String c (name +:+ "=")).
        change (String c (name +:+ "=") +:+ value)
          with (String c ((name +:+ "=") +:+ value)).
        change (String c name +:+ String "=" value)
          with (String c (name +:+ String "=" value)).
        by rewrite IH. }
    rewrite substring_tail, length_append.
    replace (String.length (name +:+ "=") + String.length value
             - String.length (name +:+ "=")) with (String.length value) by lia.
    by rewrite substring_all.
  - by rewrite index_equals_absent.
Qed.

(** X23, instance: PATH=/bin:/usr/bin=x, whose value holds an equals sign. *)
Lemma export_splits_at_first_equals_witness :
  ("="%char ∉ String.list_ascii_of_string "PATH") /\
  export_one (environment_ Testbed.shell0) ("PATH" +:+ "=" +:+ "/bin:/usr/bin=x")
  = Environment_set (environment_ Testbed.shell0) "PATH" "/bin:/usr/bin=x" /\
  export_one (environment_ Testbed.shell0) "PATH" = environment_ Testbed.shell0.
Proof.
  assert (H : "="%char ∉ String.list_ascii_of_string "PATH").
  { simpl. rewrite !not_elem_of_cons. repeat split; try done. apply not_elem_of_nil. }
  split; [exact H|].
  exact (export_splits_at_first_equals (environment_ Testbed.shell0) "PATH"
           "/bin:/usr/bin=x" H).
Defined.

Section Laws.

Context {OS : Type}.
Variable chdir : string -> OS -> Z * OS.
Variable getcwd : OS -> option string.
Variable now : OS -> Z.
Variable sys_kill : Z -> Z -> OS -> Z * OS.
Variable stoi : string -> option Z.
Variable parse : string -> gmap string string -> ParsedCommand.
Context {OutputCallback : Type}.
Context {CompletionCallback : Type}.
Variable sys_write : Z -> string -> OS -> Z * OS.
Variable SIGSTOP : Z.
Variable SIGCONT : Z.
Variable sys_select : list Z -> OS -> list Z * OS.
Variable sys_read : Z -> nat -> OS -> list ascii * OS.
Variable sys_waitpid : Z -> OS -> option WaitStatus * OS.

Local Abbreviation Process := (@ManagedProcess OutputCallback CompletionCallback).
Local Abbreviation ShellState := (@ShellImpl OutputCallback CompletionCallback).

Variable io_progress : nat -> Process -> Process.

Local Abbreviation terminate := (Shell.terminate now sys_kill).
Local Abbreviation suspend := (ShellExt.suspend sys_kill SIGSTOP).
Local Abbreviation resume := (ShellExt.resume sys_kill SIGCONT).
Local Abbreviation sendInput := (ShellExt.sendInput sys_write).
Local Abbreviation process_step :=
  (ShellExt.process_step (OutputCallback := OutputCallback)
     (CompletionCallback := CompletionCallback) now sys_kill sys_write
     SIGSTOP SIGCONT sys_select sys_read sys_waitpid).
Local Abbreviation terminateProcess := (Shell.terminateProcess now sys_kill).
Local Abbreviation suspendProcess := (ShellExt.suspendProcess sys_kill SIGSTOP).
Local Abbreviation resumeProcess := (ShellExt.resumeProcess sys_kill SIGCONT).
Local Abbreviation ShellImpl_sendInput := (ShellExt.ShellImpl_sendInput sys_write).
Local Abbreviation shutdown := (ShellExt.shutdown now sys_kill).
Local Abbreviation ioThreadPass :=
  (ShellExt.ioThreadPass (OutputCallback := OutputCallback)
     (CompletionCallback := CompletionCallback) now sys_kill sys_write
     SIGSTOP SIGCONT sys_select sys_read sys_waitpid).
Local Abbreviation parseCommand :=
  (Shell.parseCommand (OutputCallback := OutputCallback)
     (CompletionCallback := CompletionCallback) parse).
Local Abbreviation executeAsync :=
  (Shell.executeAsync (OutputCallback := OutputCallback)
     (CompletionCallback := CompletionCallback) now parse).
Local Abbreviation executeInteractive :=
  (Shell.executeInteractive (OutputCallback := OutputCallback)
     (CompletionCallback := CompletionCallback) now parse).
Local Abbreviation executeSync :=
  (Shell.executeSync chdir getcwd now sys_kill stoi parse io_progress).
Local Abbreviation executeBuiltin :=
  (Shell.executeBuiltin (OutputCallback := OutputCallback)
     (CompletionCallback := CompletionCallback) chdir getcwd now sys_kill stoi).
Local Abbreviation executeBuiltinKill :=
  (Shell.executeBuiltinKill (OutputCallback := OutputCallback)
     (CompletionCallback := CompletionCallback) now sys_kill stoi).
Local Abbreviation shell_step :=
  (ShellExt.shell_step (OutputCallback := OutputCallback)
     (CompletionCallback := CompletionCallback) now sys_kill sys_write
     SIGSTOP SIGCONT sys_select sys_read sys_waitpid chdir getcwd stoi parse
     io_progress).
Local Abbreviation shell_run :=
  (ShellExt.shell_run (OutputCallback := OutputCallback)
     (CompletionCallback := CompletionCallback) now sys_kill sys_write
     SIGSTOP SIGCONT sys_select sys_read sys_waitpid chdir getcwd stoi parse
     io_progress).

(** *** Launching *)

(** X24. For a command that parses to a valid one, executeAsync returns
    the pid counter's value and advances the counter by one; under that pid
    getProcessInfo reports a Running process with the parsed executable
    and arguments and the clock reading of the call, and no output yet; the
    entries under every other pid, the current directory and the
    environment are as before, also when the executable names a builtin;
    and when the table holds no process under that pid yet, the system is
    not touched. A process already stored under the pid is replaced; the
    assignment destroys it, and what that does to the system is not stated
    here. *)
Theorem executeAsync_registers (cmd : string) (options : ExecutionOptions)
  (output_callback : option OutputCallback)
  (completion_callback : option CompletionCallback)
  (s : ShellState) (os : OS) :
  isValid (parseCommand s cmd) = true ->
  let r := executeAsync cmd options output_callback completion_callback s os in
  let s' := snd (fst r) in
  fst (fst r) = next_pid_ s /\
  (active_processes_ s !! next_pid_ s = None -> snd r = os) /\
  getProcessInfo s' (next_pid_ s)
  = {| pid := next_pid_ s; parent_pid := 0; state := Running; exit_code := 0;
       start_time := now os; end_time := 0;
       command := executable (parseCommand s cmd);
       arguments := parsed_arguments (parseCommand s cmd); working_dir := "" |} /\
  ShellImpl_hasOutput s' (next_pid_ s) = false /\
  (forall p, p <> next_pid_ s -> active_processes_ s' !! p = active_processes_ s !! p) /\
  next_pid_ s' = wrap_int (next_pid_ s + 1) /\
  getCurrentDirectory s' = getCurrentDirectory s /\
  environment_ s' = environment_ s.
Proof.
  intros Hvalid. cbv zeta. unfold Shell.executeAsync.
  rewrite Hvalid. cbn [negb]. unfold createProcess, start. simpl.
  unfold getProcessInfo, ShellImpl_hasOutput. simpl.
  rewrite lookup_insert_eq. simpl.
  repeat split; try done.
  intros p Hp. by rewrite lookup_insert_ne.
Qed.

(** X25. executeInteractive does what executeAsync does when given no
    callbacks, on every command. *)
Theorem executeInteractive_as_executeAsync (cmd : string)
  (options : ExecutionOptions) (s : ShellState) (os : OS) :
  executeInteractive cmd options s os = executeAsync cmd options None None s os.
Proof.
  unfold Shell.executeInteractive, Shell.executeAsync.
  destruct (negb _); [done|]. reflexivity.
Qed.

Lemma wrap_int_succ (n : Z) :
  (- 2 ^ 31 <= n < 2 ^ 31)%Z -> wrap_int (n + 1) <> n.
Proof.
  intros Hn. unfold wrap_int.
  destruct (Z.eq_dec n (2 ^ 31 - 1)) as [->|Hne].
  - vm_compute. discriminate.
  - rewrite Z.mod_small by lia. lia.
Qed.

(** X26. Two launches in a row, of valid commands, return different pids
    as long as the counter holds an int, 2^31 - 1 included, where the
    counter wraps; after the second launch both pids report a Running
    process, the first one still with its own executable. *)
Theorem successive_launches_distinct (cmd1 cmd2 : string)
  (options1 options2 : ExecutionOptions)
  (output_callback : option OutputCallback)
  (completion_callback : option CompletionCallback)
  (s : ShellState) (os : OS) :
  (- 2 ^ 31 <= next_pid_ s < 2 ^ 31)%Z ->
  isValid (parseCommand s cmd1) = true ->
  isValid (parseCommand s cmd2) = true ->
  let r1 := executeAsync cmd1 options1 output_callback completion_callback s os in
  let r2 := executeInteractive cmd2 options2 (snd (fst r1)) (snd r1) in
  let s2 := snd (fst r2) in
  fst (fst r1) <> fst (fst r2) /\
  state (getProcessInfo s2 (fst (fst r1))) = Running /\
  command (getProcessInfo s2 (fst (fst r1))) = executable (parseCommand s cmd1) /\
  state (getProcessInfo s2 (fst (fst r2))) = Running /\
  command (getProcessInfo s2 (fst (fst r2))) = executable (parseCommand s cmd2).
Proof.
  intros Hint H1 H2. cbv zeta.
  pose proof (wrap_int_succ (next_pid_ s) Hint) as Hne.
  unfold Shell.executeInteractive, Shell.executeAsync.
  rewrite H1. cbn [negb]. unfold createProcess, start. simpl.
  unfold Shell.parseCommand in *. simpl. rewrite H2. simpl.
  unfold getProcessInfo. simpl.
  rewrite lookup_insert_eq. rewrite lookup_insert_ne by done. rewrite lookup_insert_eq.
  simpl. repeat split; done.
Qed.

(** *** Sessions *)

Lemma set_processes_id (s : ShellState) (p : Z) (q : Process) :
  active_processes_ s !! p = Some q ->
  set_processes s (<[p := q]> (active_processes_ s)) = s.
Proof.
  intros Hq. unfold set_processes. rewrite insert_id by done. by destruct s.
Qed.

Lemma launched_terminate (q : Process) (force : bool) (os : OS) :
  launched q -> terminate q force os = (false, q, os).
Proof.
  intros (Hh & Hr & Hs). unfold Shell.terminate. by rewrite Hr, Hh.
Qed.

Lemma launched_suspend (q : Process) (os : OS) :
  launched q -> suspend q os = (false, q, os).
Proof.
  intros (Hh & Hr & Hs). unfold ShellExt.suspend. by rewrite Hr, Hh.
Qed.

Lemma launched_resume (q : Process) (os : OS) :
  launched q -> resume q os = (false, q, os).
Proof.
  intros (Hh & Hr & Hs). unfold ShellExt.resume. by rewrite Hs.
Qed.

Lemma launched_sendInput (q : Process) (input : string) (os : OS) :
  launched q -> sendInput q input os = (false, q, os).
Proof.
  intros (Hh & Hr & Hs). unfold ShellExt.sendInput. by rewrite Hr, Hh.
Qed.

Lemma launched_io_thread (q : Process) (os : OS) :
  launched q -> process_step (q, os) OpIoThread = (q, os).
Proof.
  intros (Hh & Hr & Hs). cbn [ShellExt.process_step].
  unfold ShellExt.ioThreadIteration. rewrite Hh. simpl.
  by destruct (io_thread_active_ q).
Qed.

Lemma readOutput_keeps (q : Process) (max_bytes : Z) :
  snd (readOutput q max_bytes) = q.
Proof.
  unfold readOutput. by repeat case_match.
Qed.

Lemma terminateProcess_launched (s : ShellState) (os : OS) (p : Z) (force : bool) :
  all_launched s -> terminateProcess s os p force = (false, s, os).
Proof.
  intros Hall. unfold Shell.terminateProcess.
  destruct (active_processes_ s !! p) as [q|] eqn:Hq; [|done].
  rewrite launched_terminate by exact (Hall p q Hq). by rewrite set_processes_id.
Qed.

Lemma suspendProcess_launched (s : ShellState) (os : OS) (p : Z) :
  all_launched s -> suspendProcess s os p = (false, s, os).
Proof.
  intros Hall. unfold ShellExt.suspendProcess.
  destruct (active_processes_ s !! p) as [q|] eqn:Hq; [|done].
  rewrite launched_suspend by exact (Hall p q Hq). by rewrite set_processes_id.
Qed.

Lemma resumeProcess_launched (s : ShellState) (os : OS) (p : Z) :
  all_launched s -> resumeProcess s os p = (false, s, os).
Proof.
  intros Hall. unfold ShellExt.resumeProcess.
  destruct (active_processes_ s !! p) as [q|] eqn:Hq; [|done].
  rewrite launched_resume by exact (Hall p q Hq). by rewrite set_processes_id.
Qed.

Lemma sendInput_launched (s : ShellState) (os : OS) (p : Z) (input : string) :
  all_launched s -> ShellImpl_sendInput s os p input = (false, s, os).
Proof.
  intros Hall. unfold ShellExt.ShellImpl_sendInput.
  destruct (active_processes_ s !! p) as [q|] eqn:Hq; [|done].
  rewrite launched_sendInput by exact (Hall p q Hq). by rewrite set_processes_id.
Qed.

Lemma readOutput_launched (s : ShellState) (p : Z) (max_bytes : Z) :
  snd (ShellImpl_readOutput s p max_bytes) = s.
Proof.
  unfold ShellImpl_readOutput.
  destruct (active_processes_ s !! p) as [q|] eqn:Hq; [|done].
  pose proof (readOutput_keeps q max_bytes) as Hk.
  destruct (readOutput q max_bytes) as [out q']. simpl in *. subst q'.
  by rewrite set_processes_id.
Qed.

Lemma ioThreadPass_launched (s : ShellState) (os : OS) (p : Z) :
  all_launched s -> ioThreadPass s os p = (s, os).
Proof.
  intros Hall. unfold ShellExt.ioThreadPass.
  destruct (active_processes_ s !! p) as [q|] eqn:Hq; [|done].
  rewrite launched_io_thread by exact (Hall p q Hq). by rewrite set_processes_id.
Qed.

Lemma cleanup_launched (s : ShellState) :
  all_launched s -> cleanupCompletedProcesses s = s.
Proof.
  intros Hall. unfold cleanupCompletedProcesses.
  rewrite map_filter_id; [by destruct s|].
  intros p q Hq. destruct (Hall p q Hq) as (_ & _ & Hs).
  unfold isComplete. simpl. by rewrite Hs.
Qed.

Lemma foldl_fixed {A B : Type} (f : A -> B -> A) (a : A) (l : list B) :
  Forall (fun b => f a b = a) l -> foldl f a l = a.
Proof.
  induction 1 as [|b l Hb _ IH]; [done|]. simpl. by rewrite Hb.
Qed.

Lemma shutdown_launched (s : ShellState) (os : OS) :
  all_launched s -> shutdown s os = (set_processes s ∅, os).
Proof.
  intros Hall. unfold ShellExt.shutdown. f_equal.
  apply foldl_fixed, Forall_forall. intros [p q] Hin.
  apply elem_of_map_to_list in Hin. simpl.
  destruct (isRunning q); [|done].
  by rewrite launched_terminate by exact (Hall p q Hin).
Qed.

Lemma all_launched_same_table (s s' : ShellState) :
  active_processes_ s' = active_processes_ s -> all_launched s -> all_launched s'.
Proof.
  unfold all_launched. by intros ->.
Qed.

Lemma executeBuiltin_table (cmd : string) (args : list string)
  (options : ExecutionOptions) (s : ShellState) (os : OS) :
  all_launched s ->
  active_processes_ (snd (fst (executeBuiltin cmd args options s os)))
  = active_processes_ s.
Proof.
  intros Hall. unfold Shell.executeBuiltin.
  repeat (case_match; try done).
  - unfold executeBuiltinCd, setCurrentDirectory.
    repeat (case_match; simplify_eq; try done).
  - unfold Shell.executeBuiltinKill.
    destruct args as [|a args]; [done|].
    destruct (stoi a) as [p|]; [|done].
    by rewrite terminateProcess_launched.
Qed.

Lemma all_launched_step (s : ShellState) (os : OS) (o : shell_op) :
  all_launched s -> all_launched (fst (shell_step (s, os) o)).
Proof.
  intros Hall. destruct o; cbn [ShellExt.shell_step].
  - unfold Shell.executeSync.
    destruct (negb _); [done|].
    destruct (isBuiltinCommand _).
    + pose proof (executeBuiltin_table
                    (executable (Shell.parseCommand parse s cmd))
                    (parsed_arguments (Shell.parseCommand parse s cmd))
                    options s os Hall) as Ht.
      destruct (Shell.executeBuiltin _ _ _ _ _ _ _ _ _ _) as [[info s'] os'].
      simpl in *. by apply (all_launched_same_table s s').
    + unfold createProcess, start. simpl. done.
  - unfold Shell.executeAsync.
    destruct (negb _); [done|].
    unfold createProcess, start. simpl.
    apply map_Forall_insert_2; [|done]. by repeat split.
  - unfold Shell.executeInteractive.
    destruct (negb _); [done|].
    unfold createProcess, start. simpl.
    apply map_Forall_insert_2; [|done]. by repeat split.
  - by rewrite terminateProcess_launched.
  - by rewrite suspendProcess_launched.
  - by rewrite resumeProcess_launched.
  - by rewrite sendInput_launched.
  - by rewrite readOutput_launched.
  - unfold setCurrentDirectory. destruct (chdir path os) as [rc os1].
    destruct (rc =? 0)%Z; [|done]. by destruct (getcwd os1).
  - by rewrite cleanup_launched.
  - by rewrite ioThreadPass_launched.
  - rewrite shutdown_launched by done. apply map_Forall_empty.
Qed.

Lemma all_launched_run (ops : list shell_op) (s : ShellState) (os : OS) :
  all_launched s -> all_launched (fst (shell_run s os ops)).
Proof.
  unfold ShellExt.shell_run. revert s os.
  induction ops as [|o ops IH]; intros s os Hall; [done|].
  cbn [foldl]. pose proof (all_launched_step s os o Hall) as Hstep.
  destruct (shell_step (s, os) o) as [s' os']. by apply IH.
Qed.

(** X27. In a shell that started with an empty table, after any sequence
    of executeSync, executeAsync, executeInteractive, terminateProcess,
    suspendProcess, resumeProcess, sendInput, readOutput,
    setCurrentDirectory and shutdown calls and passes of the cleanup and
    I/O threads, every process in the table is running with the handle its
    constructor made, which is not valid. So every entry of
    getAllProcesses is active; terminateProcess, suspendProcess,
    resumeProcess and sendInput return false for every pid and change
    nothing; the cleanup removes nothing; the kill builtin fails with exit
    code 1; and shutdown sends no signal. *)
Theorem launched_processes_never_end (s0 : ShellState) (os0 : OS)
  (ops : list shell_op) :
  active_processes_ s0 = ∅ ->
  let s := fst (shell_run s0 os0 ops) in
  (forall p q, active_processes_ s !! p = Some q ->
     isRunning q = true /\ isComplete q = false /\
     ProcessHandle_isValid (handle_ q) = false) /\
  (forall info, info ∈ getAllProcesses s -> isActive info = true) /\
  (forall os p force, terminateProcess s os p force = (false, s, os)) /\
  (forall os p, suspendProcess s os p = (false, s, os)) /\
  (forall os p, resumeProcess s os p = (false, s, os)) /\
  (forall os p input, ShellImpl_sendInput s os p input = (false, s, os)) /\
  cleanupCompletedProcesses s = s /\
  (forall os args,
     state (fst (fst (executeBuiltinKill args s os))) = Failed /\
     exit_code (fst (fst (executeBuiltinKill args s os))) = 1%Z /\
     snd (fst (executeBuiltinKill args s os)) = s /\
     snd (executeBuiltinKill args s os) = os) /\
  (forall os, shutdown s os = (set_processes s ∅, os)).
Proof.
  intros Hempty. cbv zeta.
  assert (Hall : all_launched (fst (shell_run s0 os0 ops))).
  { apply all_launched_run. unfold all_launched. rewrite Hempty.
    apply map_Forall_empty. }
  set (s := fst (shell_run s0 os0 ops)) in *.
  split; [|split; [|split; [|split; [|split; [|split; [|split; [|split]]]]]]].
  - intros p q Hq. destruct (Hall p q Hq) as (Hh & Hr & Hs).
    unfold isRunning, isComplete, ProcessHandle_isValid. by rewrite Hh, Hr, Hs.
  - intros info Hin. unfold getAllProcesses in Hin.
    apply list_elem_of_fmap in Hin as ([p q] & -> & Hin).
    apply elem_of_map_to_list in Hin.
    destruct (Hall p q Hin) as (_ & _ & Hs).
    unfold isActive, getInfo. simpl. by rewrite Hs.
  - intros. by apply terminateProcess_launched.
  - intros. by apply suspendProcess_launched.
  - intros. by apply resumeProcess_launched.
  - intros. by apply sendInput_launched.
  - by apply cleanup_launched.
  - intros os args. unfold Shell.executeBuiltinKill.
    destruct args as [|a args]; [done|].
    destruct (stoi a) as [p|]; [|done].
    by rewrite terminateProcess_launched.
  - intros. by apply shutdown_launched.
Qed.

(** *** Cleanup and shutdown *)

(** X28. cleanupCompletedProcesses keeps exactly the entries whose
    process is not complete and nothing else of the shell changes; for a
    pid whose process was complete, getProcessInfo then reports
    NotStarted with exit code 0, whatever the process's exit code was; and
    a second cleanup changes nothing. *)
Theorem cleanup_forgets_completed (s : ShellState) :
  let s' := cleanupCompletedProcesses s in
  (forall p q, active_processes_ s' !! p = Some q <->
               active_processes_ s !! p = Some q /\ isComplete q = false) /\
  (forall p q, active_processes_ s !! p = Some q -> isComplete q = true ->
     state (getProcessInfo s' p) = NotStarted /\
     exit_code (getProcessInfo s' p) = 0%Z /\
     ShellImpl_hasOutput s' p = false) /\
  next_pid_ s' = next_pid_ s /\
  getCurrentDirectory s' = getCurrentDirectory s /\
  environment_ s' = environment_ s /\
  cleanupCompletedProcesses s' = s'.
Proof.
  cbv zeta.
  assert (Hlook : forall p q,
            active_processes_ (cleanupCompletedProcesses s) !! p = Some q <->
            active_processes_ s !! p = Some q /\ isComplete q = false).
  { intros p q. unfold cleanupCompletedProcesses. simpl.
    by rewrite map_lookup_filter_Some. }
  split; [exact Hlook|]. split; [|split; [done|split; [done|split; [done|]]]].
  - intros p q Hq Hc.
    assert (Hnone : active_processes_ (cleanupCompletedProcesses s) !! p = None).
    { destruct (active_processes_ (cleanupCompletedProcesses s) !! p) as [q'|] eqn:Hq';
        [|done].
      apply Hlook in Hq' as [Hq2 Hc2]. congruence. }
    unfold getProcessInfo, ShellImpl_hasOutput. by rewrite Hnone.
  - unfold cleanupCompletedProcesses at 1 3. unfold set_processes. simpl.
    f_equal. apply map_filter_id. intros p q Hq.
    apply Hlook in Hq as [_ Hc]. done.
Qed.


(** *** Builtins *)

Ltac settle_builtin :=
  split; [done|]; split; [done|];
  split; [by intros [?|Hb]|];
  split; done.

(** X30. What executeBuiltin does by name. Every name but cd, kill and
    export leaves the shell and the system as they are. Every name
    isBuiltinCommand accepts, help apart, is run by its own function: the
    result carries that name, the arguments and the clock reading of the
    call. help, which isBuiltinCommand accepts too, and every other name
    give a Failed result with exit code 1 and no command name. A Failed
    result always has exit code 1; exit gives a Completed one, the shell
    goes on, and the exit code is the one std::stoi reads in the first
    argument, 1 when it throws and 0 without arguments. *)
Theorem builtin_dispatch (cmd : string) (args : list string)
  (options : ExecutionOptions) (s : ShellState) (os : OS) :
  let r := executeBuiltin cmd args options s os in
  let info := fst (fst r) in
  (cmd <> "cd" -> cmd <> "kill" -> cmd <> "export" ->
   snd (fst r) = s /\ snd r = os) /\
  (isBuiltinCommand cmd = true -> cmd <> "help" ->
   command info = cmd /\ arguments info = args /\ start_time info = now os) /\
  (cmd = "help" \/ isBuiltinCommand cmd = false ->
   state info = Failed /\ exit_code info = 1%Z /\ command info = "") /\
  (state info = Failed -> exit_code info = 1%Z) /\
  (cmd = "exit" ->
   state info = Completed /\
   exit_code info = match args with
                    | [] => 0%Z
                    | a :: _ => default 1%Z (stoi a)
                    end).
Proof.
  cbv zeta. unfold Shell.executeBuiltin, isBuiltinCommand, builtins.
  destruct (String.eqb_spec cmd "cd") as [->|Hcd].
  { unfold executeBuiltinCd.
    destruct (setCurrentDirectory _ _ _ _ _) as [[ok s1] os1].
    destruct ok; simpl; settle_builtin. }
  destruct (String.eqb_spec cmd "pwd") as [->|Hpwd]; [simpl; settle_builtin|].
  destruct (String.eqb_spec cmd "echo") as [->|Hecho]; [simpl; settle_builtin|].
  destruct (String.eqb_spec cmd "exit") as [->|Hexit].
  { unfold executeBuiltinExit.
    destruct args as [|a args]; [simpl; settle_builtin|].
    destruct (stoi a); simpl; settle_builtin. }
  destruct (String.eqb_spec cmd "jobs") as [->|Hjobs]; [simpl; settle_builtin|].
  destruct (String.eqb_spec cmd "kill") as [->|Hkill].
  { unfold Shell.executeBuiltinKill.
    destruct args as [|a args]; [simpl; settle_builtin|].
    destruct (stoi a) as [p|]; [|simpl; settle_builtin].
    destruct (Shell.terminateProcess _ _ _ _ _ _) as [[success s1] os1].
    destruct success; simpl; settle_builtin. }
  destruct (String.eqb_spec cmd "export") as [->|Hexport]; [simpl; settle_builtin|].
  cbn [fst snd]. split; [done|]. split; [|done].
  intros Hb Hhelp. apply bool_decide_eq_true in Hb.
  repeat (apply elem_of_cons in Hb as [Hb|Hb]; [done|]).
  by apply elem_of_nil in Hb.
Qed.

End Laws.

(** X24, instance: ls -l in the test bed's shell. *)
Lemma executeAsync_registers_witness :
  isValid (Shell.parseCommand Testbed.parse Testbed.shell0 "ls -l") = true /\
  (let r := Shell.executeAsync Testbed.now Testbed.parse "ls -l"
              ExecutionOptions_default None None Testbed.shell0 Testbed.os0 in
   fst (fst r) = 1000%Z /\
   active_processes_ Testbed.shell0 !! next_pid_ Testbed.shell0 = None /\
   snd r = Testbed.os0).
Proof.
  assert (H : isValid (Shell.parseCommand Testbed.parse Testbed.shell0 "ls -l") = true)
    by (vm_compute; reflexivity).
  assert (Hfree : active_processes_ Testbed.shell0 !! next_pid_ Testbed.shell0 = None)
    by reflexivity.
  split; [exact H|].
  destruct (executeAsync_registers Testbed.now Testbed.parse "ls -l"
              ExecutionOptions_default None None Testbed.shell0 Testbed.os0 H)
    as (Hpid & Hos & _).
  exact (conj Hpid (conj Hfree (Hos Hfree))).
Defined.

(** X26, instance: two launches from the test bed's shell. *)
Lemma successive_launches_distinct_witness :
  (- 2 ^ 31 <= next_pid_ Testbed.shell0 < 2 ^ 31)%Z /\
  isValid (Shell.parseCommand Testbed.parse Testbed.shell0 "ls -l") = true /\
  isValid (Shell.parseCommand Testbed.parse Testbed.shell0 "cat notes.txt") = true /\
  (let r1 := Shell.executeAsync Testbed.now Testbed.parse "ls -l"
               ExecutionOptions_default None None Testbed.shell0 Testbed.os0 in
   let r2 := Shell.executeInteractive Testbed.now Testbed.parse "cat notes.txt"
               ExecutionOptions_default (snd (fst r1)) (snd r1) in
   fst (fst r1) <> fst (fst r2)).
Proof.
  assert (H0 : (- 2 ^ 31 <= next_pid_ Testbed.shell0 < 2 ^ 31)%Z)
    by (simpl; lia).
  assert (H1 : isValid (Shell.parseCommand Testbed.parse Testbed.shell0 "ls -l") = true)
    by (vm_compute; reflexivity).
  assert (H2 : isValid (Shell.parseCommand Testbed.parse Testbed.shell0
                          "cat notes.txt") = true)
    by (vm_compute; reflexivity).
  split; [exact H0|]. split; [exact H1|]. split; [exact H2|].
  destruct (successive_launches_distinct Testbed.now Testbed.parse
              "ls -l" "cat notes.txt" ExecutionOptions_default
              ExecutionOptions_default None None Testbed.shell0 Testbed.os0
              H0 H1 H2) as (Hne & _).
  exact Hne.
Defined.

(** X27, instance: a launch, then a forced terminate, a pass of the I/O
    thread and a cleanup. *)
Lemma launched_processes_never_end_witness :
  active_processes_ Testbed.shell0 = ∅ /\
  (let s := fst (ShellExt.shell_run Testbed.now Testbed.sys_kill
                   IoTestbed.sys_write 19 18 IoTestbed.sys_select
                   IoTestbed.sys_read IoTestbed.sys_waitpid Testbed.chdir
                   Testbed.getcwd Testbed.stoi Testbed.parse
                   Testbed.idle_io_thread Testbed.shell0 Testbed.os0
                   [ExecuteAsync "ls -l" ExecutionOptions_default None None;
                    TerminateProcess 1000 true; IoThreadPass 1000;
                    CleanupCompleted]) in
   cleanupCompletedProcesses s = s /\
   forall os p force,
     Shell.terminateProcess Testbed.now Testbed.sys_kill s os p force
     = (false, s, os)).
Proof.
  assert (H : active_processes_ Testbed.shell0 = ∅) by reflexivity.
  split; [exact H|].
  destruct (launched_processes_never_end Testbed.chdir Testbed.getcwd
              Testbed.now Testbed.sys_kill Testbed.stoi Testbed.parse
              IoTestbed.sys_write 19 18 IoTestbed.sys_select
              IoTestbed.sys_read IoTestbed.sys_waitpid Testbed.idle_io_thread
              Testbed.shell0 Testbed.os0
              [ExecuteAsync "ls -l" ExecutionOptions_default None None;
               TerminateProcess 1000 true; IoThreadPass 1000;
               CleanupCompleted] H)
    as (_ & _ & Hterm & _ & _ & _ & Hclean & _).
  exact (conj Hclean Hterm).
Defined.

End ShellLaws.
